(** * dwarfreflect: parameter-name resolution and name-based invocation

    A shallow embedding of the Go package [dwarfreflect]
    (resolver.go and function.go) together with the properties its
    specification states about it.

    Conventions of the embedding:
    - Go strings are byte strings: [string] (a list of 8-bit characters);
    - Go maps are [gmap]s ([map[string][]string], [map[string]any]);
    - slices are lists, [s[i]] is list lookup and [s[i] = v] list insert;
    - a Go function returning [(T, error)] returns a sum or a pair with an
      optional error, a run-time panic is an outcome of its own;
    - the wrapped callable is invoked through an explicit call log, so that
      "the callable was not invoked" is a property of the final state. *)

From Stdlib Require Import ZArith Bool Ascii.
From Stdlib.Strings Require Import Byte.
From stdpp Require Import base gmap strings list fin_maps.

Local Open Scope Z_scope.
Local Open Scope nat_scope.

Set Warnings "-register-all".

(* ===================================================================== *)
(** * Package strings: the functions the resolver uses                    *)
(* ===================================================================== *)

Module strings.

(** [strings.HasPrefix(s, prefix)]. *)
Definition HasPrefix (s prefix : string) : bool := String.prefix prefix s.

(** [strings.Contains(s, substr)]: [substr] starts at some offset of [s]. *)
Fixpoint Contains (s substr : string) : bool :=
  HasPrefix s substr ||
  match s with
  | EmptyString => false
  | String _ s' => Contains s' substr
  end.

(** Offset of the first occurrence of [substr] in [s], if any. *)
Fixpoint firstOccurrence (s substr : string) : option nat :=
  if HasPrefix s substr then Some 0
  else match s with
       | EmptyString => None
       | String _ s' => S <$> firstOccurrence s' substr
       end.

(** [strings.Index(s, substr)]: -1 when [substr] does not occur. *)
Definition Index (s substr : string) : Z :=
  match firstOccurrence s substr with
  | Some k => Z.of_nat k
  | None => (-1)%Z
  end.

(** Offset of the last occurrence of [substr] in [s], if any. *)
Fixpoint lastOccurrence (s substr : string) : option nat :=
  match s with
  | EmptyString => if HasPrefix s substr then Some 0 else None
  | String _ s' =>
      match lastOccurrence s' substr with
      | Some k => Some (S k)
      | None => if HasPrefix s substr then Some 0 else None
      end
  end.

(** [strings.LastIndex(s, substr)]: -1 when [substr] does not occur. *)
Definition LastIndex (s substr : string) : Z :=
  match lastOccurrence s substr with
  | Some k => Z.of_nat k
  | None => (-1)%Z
  end.

(** The loop of [strings.Split] for a non-empty separator: [skip] counts the
    bytes of a separator that was just recognised and is still being
    consumed, [cur] is the piece under construction. *)
Fixpoint splitLoop (sep : string) (skip : nat) (cur : string) (s : string)
  : list string :=
  match s with
  | EmptyString => [cur]
  | String c s' =>
      match skip with
      | S k => splitLoop sep k cur s'
      | O =>
          if HasPrefix s sep
          then cur :: splitLoop sep (String.length sep - 1) EmptyString s'
          else splitLoop sep 0 (cur +:+ String c EmptyString) s'
      end
  end.

(** [strings.Split(s, sep)] for a non-empty [sep]. *)
Definition Split (s sep : string) : list string :=
  splitLoop sep 0 EmptyString s.

(** The slice expressions [s[:hi]] and [s[lo:]] with in-range bounds. *)
Definition sliceTo (s : string) (hi : Z) : string :=
  String.substring 0 (Z.to_nat hi) s.

Definition sliceFrom (s : string) (lo : Z) : string :=
  String.substring (Z.to_nat lo) (String.length s - Z.to_nat lo) s.

End strings.

(* ===================================================================== *)
(** * resolver.go                                                          *)
(* ===================================================================== *)

(** ** Executable formats and the errors of the package *)

Inductive ExecutableFormat : Type :=
| FormatUnknown
| FormatELF
| FormatPE
| FormatMachO.

(** [ExecutableFormat.String]. *)
Definition FormatString (f : ExecutableFormat) : string :=
  match f with
  | FormatELF => "ELF"
  | FormatPE => "PE"
  | FormatMachO => "Mach-O"
  | FormatUnknown => "Unknown"
  end.

(** Run-time types ([reflect.Type]). Two values of [rtype] are the same Go
    type exactly when they are equal: struct types are identical when they
    have the same sequence of fields with the same names, package paths,
    types and tags; a defined type is given with its underlying type. *)
Inductive rtype : Type :=
| TBasic (name : string)            (* bool, int, string, float64, named types *)
| TContext                          (* the interface type context.Context *)
| TNamed (name : string) (underlying : rtype)   (* type name underlying *)
| TPtr (elem : rtype)
| TSlice (elem : rtype)
| TStruct (fields : list StructField)
with StructField : Type :=
| mkField (Name PkgPath : string) (Type_ : rtype) (Tag : string).
    (* reflect.StructField: PkgPath is the package of a field that is not
       exported, and empty for an exported field *)

Definition fieldName (f : StructField) : string :=
  match f with mkField Name _ _ _ => Name end.

Definition fieldPkgPath (f : StructField) : string :=
  match f with mkField _ PkgPath _ _ => PkgPath end.

Definition fieldType (f : StructField) : rtype :=
  match f with mkField _ _ Type_ _ => Type_ end.

Definition fieldTag (f : StructField) : string :=
  match f with mkField _ _ _ Tag => Tag end.

(** [StructField.IsExported]. *)
Definition IsExported (f : StructField) : bool :=
  String.eqb (fieldPkgPath f) EmptyString.

(** [t1 == t2] on [reflect.Type]. *)
Fixpoint rtype_eqb (a b : rtype) : bool :=
  match a, b with
  | TBasic x, TBasic y => String.eqb x y
  | TContext, TContext => true
  | TNamed n x, TNamed m y => String.eqb n m && rtype_eqb x y
  | TPtr x, TPtr y => rtype_eqb x y
  | TSlice x, TSlice y => rtype_eqb x y
  | TStruct fs, TStruct gs =>
      (fix fields_eqb (fs gs : list StructField) {struct fs} : bool :=
         match fs, gs with
         | [], [] => true
         | mkField n p t g :: fs', mkField n' p' t' g' :: gs' =>
             String.eqb n n' && String.eqb p p' && rtype_eqb t t' &&
             String.eqb g g' && fields_eqb fs' gs'
         | _, _ => false
         end) fs gs
  | _, _ => false
  end.

(** What a [%v], [%s], [%d] or [%q] verb of an error message is given. *)
Inductive operand : Type :=
| OpString (s : string)
| OpStrings (l : list string)
| OpInt (n : Z)
| OpBytes (b : list byte)
| OpFormat (f : ExecutableFormat)
| OpType (t : rtype).

(** The errors of the package, one constructor per [fmt.Errorf] call (and one
    per operating-system failure), each holding the operands of its format. *)
Inductive error : Type :=
| ErrExecutable                               (* os.Executable failed *)
| ErrOpen (filename : string)                 (* os.Open failed *)
| ErrRead                                     (* file.Read failed, io.EOF on an empty file *)
| ErrUnknownMagic (magic : list byte)         (* unknown executable format, magic bytes: %x *)
| ErrCannotExtract (funcName execPath : string) (format : ExecutableFormat)
    (available : nat) (paramCount : nat)
    (* Cannot extract real parameter names for function %q ...
       Current executable: %s (format: %s), Available DWARF functions: %d,
       Function: %s | Expected parameters: %d *)
| ErrNotAFunction                             (* NewFunction requires a function *)
| ErrWrongArgCount (expected got : nat)       (* wrong number of arguments: expected %d, got %d *)
| ErrArgType (i : nat) (paramName : string) (actual expected : rtype)
    (* argument %d (%s): cannot assign %v to %v *)
| ErrNotEnoughArgs (expected got : nat)
    (* not enough arguments: expected %d non-context args, got %d *)
| ErrStructTypeMismatch (expected got : rtype)
    (* struct type mismatch: expected %v, got %v *)
| ErrMissingParams (missing : list string) (funcName : string) (paramNames : list string)
    (* missing required parameters %v (function %s expects %v) *)
| ErrParamType (paramName : string) (actual expected : rtype).
    (* parameter %q: cannot assign %v to %v *)

(** The operands an error message is formatted from, in the order of the
    [fmt.Errorf] call that builds it. *)
Definition operands (e : error) : list operand :=
  match e with
  | ErrExecutable => []
  | ErrOpen filename => [OpString filename]
  | ErrRead => []
  | ErrUnknownMagic magic => [OpBytes magic]
  | ErrCannotExtract funcName execPath format available paramCount =>
      [OpString funcName; OpString execPath; OpFormat format;
       OpInt (Z.of_nat available); OpString funcName; OpInt (Z.of_nat paramCount)]
  | ErrNotAFunction => []
  | ErrWrongArgCount expected got => [OpInt (Z.of_nat expected); OpInt (Z.of_nat got)]
  | ErrArgType i paramName actual expected =>
      [OpInt (Z.of_nat i); OpString paramName; OpType actual; OpType expected]
  | ErrNotEnoughArgs expected got => [OpInt (Z.of_nat expected); OpInt (Z.of_nat got)]
  | ErrStructTypeMismatch expected got => [OpType expected; OpType got]
  | ErrMissingParams missing funcName paramNames =>
      [OpStrings missing; OpString funcName; OpStrings paramNames]
  | ErrParamType paramName actual expected =>
      [OpString paramName; OpType actual; OpType expected]
  end.

(** ** The file system seen by [DetectExecutableFormat] *)

(** A path names a regular file with its bytes, or something that opens but
    cannot be read (a directory); a path that is absent cannot be opened. *)
Inductive node : Type :=
| Regular (data : list byte)
| Unreadable.

(** The process environment: the files, and what [os.Executable] returns
    ([None] when it fails). *)
Record Env : Type := {
  files : gmap string node;
  executable : option string
}.

(** [file.Read(magic)] on a fresh file with a zeroed buffer of [n] bytes: the
    buffer after the call, or the read error. At end of file [Read] returns
    [0, io.EOF]; otherwise it fills as many bytes as the file has. *)
Definition readInto (n : nat) (nd : node) : list byte + error :=
  match nd with
  | Unreadable => inr ErrRead
  | Regular [] => inr ErrRead
  | Regular data => inl (take n data ++ replicate (n - length data) x00)
  end.

(** [magic[i]]. *)
Definition byteAt (magic : list byte) (i : nat) : byte := nth i magic x00.

Definition byteIs (b c : byte) : bool := Byte.eqb b c.

(** [DetectExecutableFormat]: both results of the Go function. *)
Definition DetectExecutableFormat (env : Env) (filename : string)
  : ExecutableFormat * option error :=
  match files env !! filename with
  | None => (FormatUnknown, Some (ErrOpen filename))
  | Some file =>
      match readInto 4 file with
      | inr err => (FormatUnknown, Some err)
      | inl magic =>
          if byteIs (byteAt magic 0) x7f && byteIs (byteAt magic 1) x45 &&
             byteIs (byteAt magic 2) x4c && byteIs (byteAt magic 3) x46
          then (FormatELF, None)
          else if byteIs (byteAt magic 0) x4d && byteIs (byteAt magic 1) x5a
          then (FormatPE, None)
          else if
            (byteIs (byteAt magic 0) xfe && byteIs (byteAt magic 1) xed &&
             byteIs (byteAt magic 2) xfa && byteIs (byteAt magic 3) xce) ||
            (byteIs (byteAt magic 0) xce && byteIs (byteAt magic 1) xfa &&
             byteIs (byteAt magic 2) xed && byteIs (byteAt magic 3) xfe) ||
            (byteIs (byteAt magic 0) xfe && byteIs (byteAt magic 1) xed &&
             byteIs (byteAt magic 2) xfa && byteIs (byteAt magic 3) xcf) ||
            (byteIs (byteAt magic 0) xcf && byteIs (byteAt magic 1) xfa &&
             byteIs (byteAt magic 2) xed && byteIs (byteAt magic 3) xfe)
          then (FormatMachO, None)
          else (FormatUnknown, Some (ErrUnknownMagic magic))
      end
  end.

(** [GetExecutableInfo]: format, path and error. *)
Definition GetExecutableInfo (env : Env)
  : ExecutableFormat * string * option error :=
  match executable env with
  | None => (FormatUnknown, EmptyString, Some ErrExecutable)
  | Some execPath =>
      match DetectExecutableFormat env execPath with
      | (_, Some err) => (FormatUnknown, execPath, Some err)
      | (format, None) => (format, execPath, None)
      end
  end.

(** ** The resolver *)

(** [DWARFResolver]: the index from function names to the raw parameter
    names of the debug records (the lock and the DWARF handle carry no
    data of the index). [indexFunctions] fills the index once from the
    records that debug/dwarf reads, before any resolution; the functions
    below only read it. *)
Record DWARFResolver : Type := {
  functionMap : gmap string (list string);
  executablePath : string
}.

(** [generateFunctionKeyCandidates]. *)
Definition generateFunctionKeyCandidates (runtimeName : string) : list string :=
  let candidates := [runtimeName] in
  let parts := strings.Split runtimeName "/" in
  let candidates :=
    if 1 <? length parts
    then candidates ++ [List.last parts EmptyString]
    else candidates in
  if strings.Contains runtimeName "."
  then
    let lastDot := strings.LastIndex runtimeName "." in
    if (0 <? lastDot)%Z
    then
      let beforeLast := strings.sliceTo runtimeName lastDot in
      let methodName := strings.sliceFrom runtimeName (lastDot + 1)%Z in
      if strings.Contains beforeLast "(*"
      then candidates ++ [beforeLast +:+ "." +:+ methodName]
      else candidates
    else candidates
  else candidates.

(** The validation loop of [discoverParameterNames]: [i] is the index of the
    head of [inputParams], [validParams] what has been appended so far; the
    [break] returns what has been collected. *)
Fixpoint validateParams (paramCount : nat) (i : nat) (inputParams : list string)
  (validParams : list string) : list string :=
  match inputParams with
  | [] => validParams
  | param :: rest =>
      if strings.HasPrefix param "~r" && (paramCount / 2 <=? i)
      then validParams
      else validateParams paramCount (S i) rest (validParams ++ [param])
  end.

(** The body of the loop over the candidates for one entry of the index:
    [Some] is a [return], [None] falls through to the next candidate. *)
Definition resolveEntry (allParams : list string) (paramCount : nat)
  : option (list string) :=
  if paramCount <=? length allParams
  then
    let inputParams := take paramCount allParams in
    let validParams := validateParams paramCount 0 inputParams [] in
    if length validParams =? paramCount then Some validParams
    else if length inputParams =? paramCount then Some inputParams
    else None
  else None.

(** The loop over the candidates. *)
Fixpoint tryCandidates (index : gmap string (list string)) (paramCount : nat)
  (candidates : list string) : option (list string) :=
  match candidates with
  | [] => None
  | candidate :: rest =>
      match index !! candidate with
      | Some allParams =>
          match resolveEntry allParams paramCount with
          | Some names => Some names
          | None => tryCandidates index paramCount rest
          end
      | None => tryCandidates index paramCount rest
      end
  end.

(** [discoverParameterNames]. [paramCount] is [len(paramTypes)] at its only
    call site, a natural number. *)
Definition discoverParameterNames (dr : DWARFResolver) (env : Env)
  (funcName : string) (paramCount : nat) : list string + error :=
  let candidates := generateFunctionKeyCandidates funcName in
  match tryCandidates (functionMap dr) paramCount candidates with
  | Some names => inl names
  | None =>
      let '(format, execPath, _) := GetExecutableInfo env in
      inr (ErrCannotExtract funcName execPath format
             (size (functionMap dr)) paramCount)
  end.

(** [extractPackagePath]. *)
Definition extractPackagePath (funcName : string) : string :=
  let lastSlash := strings.LastIndex funcName "/" in
  if (lastSlash =? -1)%Z
  then
    let parts := strings.Split funcName "." in
    if 1 <? length parts then nth 0 parts EmptyString else "main"
  else
    let remaining := strings.sliceFrom funcName (lastSlash + 1)%Z in
    let firstDot := strings.Index remaining "." in
    if (firstDot =? -1)%Z then funcName
    else strings.sliceTo funcName (lastSlash + 1 + firstDot)%Z.

(* ===================================================================== *)
(** * function.go                                                          *)
(* ===================================================================== *)

(** ** Values, kinds and the outcome of a call *)

(** A Go value held in an [any]. A record is a [VStruct], a pointer to a
    record a [VPtr]; [VOpaque] stands for a value whose content plays no role
    here (a context implementation, a slice, a float). *)
Inductive value : Type :=
| VNil                                   (* the nil interface value *)
| VBool (b : bool)
| VInt (n : Z)
| VString (s : string)
| VOpaque (t : rtype) (id : nat)
| VStruct (t : rtype) (fieldValues : list value)
| VPtr (target : value)
| VNilPtr (elem : rtype).

(** The dynamic type of a value; the nil interface value has none. *)
Fixpoint typeOf (v : value) : option rtype :=
  match v with
  | VNil => None
  | VBool _ => Some (TBasic "bool")
  | VInt _ => Some (TBasic "int")
  | VString _ => Some (TBasic "string")
  | VOpaque t _ => Some t
  | VStruct t _ => Some t
  | VPtr target => TPtr <$> typeOf target
  | VNilPtr elem => Some (TPtr elem)
  end.

(** The fields of a type of kind struct ([NumField] and [Field]); a defined
    type has the kind and the fields of its underlying type. *)
Fixpoint structFields (t : rtype) : option (list StructField) :=
  match t with
  | TStruct fields => Some fields
  | TNamed _ underlying => structFields underlying
  | _ => None
  end.

(** [t.Kind() == reflect.Ptr]. *)
Fixpoint isPtrKind (t : rtype) : bool :=
  match t with
  | TPtr _ => true
  | TNamed _ underlying => isPtrKind underlying
  | _ => false
  end.

(** A [reflect.Value] that is not the zero Value: its type ([Type]), the
    value it holds, and whether it was obtained through a struct field that
    is not exported, which makes it read-only. The type of a Value read
    from a field is the type of the field. *)
Record rvalue : Type := {
  valueType : rtype;
  valueData : value;
  readOnly : bool
}.

(** [reflect.Value]: the zero Value is [None]. *)
Definition Value : Type := option rvalue.

(** [reflect.ValueOf]: the zero Value for the nil interface value. *)
Definition ValueOf (x : value) : Value :=
  ty ← typeOf x;
  Some {| valueType := ty; valueData := x; readOnly := false |}.

(** [Value.Elem] of a pointer: the zero Value for a nil pointer. *)
Definition Elem (v : rvalue) : Value :=
  match valueData v with
  | VPtr target =>
      ty ← typeOf target;
      Some {| valueType := ty; valueData := target; readOnly := readOnly v |}
  | _ => None
  end.

(** Position of the first field called [name]. *)
Fixpoint fieldIndex (name : string) (fields : list StructField) : option nat :=
  match fields with
  | [] => None
  | f :: rest =>
      if String.eqb (fieldName f) name then Some 0
      else S <$> fieldIndex name rest
  end.

(** [Value.FieldByName]: the zero Value when there is no such field. The
    Value of a field that is not exported is read-only. *)
Definition FieldByName (v : rvalue) (name : string) : Value :=
  match valueData v with
  | VStruct t fieldValues =>
      fields ← structFields t;
      i ← fieldIndex name fields;
      f ← fields !! i;
      x ← fieldValues !! i;
      Some {| valueType := fieldType f; valueData := x;
              readOnly := readOnly v || negb (IsExported f) |}
  | _ => None
  end.

(** What a call of the package produces: results, an error, or a panic
    of the Go runtime. *)
Inductive outcome (A : Type) : Type :=
| Ok (a : A)
| Err (e : error)
| Panic.

Arguments Ok {A} a.
Arguments Err {A} e.
Arguments Panic {A}.

Definition obind {A B : Type} (m : outcome A) (k : A → outcome B) : outcome B :=
  match m with
  | Ok a => k a
  | Err e => Err e
  | Panic => Panic
  end.

(** The option of a slice index or of a reflect accessor that panics. *)
Definition orPanic {A : Type} (o : option A) : outcome A :=
  match o with
  | Some a => Ok a
  | None => Panic
  end.

(** [Value.Interface]: it panics on the zero Value and on a read-only
    Value. *)
Definition Interface (v : Value) : outcome value :=
  match v with
  | Some x => if readOnly x then Panic else Ok (valueData x)
  | None => Panic
  end.

(** Computations that may invoke the wrapped callable: the state is the log
    of the argument lists the callable was invoked with. *)
Definition calls : Type := list (list value).

Definition M (A : Type) : Type := calls → outcome A * calls.

Definition ret {A : Type} (a : A) : M A := λ σ, (Ok a, σ).

Definition lift {A : Type} (o : outcome A) : M A := λ σ, (o, σ).

Definition bind {A B : Type} (m : M A) (k : A → M B) : M B :=
  λ σ, match m σ with
       | (Ok a, σ') => k a σ'
       | (Err e, σ') => (Err e, σ')
       | (Panic, σ') => (Panic, σ')
       end.

Notation "x ←ₒ m ; k" := (obind m (λ x, k))
  (at level 20, m at level 100, k at level 200, only parsing).
Notation "x ←ₘ m ; k" := (bind m (λ x, k))
  (at level 20, m at level 100, k at level 200, only parsing).

(** ** The services of the Go runtime the package calls *)

(** [reflect.Type.AssignableTo], the identifier syntax accepted by
    [reflect.StructOf], the conversions between a string and its code
    points, and [unicode.ToUpper]. *)
Class GoRuntime : Type := {
  AssignableTo : rtype → rtype → bool;
  isValidFieldName : string → bool;
  toRunes : string → list Z;
  fromRunes : list Z → string;
  ToUpper : Z → Z
}.

(** [StructOptions]: a nil function is [None]. *)
Record StructOptions : Type := {
  FieldNamer : option (string → string);
  TagBuilder : option (string → rtype → string)
}.

(** A [reflect.Type] of kind Func: the parameter types [In(i)], the result
    types [Out(i)] and [IsVariadic]. The last parameter type of a variadic
    function [func(..., xs ...T)] is the slice type [[]T]. *)
Record FuncType : Type := {
  inTypes : list rtype;
  outTypes : list rtype;
  IsVariadic : bool
}.

(** [Function]. The field [function] is the wrapped function value as
    [reflect.Value.Call] runs it: it maps the arguments [a1, ..., ak] of a
    call [f(a1, ..., ak)] to the results of that call. For a variadic
    function the arguments past the fixed ones are the variadic ones, which
    end up in the slice of the last parameter. The argument lists such a
    call takes are those of [reflectAccepts] below. *)
Record Function : Type := {
  function : list value → list value;
  functionType : FuncType;
  paramNames : list string;
  paramTypes : list rtype;
  structType : rtype;
  funcName : string;
  packagePath : string
}.

(** What is passed to [NewFunction]: a function with its runtime name, its
    signature (parameter types, result types, whether it is variadic) and
    its behaviour, or any other value. *)
Inductive candidateFn : Type :=
| IsFunc (runtimeName : string) (ins outs : list rtype) (variadic : bool)
    (body : list value → list value)
| NotFunc (v : value).

(** The package-level variables set by [initResolver]. *)
Record ResolverState : Type := {
  globalResolver : DWARFResolver;
  resolverInitErr : option error
}.

(** [reflect.TypeOf(( *context.Context)(nil)).Elem()]. *)
Definition contextType : rtype := TContext.

Definition dquote : string := String "034"%char EmptyString.

(** The first byte of a field name that [reflect.StructOf] takes for an
    unexported name: a lower-case ASCII letter or an underscore. *)
Definition looksUnexported (name : string) : bool :=
  match name with
  | EmptyString => false
  | String c _ =>
      let n := Ascii.nat_of_ascii c in
      ((97 <=? n) && (n <=? 122)) || (n =? 95)
  end.

Section Invocation.

Context {rt : GoRuntime}.

(** The checks of [reflect.Value.Call] on arguments that are not zero
    Values, for a function of type [fnType]: [false] is a panic. The number
    of arguments is the number of parameters, or at least the number of
    fixed parameters of a variadic function; the types of the first [n]
    arguments are assignable to the first [n] parameter types; no argument
    is read-only; and, for a variadic function, the type of each further
    argument is assignable to the element type of the last parameter
    type. *)
Definition reflectAccepts (fnType : FuncType) (callArgs : list rvalue) : bool :=
  let n := if IsVariadic fnType then length (inTypes fnType) - 1
           else length (inTypes fnType) in
  if length callArgs <? n then false
  else if negb (IsVariadic fnType) && (n <? length callArgs) then false
  else if negb (forallb (λ p, AssignableTo (valueType p.1) p.2)
                  (zip callArgs (take n (inTypes fnType))))
  then false
  else if existsb readOnly callArgs then false
  else if IsVariadic fnType
  then match inTypes fnType !! n with
       | Some (TSlice elem) =>
           forallb (λ x, AssignableTo (valueType x) elem) (drop n callArgs)
       | _ => false
       end
  else true.

(** The first check of [reflect.Value.Call]: no argument is the zero
    Value. *)
Fixpoint validArgs (args : list Value) : outcome (list rvalue) :=
  match args with
  | [] => Ok []
  | arg :: rest =>
      v ←ₒ orPanic arg;
      vs ←ₒ validArgs rest;
      Ok (v :: vs)
  end.

(** Past the checks the callable runs on the values the arguments hold. *)
Definition invoke (fnType : FuncType) (f : list value → list value)
  (callArgs : list rvalue) : M (list value) :=
  λ σ, if reflectAccepts fnType callArgs
       then (Ok (f (valueData <$> callArgs)), σ ++ [valueData <$> callArgs])
       else (Panic, σ).

(** [function.Call(args)] on a function value of type [fnType]: when
    reflect accepts the arguments the callable runs on them, once;
    otherwise [Call] panics and the callable does not run. *)
Definition callReflect (fnType : FuncType) (f : list value → list value)
  (args : list Value) : M (list value) :=
  callArgs ←ₘ lift (validArgs args);
  invoke fnType f callArgs.

(** [capitalizeFirst]. *)
Definition capitalizeFirst (s : string) : string :=
  if String.eqb s EmptyString then s
  else
    let r := toRunes s in
    fromRunes (<[0 := ToUpper (nth 0 r 0%Z)]> r).

(** The loop of [reflect.StructOf] over fields without a package path, as
    the package builds them: a field with an empty or invalid name, with a
    name that looks unexported, or with a name already seen (other than
    [_]) makes it panic. *)
Fixpoint structOfLoop (fset : gset string) (fields : list StructField) : bool :=
  match fields with
  | [] => true
  | f :: rest =>
      let name := fieldName f in
      if String.eqb name EmptyString then false
      else if negb (isValidFieldName name) then false
      else if looksUnexported name then false
      else if bool_decide (name ∈ fset) && negb (String.eqb name "_") then false
      else structOfLoop ({[name]} ∪ fset) rest
  end.

(** [reflect.StructOf]: [None] is a panic. *)
Definition StructOf (fields : list StructField) : option rtype :=
  if structOfLoop ∅ fields then Some (TStruct fields) else None.

(** The loop of [createStructType]. *)
Fixpoint createStructFields (paramTypes : list rtype) (i : nat)
  (paramNames : list string) : outcome (list StructField) :=
  match paramNames with
  | [] => Ok []
  | name :: rest =>
      let fieldName := capitalizeFirst name in
      paramType ←ₒ orPanic (paramTypes !! i);
      let tag := "json:" +:+ dquote +:+ name +:+ dquote +:+
                 " param:" +:+ dquote +:+ name +:+ dquote in
      fields ←ₒ createStructFields paramTypes (S i) rest;
      Ok (mkField fieldName EmptyString paramType tag :: fields)
  end.

(** [createStructType]. *)
Definition createStructType (paramNames : list string)
  (paramTypes : list rtype) : outcome rtype :=
  fields ←ₒ createStructFields paramTypes 0 paramNames;
  orPanic (StructOf fields).

(** The loop of [createStructTypeFromParams]. *)
Fixpoint structFieldsFromParams (opts : StructOptions)
  (paramTypes : list rtype) (i : nat) (paramNames : list string)
  : outcome (list StructField) :=
  match paramNames with
  | [] => Ok []
  | paramName :: rest =>
      let fieldNamer := default capitalizeFirst (FieldNamer opts) in
      let fieldName := fieldNamer paramName in
      paramType ←ₒ orPanic (paramTypes !! i);
      let tag := match TagBuilder opts with
                 | Some tagBuilder => tagBuilder paramName paramType
                 | None => EmptyString
                 end in
      fields ←ₒ structFieldsFromParams opts paramTypes (S i) rest;
      Ok (mkField fieldName EmptyString paramType tag :: fields)
  end.

(** [createStructTypeFromParams]. *)
Definition createStructTypeFromParams (paramNames : list string)
  (paramTypes : list rtype) (opts : StructOptions) : outcome rtype :=
  fields ←ₒ structFieldsFromParams opts paramTypes 0 paramNames;
  orPanic (StructOf fields).

(** [NewFunction], given the state [initResolver] has left. *)
Definition NewFunction (st : ResolverState) (env : Env) (fn : candidateFn)
  : outcome Function :=
  match resolverInitErr st with
  | Some err => Err err
  | None =>
      match fn with
      | NotFunc VNil => Panic
      | NotFunc _ => Err ErrNotAFunction
      | IsFunc funcName ins outs variadic body =>
          let packagePath := extractPackagePath funcName in
          let paramTypes := ins in
          match discoverParameterNames (globalResolver st) env funcName
                  (length paramTypes) with
          | inr err => Err err
          | inl paramNames =>
              structType ←ₒ createStructType paramNames paramTypes;
              Ok {| function := body;
                    functionType := {| inTypes := ins; outTypes := outs;
                                       IsVariadic := variadic |};
                    paramNames := paramNames;
                    paramTypes := paramTypes;
                    structType := structType;
                    funcName := funcName;
                    packagePath := packagePath |}
          end
      end
  end.

(** The loop of [GetContextPositions], from index [i]. *)
Fixpoint contextPositionsFrom (i : nat) (paramTypes : list rtype) : list nat :=
  match paramTypes with
  | [] => []
  | paramType :: rest =>
      if rtype_eqb paramType contextType
      then i :: contextPositionsFrom (S i) rest
      else contextPositionsFrom (S i) rest
  end.

(** [GetContextPositions]. *)
Definition GetContextPositions (t : Function) : list nat :=
  contextPositionsFrom 0 (paramTypes t).

(** The loop of [GetNonContextParameters], from index [i]. *)
Fixpoint nonContextFrom (names : list string) (i : nat)
  (paramTypes : list rtype) : outcome (list string * list rtype) :=
  match paramTypes with
  | [] => Ok ([], [])
  | paramType :: rest =>
      if negb (rtype_eqb paramType contextType)
      then
        name ←ₒ orPanic (names !! i);
        r ←ₒ nonContextFrom names (S i) rest;
        Ok (name :: r.1, paramType :: r.2)
      else nonContextFrom names (S i) rest
  end.

(** [GetNonContextParameters]. *)
Definition GetNonContextParameters (t : Function)
  : outcome (list string * list rtype) :=
  nonContextFrom (paramNames t) 0 (paramTypes t).

(** [GetNonContextStructType]. *)
Definition GetNonContextStructType (t : Function) : outcome rtype :=
  r ←ₒ GetNonContextParameters t;
  createStructTypeFromParams r.1 r.2
    {| FieldNamer := None; TagBuilder := None |}.

(** The loop of [structTypesCompatible] over the field positions. *)
Fixpoint fieldsCompatible (fields1 fields2 : list StructField) : bool :=
  match fields1, fields2 with
  | field1 :: rest1, field2 :: rest2 =>
      if negb (String.eqb (fieldName field1) (fieldName field2)) ||
         negb (rtype_eqb (fieldType field1) (fieldType field2))
      then false
      else fieldsCompatible rest1 rest2
  | _, _ => true
  end.

(** [structTypesCompatible]. *)
Definition structTypesCompatible (t1 t2 : rtype) : bool :=
  match structFields t1, structFields t2 with
  | Some fields1, Some fields2 =>
      if negb (length fields1 =? length fields2) then false
      else fieldsCompatible fields1 fields2
  | _, _ => false
  end.

(** The loop of [Call] that checks the arguments, from index [i]; what it
    collects are the arguments, each to be passed as its
    [reflect.ValueOf]. *)
Fixpoint checkArgs (t : Function) (i : nat) (args : list value)
  : outcome (list value) :=
  match args with
  | [] => Ok []
  | arg :: rest =>
      argType ←ₒ orPanic (typeOf arg);
      paramType ←ₒ orPanic (paramTypes t !! i);
      if negb (AssignableTo argType paramType)
      then
        name ←ₒ orPanic (paramNames t !! i);
        Err (ErrArgType i name argType paramType)
      else
        callArgs ←ₒ checkArgs t (S i) rest;
        Ok (arg :: callArgs)
  end.

(** [Call]. *)
Definition Call (t : Function) (args : list value) : M (list value) :=
  if negb (length args =? length (paramTypes t))
  then lift (Err (ErrWrongArgCount (length (paramTypes t)) (length args)))
  else
    callArgs ←ₘ lift (checkArgs t 0 args);
    callReflect (functionType t) (function t) (ValueOf <$> callArgs).

(** [slices.Contains]. *)
Definition slicesContains (s : list nat) (v : nat) : bool :=
  existsb (Nat.eqb v) s.

(** The loop of [CallWithContext]: [steps] iterations are left, [i] is the
    loop index, [argIndex] the next argument of the caller to use. *)
Fixpoint fillArgs (t : Function) (contextPositions : list nat) (ctx : value)
  (args : list value) (steps : nat) (i argIndex : nat)
  (fullArgs : list value) : outcome (list value) :=
  match steps with
  | O => Ok fullArgs
  | S steps' =>
      if slicesContains contextPositions i
      then fillArgs t contextPositions ctx args steps' (S i) argIndex
             (<[i := ctx]> fullArgs)
      else if length args <=? argIndex
      then Err (ErrNotEnoughArgs
                  (length (paramTypes t) - length contextPositions)
                  (length args))
      else
        arg ←ₒ orPanic (args !! argIndex);
        fillArgs t contextPositions ctx args steps' (S i) (S argIndex)
          (<[i := arg]> fullArgs)
  end.

(** [CallWithContext]. *)
Definition CallWithContext (t : Function) (ctx : value) (args : list value)
  : M (list value) :=
  let contextPositions := GetContextPositions t in
  if length contextPositions =? 0
  then Call t args
  else
    fullArgs ←ₘ lift (fillArgs t contextPositions ctx args
                        (length (paramTypes t)) 0 0
                        (replicate (length (paramTypes t)) VNil));
    Call t fullArgs.

(** The loop of [CallWithNonContextStructAndContext] that reads the
    fields: [Interface] panics on the zero Value, which [FieldByName]
    returns when there is no such field, and on the Value of a field that
    is not exported. *)
Fixpoint readFields (structValue : rvalue) (nonContextNames : list string)
  : outcome (list value) :=
  match nonContextNames with
  | [] => Ok []
  | paramName :: rest =>
      let fieldName := capitalizeFirst paramName in
      let fieldValue := FieldByName structValue fieldName in
      arg ←ₒ Interface fieldValue;
      args ←ₒ readFields structValue rest;
      Ok (arg :: args)
  end.

(** [CallWithNonContextStructAndContext]. *)
Definition CallWithNonContextStructAndContext (t : Function) (ctx : value)
  (argStruct : value) : M (list value) :=
  let structValue := ValueOf argStruct in
  let structValue :=
    match structValue with
    | Some v => if isPtrKind (valueType v) then Elem v else structValue
    | None => structValue
    end in
  nonContextStructType ←ₘ lift (GetNonContextStructType t);
  v ←ₘ lift (orPanic structValue);
  let suppliedType := valueType v in
  if negb (structTypesCompatible suppliedType nonContextStructType)
  then lift (Err (ErrStructTypeMismatch nonContextStructType suppliedType))
  else
    r ←ₘ lift (GetNonContextParameters t);
    args ←ₘ lift (readFields v r.1);
    CallWithContext t ctx args.

(** The first loop of [MapToArgs]: the declared names absent from the map. *)
Fixpoint missingParams (argMap : gmap string value) (names : list string)
  : list string :=
  match names with
  | [] => []
  | paramName :: rest =>
      match argMap !! paramName with
      | None => paramName :: missingParams argMap rest
      | Some _ => missingParams argMap rest
      end
  end.

(** The second loop of [MapToArgs], from index [i]: a key that is absent
    reads as the nil value. *)
Fixpoint orderArgs (t : Function) (argMap : gmap string value) (i : nat)
  (names : list string) : outcome (list value) :=
  match names with
  | [] => Ok []
  | paramName :: rest =>
      let argValue := default VNil (argMap !! paramName) in
      argType ←ₒ orPanic (typeOf argValue);
      paramType ←ₒ orPanic (paramTypes t !! i);
      if negb (AssignableTo argType paramType)
      then Err (ErrParamType paramName argType paramType)
      else
        args ←ₒ orderArgs t argMap (S i) rest;
        Ok (argValue :: args)
  end.

(** [MapToArgs]. *)
Definition MapToArgs (t : Function) (argMap : gmap string value)
  : outcome (list value) :=
  if negb (size argMap =? length (paramTypes t))
  then Err (ErrWrongArgCount (length (paramTypes t)) (size argMap))
  else
    let missing := missingParams argMap (paramNames t) in
    if 0 <? length missing
    then Err (ErrMissingParams missing (funcName t) (paramNames t))
    else orderArgs t argMap 0 (paramNames t).

(** [CallWithMap]. *)
Definition CallWithMap (t : Function) (argMap : gmap string value)
  : M (list value) :=
  args ←ₘ lift (MapToArgs t argMap);
  callReflect (functionType t) (function t) (ValueOf <$> args).

End Invocation.

(* ===================================================================== *)
(** * Reference definitions and sample data                                *)
(* ===================================================================== *)

(** The identifier with any module-path prefix stripped: the text after the
    last path separator, the whole identifier when it has none. *)
Definition stripModulePath (identifier : string) : string :=
  strings.sliceFrom identifier (strings.LastIndex identifier "/" + 1)%Z.

(** The condition of the method branch of [generateFunctionKeyCandidates]:
    a dot occurs past the first byte and the pointer-receiver marker occurs
    before the last dot. *)
Definition methodShaped (runtimeName : string) : bool :=
  strings.Contains runtimeName "." &&
  (0 <? strings.LastIndex runtimeName ".")%Z &&
  strings.Contains
    (strings.sliceTo runtimeName (strings.LastIndex runtimeName ".")) "(*".

(** The resolver without any return-slot filter: the first candidate whose
    entry is long enough gives its first [paramCount] names. *)
Fixpoint plainTake (index : gmap string (list string)) (paramCount : nat)
  (candidates : list string) : option (list string) :=
  match candidates with
  | [] => None
  | candidate :: rest =>
      match index !! candidate with
      | Some allParams =>
          if paramCount <=? length allParams
          then Some (take paramCount allParams)
          else plainTake index paramCount rest
      | None => plainTake index paramCount rest
      end
  end.

(** An error carries a datum when the datum is one of the operands its
    message is formatted from. *)
Definition carries (e : error) (o : operand) : Prop := In o (operands e).

(** A process whose executable is a small ELF file, with a two-byte file
    next to it. *)
Definition sampleEnv : Env :=
  {| files := {[ "/bin/app" := Regular [x7f; x45; x4c; x46; x02; x01];
                 "/tmp/stub" := Regular [x4d; x5a] ]};
     executable := Some "/bin/app" |}.

(** A resolver whose index has the single entry [key]. *)
Definition singleEntry (key : string) (names : list string) : DWARFResolver :=
  {| functionMap := {[ key := names ]}; executablePath := "/bin/app" |}.

(** The four Mach-O magic sequences: 32-bit and 64-bit, in both byte
    orders. *)
Definition machoMagics : list (list byte) :=
  [[xfe; xed; xfa; xce]; [xce; xfa; xed; xfe];
   [xfe; xed; xfa; xcf]; [xcf; xfa; xed; xfe]].

(** The invariant of a descriptor built by [NewFunction]: one name per
    parameter type, and no name twice. *)
Definition wellFormed (t : Function) : Prop :=
  length (paramNames t) = length (paramTypes t) ∧ NoDup (paramNames t).

(** A descriptor of a callable that is not variadic, with the parameter
    types of its function type, as [NewFunction] records them. *)
Definition fixedArity (t : Function) : Prop :=
  inTypes (functionType t) = paramTypes t ∧
  IsVariadic (functionType t) = false.

(** A descriptor of a variadic callable [func(..., xs ...elem)]: the last
    parameter type is the slice type of the variadic elements. *)
Definition variadicOver (t : Function) (elem : rtype) : Prop :=
  inTypes (functionType t) = paramTypes t ∧
  IsVariadic (functionType t) = true ∧
  paramTypes t !! (length (paramTypes t) - 1) = Some (TSlice elem).

(** An argument that passes the check of [Call] against a parameter type:
    it has a dynamic type, assignable to the parameter type. *)
Definition accepted {rt : GoRuntime} (arg : value) (paramType : rtype) : Prop :=
  ∃ argType, typeOf arg = Some argType ∧ AssignableTo argType paramType = true.

(** The parameter positions whose type is not the context type, from
    index [i]: the positions the caller's arguments are for. *)
Fixpoint nonContextPositionsFrom (i : nat) (paramTypes : list rtype) : list nat :=
  match paramTypes with
  | [] => []
  | paramType :: rest =>
      if rtype_eqb paramType contextType
      then nonContextPositionsFrom (S i) rest
      else i :: nonContextPositionsFrom (S i) rest
  end.

(** Splicing as the specification words it: the context value goes to every
    context position, the remaining positions are filled from the caller's
    list in order; [None] when the caller's list runs out. *)
Fixpoint splice (ctx : value) (paramTypes : list rtype) (args : list value)
  : option (list value) :=
  match paramTypes with
  | [] => Some []
  | paramType :: rest =>
      if rtype_eqb paramType contextType
      then (ctx ::.) <$> splice ctx rest args
      else match args with
           | [] => None
           | arg :: args' => (arg ::.) <$> splice ctx rest args'
           end
  end.

(** The values of a map arranged in the declared parameter order. *)
Definition inDeclaredOrder (t : Function) (argMap : gmap string value)
  : list value :=
  (λ paramName, default VNil (argMap !! paramName)) <$> paramNames t.

(** The Value that [reflect.ValueOf] returns for a value of type [ty]. *)
Definition valueOf (ty : rtype) (x : value) : rvalue :=
  {| valueType := ty; valueData := x; readOnly := false |}.

(** The Value of the field [f] of such a Value of a record, when the field
    holds [x]. *)
Definition fieldValue (f : StructField) (x : value) : rvalue :=
  {| valueType := fieldType f; valueData := x;
     readOnly := negb (IsExported f) |}.


(** A runtime for the samples, restricted to ASCII: a type is assignable to
    itself, and the type of the background context to [context.Context]. *)
Definition backgroundCtx : rtype := TNamed "context.backgroundCtx" (TStruct []).

Definition asciiIdentByte (c : ascii) : bool :=
  let n := nat_of_ascii c in
  ((97 <=? n) && (n <=? 122)) || ((65 <=? n) && (n <=? 90)) ||
  ((48 <=? n) && (n <=? 57)) || (n =? 95).

Definition sampleRuntime : GoRuntime :=
  {| AssignableTo := λ v t,
       rtype_eqb v t || (rtype_eqb t TContext && rtype_eqb v backgroundCtx);
     isValidFieldName := λ s,
       forallb asciiIdentByte (String.list_ascii_of_string s);
     toRunes := λ s,
       (λ c, Z.of_nat (nat_of_ascii c)) <$> String.list_ascii_of_string s;
     fromRunes := λ r,
       String.string_of_list_ascii ((λ z, ascii_of_nat (Z.to_nat z)) <$> r);
     ToUpper := λ z,
       if ((97 <=? z) && (z <=? 122))%Z then (z - 32)%Z else z |}.

(** The value of [context.Background()]. *)
Definition background : value := VOpaque backgroundCtx 0.

(** A callable that returns the arguments it was called with. *)
Definition echo (args : list value) : list value := args.

(** [func greet(name string, age int)]. *)
Definition greet : Function :=
  {| function := echo;
     functionType :=
       {| inTypes := [TBasic "string"; TBasic "int"];
          outTypes := [TBasic "string"]; IsVariadic := false |};
     paramNames := ["name"; "age"];
     paramTypes := [TBasic "string"; TBasic "int"];
     structType :=
       TStruct [mkField "Name" EmptyString (TBasic "string")
                  ("json:" +:+ dquote +:+ "name" +:+ dquote +:+
                   " param:" +:+ dquote +:+ "name" +:+ dquote);
                mkField "Age" EmptyString (TBasic "int")
                  ("json:" +:+ dquote +:+ "age" +:+ dquote +:+
                   " param:" +:+ dquote +:+ "age" +:+ dquote)];
     funcName := "main.greet";
     packagePath := "main" |}.

(** The state after [initResolver] on a binary that defines [greet]. *)
Definition sampleState : ResolverState :=
  {| globalResolver := singleEntry "main.greet" ["name"; "age"; "~r0"];
     resolverInitErr := None |}.

(** [func relay(ctx1 context.Context, id int, ctx2 context.Context,
    label string)]: context at positions 0 and 2. *)
Definition relay : Function :=
  {| function := echo;
     functionType :=
       {| inTypes := [TContext; TBasic "int"; TContext; TBasic "string"];
          outTypes := []; IsVariadic := false |};
     paramNames := ["ctx1"; "id"; "ctx2"; "label"];
     paramTypes := [TContext; TBasic "int"; TContext; TBasic "string"];
     structType := TStruct [];
     funcName := "main.relay";
     packagePath := "main" |}.

(** [func handler(ctx context.Context, id int)]. *)
Definition handler : Function :=
  {| function := echo;
     functionType :=
       {| inTypes := [TContext; TBasic "int"]; outTypes := [];
          IsVariadic := false |};
     paramNames := ["ctx"; "id"];
     paramTypes := [TContext; TBasic "int"];
     structType := TStruct [];
     funcName := "main.handler";
     packagePath := "main" |}.

(** [func join(sep string, parts ...string) string], a variadic function:
    the type of its second parameter is [[]string]. *)
Definition join : Function :=
  {| function := echo;
     functionType :=
       {| inTypes := [TBasic "string"; TSlice (TBasic "string")];
          outTypes := [TBasic "string"]; IsVariadic := true |};
     paramNames := ["sep"; "parts"];
     paramTypes := [TBasic "string"; TSlice (TBasic "string")];
     structType :=
       TStruct [mkField "Sep" EmptyString (TBasic "string")
                  ("json:" +:+ dquote +:+ "sep" +:+ dquote +:+
                   " param:" +:+ dquote +:+ "sep" +:+ dquote);
                mkField "Parts" EmptyString (TSlice (TBasic "string"))
                  ("json:" +:+ dquote +:+ "parts" +:+ dquote +:+
                   " param:" +:+ dquote +:+ "parts" +:+ dquote)];
     funcName := "main.join";
     packagePath := "main" |}.

(** The state after [initResolver] on a binary that defines [join]. *)
Definition joinState : ResolverState :=
  {| globalResolver := singleEntry "main.join" ["sep"; "parts"; "~r0"];
     resolverInitErr := None |}.

(** The slice [[]string{"a", "b"}]. *)
Definition twoParts : value := VOpaque (TSlice (TBasic "string")) 0.

(** Two fields agree when they have the same name and the same type; the
    tag is not looked at. *)
Definition sameNameAndType (a b : StructField) : Prop :=
  fieldName a = fieldName b ∧ fieldType a = fieldType b.


(** A record of a defined type [main.Query] with one tagged field. *)
Definition queryType : rtype :=
  TNamed "main.Query"
    (TStruct [mkField "Id" EmptyString (TBasic "int") "form:id"]).

Definition query : value := VStruct queryType [VInt 5].





(* ===================================================================== *)
(** * The rest of resolver.go                                              *)
(* ===================================================================== *)

(** ** The debug records *)

(** The tags the resolver tells apart; [TagNull] is the tag 0 of the entry
    that closes a list of children. *)
Inductive DwarfTag : Type :=
| TagNull
| TagSubprogram
| TagFormalParameter
| TagOther (code : nat).

(** A [dwarf.Entry] as the resolver reads it: its tag, its name attribute
    ([None] when [AttrField(dwarf.AttrName)] is nil) and its children flag. *)
Record Entry : Type := {
  entryTag : DwarfTag;
  entryName : option string;
  entryChildren : bool
}.

(** [extractParametersFromDWARF]: the names collected and the state of the
    reader afterwards. The reader is the list of the entries it still has to
    return; [Next] returns nil at its end, and a read error ends the loop
    like the end does. [paramNames] is the slice appended to. *)
Fixpoint extractParametersFromDWARF (reader : list Entry)
  (paramNames : list string) : list string * list Entry :=
  match reader with
  | [] => (paramNames, [])
  | entry :: rest =>
      match entryTag entry with
      | TagNull => (paramNames, rest)
      | TagFormalParameter =>
          match entryName entry with
          | Some paramName =>
              extractParametersFromDWARF rest (paramNames ++ [paramName])
          | None => extractParametersFromDWARF rest paramNames
          end
      | _ => extractParametersFromDWARF rest paramNames
      end
  end.

(** The loop of [indexFunctions]; [fuel] bounds the number of iterations. *)
Fixpoint indexLoop (fuel : nat) (reader : list Entry)
  (functionMap : gmap string (list string)) : gmap string (list string) :=
  match fuel with
  | O => functionMap
  | S fuel' =>
      match reader with
      | [] => functionMap
      | entry :: rest =>
          match entryTag entry with
          | TagSubprogram =>
              let funcName := default EmptyString (entryName entry) in
              if negb (String.eqb funcName EmptyString) && entryChildren entry
              then
                let r := extractParametersFromDWARF rest [] in
                indexLoop fuel' r.2 (<[funcName := r.1]> functionMap)
              else indexLoop fuel' rest functionMap
          | _ => indexLoop fuel' rest functionMap
          end
      end
  end.

(** [indexFunctions] on the entries of [dr.dwarfData.Reader()]: every
    iteration reads at least one entry, so the number of entries is fuel
    enough. *)
Definition indexFunctions (dr : DWARFResolver) (entries : list Entry)
  : DWARFResolver :=
  {| functionMap := indexLoop (length entries) entries (functionMap dr);
     executablePath := executablePath dr |}.

(** The names of the named formal-parameter entries of a list of entries. *)
Definition formalParameterNames (entries : list Entry) : list string :=
  omap (λ entry, match entryTag entry with
                 | TagFormalParameter => entryName entry
                 | _ => None
                 end) entries.

(** An entry that [indexFunctions] indexes: a subprogram with a non-empty
    name and children. *)
Definition indexedSubprogram (name : string) (entry : Entry) : Prop :=
  entryTag entry = TagSubprogram ∧ entryName entry = Some name ∧
  name ≠ EmptyString ∧ entryChildren entry = true.

(** ** [DebugDWARFParameters] *)

(** What [DebugDWARFParameters] returns: the initialisation error, the
    not-found error with the function name it quotes, or the two lists. *)
Inductive debugResult : Type :=
| DebugInitErr (e : error)
| DebugNotFound (funcName : string)
| DebugOk (inputParams allParams : list string).

(** The loop over the candidates: the entry of the first candidate that is
    a key, the nil slice when none is. *)
Fixpoint firstIndexed (index : gmap string (list string))
  (candidates : list string) : list string :=
  match candidates with
  | [] => []
  | candidate :: rest =>
      match index !! candidate with
      | Some params => params
      | None => firstIndexed index rest
      end
  end.

(** The loop that looks for the end of the input parameters, from index
    [i]: the index of the first name with the return-value prefix. *)
Fixpoint inputEndFrom (i : nat) (allParams : list string) (inputEndIndex : nat)
  : nat :=
  match allParams with
  | [] => inputEndIndex
  | param :: rest =>
      if strings.HasPrefix param "~r" then i
      else inputEndFrom (S i) rest inputEndIndex
  end.

(** [DebugDWARFParameters]. *)
Definition DebugDWARFParameters (st : ResolverState) (funcName : string)
  : debugResult :=
  match resolverInitErr st with
  | Some err => DebugInitErr err
  | None =>
      let candidates := generateFunctionKeyCandidates funcName in
      let allParams :=
        firstIndexed (functionMap (globalResolver st)) candidates in
      if length allParams =? 0 then DebugNotFound funcName
      else
        let inputEndIndex := inputEndFrom 0 allParams (length allParams) in
        if 0 <? inputEndIndex
        then DebugOk (take inputEndIndex allParams) allParams
        else DebugOk allParams allParams
  end.

(** ** [IsDWARFSupported] *)

Definition format_eqb (a b : ExecutableFormat) : bool :=
  match a, b with
  | FormatUnknown, FormatUnknown | FormatELF, FormatELF
  | FormatPE, FormatPE | FormatMachO, FormatMachO => true
  | _, _ => false
  end.

(** [IsDWARFSupported], given the value of [runtime.GOOS]. *)
Definition IsDWARFSupported (env : Env) (GOOS : string)
  : bool * string * option error :=
  match GetExecutableInfo env with
  | (_, _, Some err) => (false, EmptyString, Some err)
  | (format, _, None) =>
      let '(supported, reason) :=
        match format with
        | FormatELF => (true, "ELF format supports DWARF debug information")
        | FormatPE =>
            (true, "PE format may contain DWARF (common with GCC/MinGW builds)")
        | FormatMachO =>
            (true, "Mach-O format supports DWARF debug information")
        | FormatUnknown =>
            (false, "Unknown executable format: " +:+ FormatString format)
        end in
      let reason :=
        if supported
        then
          if String.eqb GOOS "windows"
          then if negb (format_eqb format FormatPE)
               then reason +:+ " (Warning: Non-PE format on Windows is unusual)"
               else reason
          else if String.eqb GOOS "darwin"
          then if negb (format_eqb format FormatMachO)
               then reason +:+ " (Warning: Non-Mach-O format on macOS is unusual)"
               else reason
          else if String.eqb GOOS "linux" || String.eqb GOOS "freebsd" ||
                  String.eqb GOOS "netbsd" || String.eqb GOOS "openbsd"
          then if negb (format_eqb format FormatELF)
               then reason +:+
                    " (Warning: Non-ELF format on Unix-like OS is unusual)"
               else reason
          else reason
        else reason in
      (supported, reason, None)
  end.

(* ===================================================================== *)
(** * The rest of function.go                                              *)
(* ===================================================================== *)

(** [strings.Trim(s, cutset)] for a cutset of ASCII bytes: the leading and
    the trailing bytes of [s] that are in the cutset are removed. *)
Definition inCutset (cutset : string) (c : ascii) : bool :=
  existsb (Ascii.eqb c) (String.list_ascii_of_string cutset).

Fixpoint TrimLeft (s cutset : string) : string :=
  match s with
  | EmptyString => EmptyString
  | String c s' => if inCutset cutset c then TrimLeft s' cutset else s
  end.

Fixpoint TrimRight (s cutset : string) : string :=
  match s with
  | EmptyString => EmptyString
  | String c s' =>
      match TrimRight s' cutset with
      | EmptyString =>
          if inCutset cutset c then EmptyString else String c EmptyString
      | kept => String c kept
      end
  end.

Definition Trim (s cutset : string) : string :=
  TrimRight (TrimLeft s cutset) cutset.

(** [GetBaseFunctionName]. *)
Definition GetBaseFunctionName (t : Function) : string :=
  let parts := strings.Split (funcName t) "." in
  if 0 <? length parts
  then Trim (List.last parts EmptyString) "()"
  else funcName t.

Section MoreInvocation.

Context {rt : GoRuntime}.

(** [GetStructTypeWithOptions]. *)
Definition GetStructTypeWithOptions (t : Function) (opts : StructOptions)
  : outcome rtype :=
  createStructTypeFromParams (paramNames t) (paramTypes t) opts.

(** [GetNonContextStructTypeWithOptions]. *)
Definition GetNonContextStructTypeWithOptions (t : Function)
  (opts : StructOptions) : outcome rtype :=
  r ←ₒ GetNonContextParameters t;
  createStructTypeFromParams r.1 r.2 opts.

(** The loop of [CallWithReflect] that validates the types, from index [i]:
    [Type] panics on the zero Value. *)
Fixpoint checkReflectArgs (t : Function) (i : nat) (args : list Value)
  : outcome unit :=
  match args with
  | [] => Ok tt
  | arg :: rest =>
      argType ←ₒ orPanic (valueType <$> arg);
      paramType ←ₒ orPanic (paramTypes t !! i);
      if negb (AssignableTo argType paramType)
      then
        name ←ₒ orPanic (paramNames t !! i);
        Err (ErrArgType i name argType paramType)
      else checkReflectArgs t (S i) rest
  end.

(** [CallWithReflect]. *)
Definition CallWithReflect (t : Function) (args : list Value)
  : M (list value) :=
  if negb (length args =? length (paramTypes t))
  then lift (Err (ErrWrongArgCount (length (paramTypes t)) (length args)))
  else
    _ ←ₘ lift (checkReflectArgs t 0 args);
    callReflect (functionType t) (function t) args.

(** The loop of [CallWithStruct] that reads the fields by name. *)
Definition structArgs (structValue : rvalue) (names : list string)
  : list Value :=
  (λ paramName, FieldByName structValue (capitalizeFirst paramName)) <$> names.

(** [CallWithStruct]. *)
Definition CallWithStruct (t : Function) (argStruct : value)
  : M (list value) :=
  let structValue := ValueOf argStruct in
  let structValue :=
    match structValue with
    | Some v => if isPtrKind (valueType v) then Elem v else structValue
    | None => structValue
    end in
  v ←ₘ lift (orPanic structValue);
  let suppliedType := valueType v in
  if negb (rtype_eqb suppliedType (structType t))
  then lift (Err (ErrStructTypeMismatch (structType t) suppliedType))
  else callReflect (functionType t) (function t) (structArgs v (paramNames t)).

End MoreInvocation.

(** An invocation that runs the callable [f] at most once: either the call
    log is as before and the outcome is not a success, or the callable ran
    once, on some argument list, and the outcome is what it returned. *)
Definition atMostOnce (f : list value → list value) (σ : calls)
  (r : outcome (list value) * calls) : Prop :=
  (r.2 = σ ∧ ∀ results, r.1 ≠ Ok results) ∨
  ∃ callArgs, r = (Ok (f callArgs), σ ++ [callArgs]).

(** A debug-record stream: [main.greet] with two parameters and a return
    slot, then a subprogram without children. *)
Definition sampleEntries : list Entry :=
  [ {| entryTag := TagSubprogram; entryName := Some "main.greet";
       entryChildren := true |};
    {| entryTag := TagFormalParameter; entryName := Some "name";
       entryChildren := false |};
    {| entryTag := TagFormalParameter; entryName := Some "age";
       entryChildren := false |};
    {| entryTag := TagFormalParameter; entryName := Some "~r0";
       entryChildren := false |};
    {| entryTag := TagNull; entryName := None; entryChildren := false |};
    {| entryTag := TagSubprogram; entryName := Some "main.leaf";
       entryChildren := false |} ].

Definition emptyResolver : DWARFResolver :=
  {| functionMap := ∅; executablePath := "/bin/app" |}.

(* ===================================================================== *)
(** * Properties of the string functions                                   *)
(* ===================================================================== *)

Module strings_facts.
Import strings.

#[local] Arguments String.append !_ _ / : simpl nomatch.

Lemma prefix_empty (s : string) : String.prefix EmptyString s = true.
Proof. by destruct s. Qed.

(** A one-byte needle is a prefix exactly when it is the first byte. *)
Lemma HasPrefix_byte (c d : ascii) (s : string) :
  HasPrefix (String c s) (String d EmptyString) = bool_decide (d = c).
Proof.
  unfold HasPrefix. simpl. destruct (ascii_dec d c) as [->|Hne].
  - rewrite prefix_empty. by rewrite bool_decide_eq_true_2.
  - by rewrite bool_decide_eq_false_2.
Qed.

Lemma HasPrefix_byte_empty (d : ascii) :
  HasPrefix EmptyString (String d EmptyString) = false.
Proof. reflexivity. Qed.

Lemma append_empty_r (s : string) : s +:+ EmptyString = s.
Proof. induction s as [|c s IH]; cbn; [done | by f_equal]. Qed.

Lemma append_assoc (a b c : string) : (a +:+ b) +:+ c = a +:+ (b +:+ c).
Proof. induction a as [|x a IH]; cbn; [done | by f_equal]. Qed.

Lemma length_append (a b : string) :
  String.length (a +:+ b) = String.length a + String.length b.
Proof. induction a as [|x a IH]; cbn; [done | by f_equal]. Qed.

(** ** [Contains] for a one-byte needle *)

Lemma Contains_byte_cons (c d : ascii) (s : string) :
  Contains (String c s) (String d EmptyString) =
  bool_decide (d = c) || Contains s (String d EmptyString).
Proof.
  change (Contains (String c s) (String d EmptyString))
    with (HasPrefix (String c s) (String d EmptyString) ||
          Contains s (String d EmptyString)).
  by rewrite HasPrefix_byte.
Qed.

Lemma Contains_byte_app (d : ascii) (a b : string) :
  Contains (a +:+ b) (String d EmptyString) =
  Contains a (String d EmptyString) || Contains b (String d EmptyString).
Proof.
  induction a as [|c a IH]; simpl String.append.
  - reflexivity.
  - rewrite !Contains_byte_cons, IH. by rewrite orb_assoc.
Qed.

(** A string containing the byte [d] splits at its last occurrence. *)
Lemma Contains_byte_split (d : ascii) (s : string) :
  Contains s (String d EmptyString) = true →
  ∃ pre suf, s = pre +:+ String d suf ∧
             Contains suf (String d EmptyString) = false.
Proof.
  induction s as [|c s IH]; [done|].
  rewrite Contains_byte_cons. intros Hc.
  destruct (Contains s (String d EmptyString)) eqn:Hs.
  - destruct IH as (pre & suf & -> & Hsuf); [done|].
    by exists (String c pre), suf.
  - rewrite orb_false_r in Hc. apply bool_decide_eq_true_1 in Hc as ->.
    by exists EmptyString, s.
Qed.

(** ** [lastOccurrence] and the slices around it *)

Lemma lastOccurrence_byte_None (d : ascii) (s : string) :
  Contains s (String d EmptyString) = false →
  lastOccurrence s (String d EmptyString) = None.
Proof.
  induction s as [|c s IH]; [done|].
  rewrite Contains_byte_cons. intros [Hc Hs]%orb_false_elim.
  cbn [lastOccurrence]. rewrite (IH Hs), HasPrefix_byte. by rewrite Hc.
Qed.

Lemma lastOccurrence_byte_Some (d : ascii) (s : string) :
  Contains s (String d EmptyString) = true →
  is_Some (lastOccurrence s (String d EmptyString)).
Proof.
  induction s as [|c s IH]; [done|].
  rewrite Contains_byte_cons. intros Hc. cbn [lastOccurrence].
  destruct (lastOccurrence s (String d EmptyString)) eqn:Hl; [by eexists|].
  rewrite HasPrefix_byte.
  destruct (Contains s (String d EmptyString)) eqn:Hs.
  - destruct IH as [? ?]; done.
  - rewrite orb_false_r in Hc. rewrite Hc. by eexists.
Qed.

Lemma lastOccurrence_byte_split (d : ascii) (pre suf : string) :
  Contains suf (String d EmptyString) = false →
  lastOccurrence (pre +:+ String d suf) (String d EmptyString)
  = Some (String.length pre).
Proof.
  intros Hsuf. induction pre as [|c pre IH]; simpl String.append.
  - cbn [lastOccurrence]. rewrite (lastOccurrence_byte_None _ _ Hsuf).
    rewrite HasPrefix_byte. by rewrite bool_decide_eq_true_2.
  - cbn [lastOccurrence]. by rewrite IH.
Qed.

Lemma substring_prefix_app (a b : string) :
  String.substring 0 (String.length a) (a +:+ b) = a.
Proof. induction a as [|c a IH]; simpl; [by destruct b | by rewrite IH]. Qed.

Lemma substring_all (s : string) :
  String.substring 0 (String.length s) s = s.
Proof. induction s as [|c s IH]; simpl; [done | by rewrite IH]. Qed.

Lemma substring_suffix_app (a b : string) :
  String.substring (String.length a) (String.length b) (a +:+ b) = b.
Proof.
  induction a as [|c a IH]; simpl; [apply substring_all | apply IH].
Qed.

Lemma sliceTo_app (a b : string) :
  sliceTo (a +:+ b) (Z.of_nat (String.length a)) = a.
Proof. unfold sliceTo. rewrite Nat2Z.id. apply substring_prefix_app. Qed.

Lemma sliceFrom_app (a b : string) :
  sliceFrom (a +:+ b) (Z.of_nat (String.length a)) = b.
Proof.
  unfold sliceFrom. rewrite Nat2Z.id, length_append.
  replace (String.length a + String.length b - String.length a)
    with (String.length b) by lia.
  apply substring_suffix_app.
Qed.

Lemma sliceFrom_0 (s : string) : sliceFrom s 0 = s.
Proof.
  unfold sliceFrom. simpl Z.to_nat. rewrite Nat.sub_0_r. apply substring_all.
Qed.

(** ** [Split] on a one-byte separator *)

Lemma splitLoop_byte_absent (d : ascii) (cur s : string) :
  Contains s (String d EmptyString) = false →
  splitLoop (String d EmptyString) 0 cur s = [cur +:+ s].
Proof.
  revert cur. induction s as [|c s IH]; intros cur.
  - intros _. simpl. by rewrite append_empty_r.
  - rewrite Contains_byte_cons. intros [Hc Hs]%orb_false_elim.
    cbn [splitLoop]. rewrite HasPrefix_byte, Hc.
    rewrite (IH _ Hs), append_assoc. reflexivity.
Qed.

Lemma splitLoop_nonempty (sep : string) (k : nat) (cur s : string) :
  splitLoop sep k cur s ≠ [].
Proof.
  revert k cur. induction s as [|c s IH]; intros k cur; [done|].
  cbn [splitLoop]. destruct k; [|apply IH].
  destruct (HasPrefix _ _); [done | apply IH].
Qed.

Lemma last_cons_nonempty {A : Type} (x d : A) (l : list A) :
  l ≠ [] → List.last (x :: l) d = List.last l d.
Proof. by destruct l. Qed.

(** The last piece of a split is what follows the last separator. *)
Lemma splitLoop_byte_last (d : ascii) (cur pre suf : string) :
  Contains suf (String d EmptyString) = false →
  List.last (splitLoop (String d EmptyString) 0 cur (pre +:+ String d suf))
    EmptyString = suf.
Proof.
  intros Hsuf. revert cur.
  induction pre as [|c pre IH]; intros cur; simpl String.append.
  - cbn [splitLoop]. rewrite HasPrefix_byte, bool_decide_eq_true_2 by done.
    simpl String.length. simpl Nat.sub.
    rewrite last_cons_nonempty by apply splitLoop_nonempty.
    by rewrite (splitLoop_byte_absent _ _ _ Hsuf).
  - cbn [splitLoop]. rewrite HasPrefix_byte.
    simpl String.length. simpl Nat.sub.
    destruct (bool_decide (d = c)).
    + rewrite last_cons_nonempty by apply splitLoop_nonempty. apply IH.
    + apply IH.
Qed.

(** A split has more than one piece exactly when the separator occurs. *)
Lemma splitLoop_byte_length (d : ascii) (cur s : string) :
  (1 <? length (splitLoop (String d EmptyString) 0 cur s)) =
  Contains s (String d EmptyString).
Proof.
  revert cur. induction s as [|c s IH]; intros cur; [done|].
  rewrite Contains_byte_cons. cbn [splitLoop]. rewrite HasPrefix_byte.
  simpl String.length. simpl Nat.sub.
  destruct (bool_decide (d = c)); simpl orb.
  - pose proof (splitLoop_nonempty (String d EmptyString) 0 EmptyString s).
    destruct (splitLoop _ 0 EmptyString s); [done|]. reflexivity.
  - apply IH.
Qed.

End strings_facts.

(* ===================================================================== *)
(** * Type identity                                                        *)
(* ===================================================================== *)

Lemma rtype_eqb_sound : ∀ a b : rtype, rtype_eqb a b = true → a = b.
Proof.
  fix rtype_eqb_sound 1. intros a b.
  destruct a as [x| |n x|x|x|fs], b as [y| |m y|y|y|gs];
    cbn [rtype_eqb]; try discriminate; intros Heq.
  - by apply String.eqb_eq in Heq as ->.
  - reflexivity.
  - apply andb_prop in Heq as [Hn Hx]. apply String.eqb_eq in Hn as ->.
    by rewrite (rtype_eqb_sound x y Hx).
  - by rewrite (rtype_eqb_sound x y Heq).
  - by rewrite (rtype_eqb_sound x y Heq).
  - f_equal. revert gs Heq.
    induction fs as [|[n p t g] fs IHfs]; intros [|[n' p' t' g'] gs] Heq;
      try discriminate; [reflexivity|].
    apply andb_prop in Heq as [Heq Hrest].
    apply andb_prop in Heq as [Heq Hg].
    apply andb_prop in Heq as [Heq Ht].
    apply andb_prop in Heq as [Hn Hp].
    apply String.eqb_eq in Hn as ->. apply String.eqb_eq in Hp as ->.
    apply String.eqb_eq in Hg as ->.
    rewrite (rtype_eqb_sound t t' Ht). f_equal. by apply IHfs.
Qed.

Lemma rtype_eqb_refl : ∀ a : rtype, rtype_eqb a a = true.
Proof.
  fix rtype_eqb_refl 1. intros a.
  destruct a as [x| |n x|x|x|fs]; cbn [rtype_eqb].
  - apply String.eqb_refl.
  - reflexivity.
  - by rewrite String.eqb_refl, rtype_eqb_refl.
  - apply rtype_eqb_refl.
  - apply rtype_eqb_refl.
  - induction fs as [|[n p t g] fs IHfs]; [reflexivity|].
    by rewrite !String.eqb_refl, rtype_eqb_refl, IHfs.
Qed.

Lemma rtype_eqb_eq (a b : rtype) : rtype_eqb a b = true ↔ a = b.
Proof.
  split; [apply rtype_eqb_sound | intros ->; apply rtype_eqb_refl].
Qed.

Lemma rtype_eqb_neq (a b : rtype) : rtype_eqb a b = false ↔ a ≠ b.
Proof.
  rewrite <- rtype_eqb_eq. by destruct (rtype_eqb a b).
Qed.

(* ===================================================================== *)
(** * Candidate keys                                                       *)
(* ===================================================================== *)

Section candidate_keys.
Import strings strings_facts.

(** The last piece of a split on the path separator is the identifier with
    its module path stripped. *)
Lemma last_part_stripModulePath (s : string) :
  List.last (Split s "/") EmptyString = stripModulePath s.
Proof.
  unfold stripModulePath, Split, LastIndex.
  destruct (Contains s "/") eqn:Hc.
  - destruct (Contains_byte_split _ _ Hc) as (pre & suf & -> & Hsuf).
    rewrite splitLoop_byte_last by done.
    rewrite lastOccurrence_byte_split by done.
    replace (Z.of_nat (String.length pre) + 1)%Z
      with (Z.of_nat (String.length (pre +:+ "/"))).
    + change (String "/" suf) with ("/" +:+ suf).
      by rewrite <- append_assoc, sliceFrom_app.
    + rewrite length_append. simpl. lia.
  - rewrite splitLoop_byte_absent by done.
    rewrite lastOccurrence_byte_None by done.
    by rewrite sliceFrom_0.
Qed.

(** The text after the last separator, stated on a decomposition. *)
Lemma stripModulePath_split (pre suf : string) :
  Contains suf "/" = false → stripModulePath (pre +:+ "/" +:+ suf) = suf.
Proof.
  intros Hsuf. unfold stripModulePath, LastIndex.
  change ("/" +:+ suf) with (String "/" suf).
  rewrite lastOccurrence_byte_split by done.
  replace (Z.of_nat (String.length pre) + 1)%Z
    with (Z.of_nat (String.length (pre +:+ "/"))).
  - change (String "/" suf) with ("/" +:+ suf).
    by rewrite <- append_assoc, sliceFrom_app.
  - rewrite length_append. simpl. lia.
Qed.

Lemma stripModulePath_no_separator (s : string) :
  Contains s "/" = false → stripModulePath s = s.
Proof.
  intros Hs. unfold stripModulePath, LastIndex.
  rewrite lastOccurrence_byte_None by done. apply sliceFrom_0.
Qed.

(** Cutting a string at its last dot and gluing the halves with a dot gives
    the string back: the candidate of the method branch is the identifier. *)
Lemma glue_at_last_dot (s : string) (k : nat) :
  lastOccurrence s "." = Some k →
  sliceTo s (Z.of_nat k) +:+ "." +:+ sliceFrom s (Z.of_nat k + 1)%Z = s.
Proof.
  intros Hk.
  assert (Hc : Contains s "." = true).
  { destruct (Contains s ".") eqn:Hc; [done|].
    by rewrite lastOccurrence_byte_None in Hk. }
  destruct (Contains_byte_split _ _ Hc) as (pre & suf & -> & Hsuf).
  rewrite lastOccurrence_byte_split in Hk by done. injection Hk as <-.
  rewrite sliceTo_app.
  replace (Z.of_nat (String.length pre) + 1)%Z
    with (Z.of_nat (String.length (pre +:+ "."))).
  - change (String "." suf) with ("." +:+ suf).
    assert (sliceFrom (pre +:+ "." +:+ suf)
              (Z.of_nat (String.length (pre +:+ "."))) = suf) as ->; [|done].
    rewrite <- append_assoc. apply sliceFrom_app.
  - rewrite length_append. simpl. lia.
Qed.

(** The shape of the candidate list: the identifier, then its stripped form
    when it has a path separator, then the identifier once more when it is
    method-shaped. *)
Lemma generateFunctionKeyCandidates_shape (s : string) :
  generateFunctionKeyCandidates s =
  [s] ++ (if Contains s "/" then [stripModulePath s] else [])
      ++ (if methodShaped s then [s] else []).
Proof.
  unfold generateFunctionKeyCandidates, methodShaped.
  rewrite last_part_stripModulePath.
  unfold Split. rewrite !splitLoop_byte_length.
  destruct (Contains s ".") eqn:Hdot; cbn [andb].
  2: { destruct (Contains s "/"); by rewrite ?app_nil_r. }
  destruct (0 <? LastIndex s ".")%Z eqn:Hpos; cbn [andb].
  2: { destruct (Contains s "/"); by rewrite ?app_nil_r. }
  destruct (Contains (sliceTo s (LastIndex s ".")) "(*") eqn:Hm.
  2: { destruct (Contains s "/"); by rewrite ?app_nil_r. }
  unfold LastIndex in *.
  destruct (lastOccurrence s ".") as [k|] eqn:Hk; [|done].
  rewrite (glue_at_last_dot s k Hk).
  destruct (Contains s "/"); by rewrite <- ?app_assoc.
Qed.

(** An identifier that ends in a method name after a receiver with the
    pointer-receiver marker is method-shaped. *)
Lemma methodShaped_receiver (before method : string) :
  Contains before "(*" = true → Contains method "." = false →
  methodShaped (before +:+ "." +:+ method) = true.
Proof.
  intros Hmarker Hmethod. unfold methodShaped, LastIndex.
  change ("." +:+ method) with (String "." method).
  rewrite (lastOccurrence_byte_split "." before method Hmethod).
  rewrite sliceTo_app, Hmarker, Contains_byte_app, Contains_byte_cons.
  rewrite bool_decide_eq_true_2, orb_true_r by done.
  destruct before as [|c before]; [discriminate Hmarker|]. reflexivity.
Qed.

End candidate_keys.

(** C3. Candidate-key generation is a function of the identifier, and the
    list it yields is: the identifier as given; then, when the identifier
    contains a path separator, the text after its last path separator; then,
    when the identifier is method-shaped, the identifier once more. So the
    identifier is always a candidate, the text after the last separator is
    one whenever there is a separator, and the identifier with its module
    path stripped is a candidate for every identifier. An identifier that
    ends in a method name after a receiver with the pointer-receiver marker
    is method-shaped: its list ends with the identifier itself. Nothing else
    is ever a candidate: every candidate is the identifier or the text after
    its last separator. "repo/path/pkg.Func" yields exactly the full
    identifier and "pkg.Func". *)
Theorem candidate_keys_generated :
  (∀ identifier : string,
     generateFunctionKeyCandidates identifier
     = [identifier]
       ++ (if strings.Contains identifier "/"
           then [stripModulePath identifier] else [])
       ++ (if methodShaped identifier then [identifier] else [])) ∧
  (∀ identifier : string,
     In identifier (generateFunctionKeyCandidates identifier) ∧
     In (stripModulePath identifier)
       (generateFunctionKeyCandidates identifier)) ∧
  (∀ pre suf : string,
     strings.Contains suf "/" = false →
     stripModulePath (pre +:+ "/" +:+ suf) = suf ∧
     In suf (generateFunctionKeyCandidates (pre +:+ "/" +:+ suf))) ∧
  (∀ before method : string,
     strings.Contains before "(*" = true →
     strings.Contains method "." = false →
     methodShaped (before +:+ "." +:+ method) = true ∧
     generateFunctionKeyCandidates (before +:+ "." +:+ method)
     = [before +:+ "." +:+ method]
       ++ (if strings.Contains (before +:+ "." +:+ method) "/"
           then [stripModulePath (before +:+ "." +:+ method)] else [])
       ++ [before +:+ "." +:+ method]) ∧
  (∀ identifier candidate : string,
     In candidate (generateFunctionKeyCandidates identifier) →
     candidate = identifier ∨
     (strings.Contains identifier "/" = true ∧
      candidate = stripModulePath identifier)) ∧
  generateFunctionKeyCandidates "repo/path/pkg.Func"
  = ["repo/path/pkg.Func"; "pkg.Func"].
Proof.
  split; [exact generateFunctionKeyCandidates_shape|].
  split; [|split; [|split; [|split]]].
  - intros s. rewrite generateFunctionKeyCandidates_shape. split; [by left|].
    destruct (strings.Contains s "/") eqn:Hc.
    + right. by left.
    + rewrite stripModulePath_no_separator by done. by left.
  - intros pre suf Hsuf. rewrite generateFunctionKeyCandidates_shape.
    assert (Hc : strings.Contains (pre +:+ "/" +:+ suf) "/" = true).
    { rewrite !strings_facts.Contains_byte_app.
      replace (strings.Contains "/" "/") with true by reflexivity.
      by rewrite orb_true_r. }
    rewrite Hc, stripModulePath_split by done.
    split; [done|]. right. by left.
  - intros before method Hmarker Hmethod.
    rewrite generateFunctionKeyCandidates_shape.
    by rewrite (methodShaped_receiver before method Hmarker Hmethod).
  - intros s c. rewrite generateFunctionKeyCandidates_shape.
    destruct (strings.Contains s "/"), (methodShaped s); cbn [app In];
      intros Hin;
      repeat (destruct Hin as [<-|Hin]; [by auto|]); done.
  - reflexivity.
Qed.

(** The candidates of a method with a pointer receiver, as the tests of the
    package expect them: the third one repeats the identifier. *)
Lemma method_candidates_example :
  generateFunctionKeyCandidates "github.com/user/repo/pkg.(*Type).Method"
  = ["github.com/user/repo/pkg.(*Type).Method"; "pkg.(*Type).Method";
     "github.com/user/repo/pkg.(*Type).Method"].
Proof. reflexivity. Qed.

Lemma candidate_keys_generated_witness :
  (strings.Contains "pkg.(*Type).Method" "/" = false ∧
   In "pkg.(*Type).Method"
     (generateFunctionKeyCandidates
        ("github.com/user/repo" +:+ "/" +:+ "pkg.(*Type).Method"))) ∧
  (strings.Contains "github.com/user/repo/pkg.(*Type)" "(*" = true ∧
   strings.Contains "Method" "." = false ∧
   generateFunctionKeyCandidates
     ("github.com/user/repo/pkg.(*Type)" +:+ "." +:+ "Method")
   = ["github.com/user/repo/pkg.(*Type).Method"; "pkg.(*Type).Method";
      "github.com/user/repo/pkg.(*Type).Method"]).
Proof.
  split.
  - split; [reflexivity|].
    apply (proj1 (proj2 (proj2 candidate_keys_generated))). reflexivity.
  - split; [reflexivity|]. split; [reflexivity|].
    etrans;
      [exact (proj2 (proj1 (proj2 (proj2 (proj2 candidate_keys_generated)))
                       "github.com/user/repo/pkg.(*Type)" "Method"
                       eq_refl eq_refl))
      |reflexivity].
Defined.

(* ===================================================================== *)
(** * The resolver                                                         *)
(* ===================================================================== *)

Section resolver_facts.
Import strings.

Lemma validateParams_acc (n i : nat) (input acc : list string) :
  validateParams n i input acc = acc ++ validateParams n i input [].
Proof.
  revert i acc. induction input as [|p rest IH]; intros i acc;
    cbn [validateParams].
  - by rewrite app_nil_r.
  - destruct (HasPrefix p "~r" && (n / 2 <=? i)); [by rewrite app_nil_r|].
    rewrite (IH (S i) (acc ++ [p])), (IH (S i) ([] ++ [p])).
    by rewrite <- app_assoc.
Qed.

(** The scan keeps the entries before the first one that bears the
    return-value prefix at an index at or past the midpoint. *)
Lemma validateParams_scan (n i : nat) (input : list string) :
  ∃ k, k ≤ length input ∧
       validateParams n i input [] = take k input ∧
       (∀ j p, j < k → input !! j = Some p →
               HasPrefix p "~r" && (n / 2 <=? i + j) = false) ∧
       (k = length input ∨
        ∃ p, input !! k = Some p ∧
             HasPrefix p "~r" && (n / 2 <=? i + k) = true).
Proof.
  revert i. induction input as [|p rest IH]; intros i.
  - exists 0. repeat split; [done| |by left]. intros j q Hj. lia.
  - cbn [validateParams].
    destruct (HasPrefix p "~r" && (n / 2 <=? i)) eqn:Hstop.
    + exists 0. repeat split; [simpl; lia| |].
      * intros j q Hj. lia.
      * right. exists p. rewrite Nat.add_0_r. done.
    + destruct (IH (S i)) as (k & Hk & Htake & Hbefore & Hat).
      exists (S k). repeat split.
      * simpl. lia.
      * rewrite validateParams_acc, Htake. reflexivity.
      * intros [|j] q Hj Hq.
        -- injection Hq as <-. by rewrite Nat.add_0_r.
        -- replace (i + S j) with (S i + j) by lia.
           apply (Hbefore j q); [lia | done].
      * destruct Hat as [->|(q & Hq & Hstopq)]; [by left|].
        right. exists q. split; [done|].
        by replace (i + S k) with (S i + k) by lia.
Qed.

(** On an entry that is long enough the filter changes nothing. *)
Lemma resolveEntry_take (allParams : list string) (n : nat) :
  n ≤ length allParams → resolveEntry allParams n = Some (take n allParams).
Proof.
  intros Hlen. unfold resolveEntry.
  rewrite (proj2 (Nat.leb_le _ _) Hlen).
  assert (Hinput : length (take n allParams) = n).
  { rewrite length_take. lia. }
  destruct (validateParams_scan n 0 (take n allParams))
    as (k & Hk & Htake & _ & _).
  rewrite Htake, Hinput, Nat.eqb_refl.
  destruct (length (take k (take n allParams)) =? n) eqn:Hvalid; [|done].
  apply Nat.eqb_eq in Hvalid. rewrite length_take in Hvalid.
  f_equal. apply take_ge. lia.
Qed.

Lemma resolveEntry_short (allParams : list string) (n : nat) :
  length allParams < n → resolveEntry allParams n = None.
Proof.
  intros Hlen. unfold resolveEntry.
  by rewrite (proj2 (Nat.leb_gt _ _) Hlen).
Qed.

Lemma tryCandidates_plainTake (index : gmap string (list string)) (n : nat)
  (candidates : list string) :
  tryCandidates index n candidates = plainTake index n candidates.
Proof.
  induction candidates as [|c rest IH]; [done|].
  cbn [tryCandidates plainTake].
  destruct (index !! c) as [allParams|]; [|done].
  destruct (n <=? length allParams) eqn:Hlen.
  - apply Nat.leb_le in Hlen. by rewrite resolveEntry_take.
  - apply Nat.leb_gt in Hlen. by rewrite resolveEntry_short.
Qed.

Lemma plainTake_Some (index : gmap string (list string)) (n : nat)
  (candidates names : list string) :
  plainTake index n candidates = Some names →
  ∃ c allParams, In c candidates ∧ index !! c = Some allParams ∧
                 n ≤ length allParams ∧ names = take n allParams.
Proof.
  induction candidates as [|c rest IH]; [done|].
  cbn [plainTake]. destruct (index !! c) as [allParams|] eqn:Hc.
  - destruct (n <=? length allParams) eqn:Hlen.
    + intros [= <-]. apply Nat.leb_le in Hlen.
      exists c, allParams. repeat split; [by left|done..].
    + intros (c' & a & Hin & ?)%IH. exists c', a. split; [by right|done].
  - intros (c' & a & Hin & ?)%IH. exists c', a. split; [by right|done].
Qed.

Lemma plainTake_None (index : gmap string (list string)) (n : nat)
  (candidates : list string) :
  plainTake index n candidates = None ↔
  ∀ c allParams, In c candidates → index !! c = Some allParams →
                 length allParams < n.
Proof.
  induction candidates as [|c rest IH].
  - split; [intros _ c a [] | done].
  - cbn [plainTake]. destruct (index !! c) as [allParams|] eqn:Hc.
    + destruct (n <=? length allParams) eqn:Hlen.
      * split; [done|]. intros Hall. apply Nat.leb_le in Hlen.
        specialize (Hall c allParams (or_introl eq_refl) Hc). lia.
      * apply Nat.leb_gt in Hlen. rewrite IH. split.
        -- intros Hall c' a [<-|Hin] Ha; [congruence | by eapply Hall].
        -- intros Hall c' a Hin Ha. apply (Hall c' a); [by right | done].
    + rewrite IH. split.
      * intros Hall c' a [<-|Hin] Ha; [congruence | by eapply Hall].
      * intros Hall c' a Hin Ha. apply (Hall c' a); [by right | done].
Qed.

Lemma discoverParameterNames_inl (dr : DWARFResolver) (env : Env)
  (funcName : string) (n : nat) (names : list string) :
  discoverParameterNames dr env funcName n = inl names ↔
  plainTake (functionMap dr) n (generateFunctionKeyCandidates funcName)
  = Some names.
Proof.
  unfold discoverParameterNames. rewrite tryCandidates_plainTake.
  destruct (plainTake _ _ _) as [names'|].
  - split; intros [= ->]; done.
  - destruct (GetExecutableInfo env) as [[format execPath] err].
    split; discriminate.
Qed.

Lemma discoverParameterNames_inr (dr : DWARFResolver) (env : Env)
  (funcName : string) (n : nat) (e : error) :
  discoverParameterNames dr env funcName n = inr e ↔
  plainTake (functionMap dr) n (generateFunctionKeyCandidates funcName) = None ∧
  e = ErrCannotExtract funcName (GetExecutableInfo env).1.2
        (GetExecutableInfo env).1.1 (size (functionMap dr)) n.
Proof.
  unfold discoverParameterNames. rewrite tryCandidates_plainTake.
  destruct (plainTake _ _ _) as [names'|].
  - split; [discriminate | intros [? _]; discriminate].
  - destruct (GetExecutableInfo env) as [[format execPath] err]. simpl.
    split; [intros [= <-]; done | intros [_ ->]; done].
Qed.

(** A name that is itself a key of the index is found by the first
    candidate. *)
Lemma discoverParameterNames_direct (dr : DWARFResolver) (env : Env)
  (funcName : string) (n : nat) (allParams : list string) :
  functionMap dr !! funcName = Some allParams → n ≤ length allParams →
  discoverParameterNames dr env funcName n = inl (take n allParams).
Proof.
  intros Hkey Hlen. apply discoverParameterNames_inl.
  rewrite generateFunctionKeyCandidates_shape. cbn [app plainTake].
  rewrite Hkey. by rewrite (proj2 (Nat.leb_le _ _) Hlen).
Qed.

(** The first candidate whose entry is long enough decides the result. *)
Lemma discoverParameterNames_first_hit (dr : DWARFResolver) (env : Env)
  (funcName : string) (n : nat) (pre post : list string) (candidate : string)
  (allParams : list string) :
  generateFunctionKeyCandidates funcName = pre ++ candidate :: post →
  (∀ c skipped, In c pre → functionMap dr !! c = Some skipped →
                length skipped < n) →
  functionMap dr !! candidate = Some allParams → n ≤ length allParams →
  discoverParameterNames dr env funcName n = inl (take n allParams).
Proof.
  intros Hcandidates Hpre Hkey Hlen. apply discoverParameterNames_inl.
  rewrite Hcandidates. clear Hcandidates.
  induction pre as [|c pre IH]; cbn [app plainTake].
  - rewrite Hkey. by rewrite (proj2 (Nat.leb_le _ _) Hlen).
  - destruct (functionMap dr !! c) as [skipped|] eqn:Hc.
    + specialize (Hpre c skipped (or_introl eq_refl) Hc) as Hshort.
      rewrite (proj2 (Nat.leb_gt _ _) Hshort). apply IH.
      intros c' s' Hin. apply Hpre. by right.
    + apply IH. intros c' s' Hin. apply Hpre. by right.
Qed.

End resolver_facts.

(** C1. For an indexed raw list at least [paramCount] long, resolution takes
    the first [paramCount] entries, scans them up to the first entry that
    bears the return-value prefix at an index at or past [paramCount / 2],
    returns the scanned prefix when its length is [paramCount] and otherwise
    the unfiltered list when its length is [paramCount]; this is the result
    of the resolution when the entry is that of the first candidate key with
    a long enough entry. In particular
    [a; b; ~r0] with count 2 resolves to [a; b] and [ctx; ~r0; ~r1] with
    count 1 resolves to [ctx]. *)
Theorem return_slot_filtering :
  (∀ (allParams : list string) (paramCount : nat),
      paramCount ≤ length allParams →
      let inputParams := take paramCount allParams in
      ∃ k : nat,
        k ≤ length inputParams ∧
        (∀ j p, j < k → inputParams !! j = Some p →
                strings.HasPrefix p "~r" && (paramCount / 2 <=? j) = false) ∧
        (k = length inputParams ∨
         ∃ p, inputParams !! k = Some p ∧
              strings.HasPrefix p "~r" && (paramCount / 2 <=? k) = true) ∧
        let validParams := take k inputParams in
        let returned :=
          if length validParams =? paramCount then Some validParams
          else if length inputParams =? paramCount then Some inputParams
          else None in
        resolveEntry allParams paramCount = returned ∧
        ∀ (dr : DWARFResolver) (env : Env) (funcName candidate : string)
          (pre post : list string),
          generateFunctionKeyCandidates funcName = pre ++ candidate :: post →
          (∀ c skipped, In c pre → functionMap dr !! c = Some skipped →
                        length skipped < paramCount) →
          functionMap dr !! candidate = Some allParams →
          ∃ names, returned = Some names ∧
                   discoverParameterNames dr env funcName paramCount = inl names) ∧
  discoverParameterNames (singleEntry "main.f" ["a"; "b"; "~r0"])
    sampleEnv "main.f" 2 = inl ["a"; "b"] ∧
  discoverParameterNames (singleEntry "main.g" ["ctx"; "~r0"; "~r1"])
    sampleEnv "main.g" 1 = inl ["ctx"].
Proof.
  split; [|split; vm_compute; reflexivity].
  intros allParams n Hlen inputParams.
  destruct (validateParams_scan n 0 inputParams)
    as (k & Hk & Htake & Hbefore & Hat).
  exists k. split; [done|]. split; [exact Hbefore|]. split; [exact Hat|].
  intros validParams returned.
  assert (Hentry : resolveEntry allParams n = returned).
  { unfold resolveEntry, returned, validParams.
    rewrite (proj2 (Nat.leb_le _ _) Hlen).
    fold inputParams. by rewrite Htake. }
  split; [done|].
  intros dr env funcName candidate pre post Hcandidates Hpre Hkey.
  exists (take n allParams). rewrite <- Hentry. split.
  - by apply resolveEntry_take.
  - by eapply discoverParameterNames_first_hit.
Qed.

Lemma return_slot_filtering_witness :
  2 ≤ length ["x"; "~r0"; "~r1"] ∧
  ∃ names,
    discoverParameterNames (singleEntry "main.h" ["x"; "~r0"; "~r1"])
      sampleEnv "main.h" 2 = inl names.
Proof.
  split; [simpl; lia|].
  destruct (proj1 return_slot_filtering ["x"; "~r0"; "~r1"] 2)
    as (k & _ & _ & _ & Hentry & Hdiscover); [simpl; lia|].
  destruct (Hdiscover (singleEntry "main.h" ["x"; "~r0"; "~r1"]) sampleEnv
              "main.h" "main.h" [] [])
    as (names & _ & Hnames); [reflexivity|by intros c skipped []|reflexivity|].
  by exists names.
Defined.

(** C10. On an entry at least [paramCount] long the return-slot filter never
    changes the result: resolution returns the first [paramCount] entries,
    and the resolver is extensionally the plain take-first resolver, so a
    successful resolution returns exactly the first [paramCount] entries of
    the raw list of some candidate. *)
Theorem filter_is_plain_take :
  (∀ (allParams : list string) (paramCount : nat),
      paramCount ≤ length allParams →
      resolveEntry allParams paramCount = Some (take paramCount allParams)) ∧
  (∀ (index : gmap string (list string)) (paramCount : nat)
     (candidates : list string),
      tryCandidates index paramCount candidates
      = plainTake index paramCount candidates) ∧
  (∀ (dr : DWARFResolver) (env : Env) (funcName : string) (paramCount : nat)
     (names : list string),
      discoverParameterNames dr env funcName paramCount = inl names →
      ∃ candidate allParams,
        In candidate (generateFunctionKeyCandidates funcName) ∧
        functionMap dr !! candidate = Some allParams ∧
        paramCount ≤ length allParams ∧
        names = take paramCount allParams).
Proof.
  split; [exact resolveEntry_take|]. split; [exact tryCandidates_plainTake|].
  intros dr env funcName n names Hok.
  apply discoverParameterNames_inl in Hok. by apply plainTake_Some.
Qed.

Lemma filter_is_plain_take_witness :
  3 ≤ length ["a"; "~r0"; "b"; "~r1"] ∧
  resolveEntry ["a"; "~r0"; "b"; "~r1"] 3 = Some ["a"; "~r0"; "b"].
Proof.
  split; [simpl; lia|].
  apply (proj1 filter_is_plain_take ["a"; "~r0"; "b"; "~r1"] 3). simpl. lia.
Defined.

(** C4 (as the code has it). Resolution fails exactly when no candidate key
    is indexed with an entry of at least [paramCount] names; the error then
    carries the function identifier, the path and the format of the
    executable, the number of indexed functions and the expected parameter
    count. *)
Theorem resolution_failure_reported (dr : DWARFResolver) (env : Env)
  (funcName : string) (paramCount : nat) :
  ((∀ candidate allParams,
      In candidate (generateFunctionKeyCandidates funcName) →
      functionMap dr !! candidate = Some allParams →
      length allParams < paramCount) ↔
   ∃ e, discoverParameterNames dr env funcName paramCount = inr e) ∧
  (∀ e, discoverParameterNames dr env funcName paramCount = inr e →
        operands e =
        [OpString funcName; OpString (GetExecutableInfo env).1.2;
         OpFormat (GetExecutableInfo env).1.1;
         OpInt (Z.of_nat (size (functionMap dr))); OpString funcName;
         OpInt (Z.of_nat paramCount)] ∧
        carries e (OpString funcName) ∧
        carries e (OpInt (Z.of_nat (size (functionMap dr))))).
Proof.
  split.
  - rewrite <- plainTake_None. split.
    + intros Hnone. eexists. apply discoverParameterNames_inr. by split.
    + intros [e He]. by apply discoverParameterNames_inr in He as [? _].
  - intros e He. apply discoverParameterNames_inr in He as [_ ->].
    split; [reflexivity|]. unfold carries. cbn [operands In]. tauto.
Qed.

Lemma resolution_failure_reported_witness :
  discoverParameterNames (singleEntry "other.g" ["x"]) sampleEnv "main.f" 2
  = inr (ErrCannotExtract "main.f" "/bin/app" FormatELF 1 2) ∧
  carries (ErrCannotExtract "main.f" "/bin/app" FormatELF 1 2)
    (OpString "main.f").
Proof.
  split; [vm_compute; reflexivity|].
  apply (proj2 (resolution_failure_reported (singleEntry "other.g" ["x"])
                  sampleEnv "main.f" 2)).
  vm_compute. reflexivity.
Defined.

(** C4 as stated fails: with no candidate indexed, the error does not carry
    the candidate keys that were tried, neither as a list nor the stripped
    key on its own. *)
Lemma resolution_error_omits_candidates :
  ∃ e, discoverParameterNames (singleEntry "other.g" ["x"]) sampleEnv
         "repo/path/pkg.Func" 1 = inr e ∧
       generateFunctionKeyCandidates "repo/path/pkg.Func"
       = ["repo/path/pkg.Func"; "pkg.Func"] ∧
       ¬ carries e (OpStrings (generateFunctionKeyCandidates "repo/path/pkg.Func")) ∧
       ¬ carries e (OpString "pkg.Func").
Proof.
  eexists. split; [vm_compute; reflexivity|]. split; [reflexivity|].
  unfold carries. cbn [operands In].
  split; intros H; repeat destruct H as [H|H]; try discriminate H; done.
Qed.

(* ===================================================================== *)
(** * Format detection                                                     *)
(* ===================================================================== *)

Lemma byteIs_true (b c : byte) : byteIs b c = true → b = c.
Proof. apply byte_dec_bl. Qed.

(** One test of the magic bytes: a test on a byte of the file is split in
    two cases, a test between two constants is computed. *)
Ltac byte_step :=
  match goal with
  | |- context [byteIs ?a ?b] =>
      first
        [ is_var a; let E := fresh "E" in
          destruct (byteIs a b) eqn:E; [apply byteIs_true in E; subst a|]
        | let v := eval vm_compute in (byteIs a b) in
          change (byteIs a b) with v ];
      cbn [andb orb]
  end.

(** A test that failed on a byte now known. *)
Ltac byte_clash :=
  match goal with
  | E : byteIs _ _ = false |- _ => vm_compute in E; discriminate E
  end.

Ltac detect_leaf :=
  split;
  [ intros Hr;
    first [ discriminate Hr
          | eexists; reflexivity
          | exists [xfe; xed; xfa; xce]; eexists; split; [cbn; tauto|reflexivity]
          | exists [xce; xfa; xed; xfe]; eexists; split; [cbn; tauto|reflexivity]
          | exists [xfe; xed; xfa; xcf]; eexists; split; [cbn; tauto|reflexivity]
          | exists [xcf; xfa; xed; xfe]; eexists; split; [cbn; tauto|reflexivity] ]
  | intros Hm;
    repeat match goal with
           | H : ∃ _, _ |- _ => destruct H
           | H : _ ∧ _ |- _ => destruct H
           | H : In _ machoMagics |- _ => cbn in H
           | H : _ ∨ _ |- _ => destruct H
           | H : False |- _ => destruct H
           end;
    simplify_eq/=; first [reflexivity | byte_clash] ].

Lemma detect_regular (env : Env) (filename : string) (data : list byte) :
  files env !! filename = Some (Regular data) →
  (DetectExecutableFormat env filename = (FormatELF, None) ↔
   ∃ rest, data = [x7f; x45; x4c; x46] ++ rest) ∧
  (DetectExecutableFormat env filename = (FormatPE, None) ↔
   ∃ rest, data = [x4d; x5a] ++ rest) ∧
  (DetectExecutableFormat env filename = (FormatMachO, None) ↔
   ∃ magic rest, In magic machoMagics ∧ data = magic ++ rest).
Proof.
  intros Hf. unfold DetectExecutableFormat. rewrite Hf.
  destruct data as [|b0 [|b1 [|b2 [|b3 rest]]]];
    cbn [readInto take replicate app length Nat.sub byteAt nth];
    repeat byte_step; (split; [|split]); detect_leaf.
Qed.

Lemma detect_outcomes (env : Env) (filename : string) :
  DetectExecutableFormat env filename = (FormatELF, None) ∨
  DetectExecutableFormat env filename = (FormatPE, None) ∨
  DetectExecutableFormat env filename = (FormatMachO, None) ∨
  ∃ e, DetectExecutableFormat env filename = (FormatUnknown, Some e).
Proof.
  unfold DetectExecutableFormat.
  destruct (files env !! filename) as [file|]; [|by eauto 6].
  destruct (readInto 4 file) as [magic|err]; [|by eauto 6].
  repeat match goal with
         | |- context [if ?c then _ else _] => destruct c
         end; eauto 6.
Qed.

(** A file that is not empty and begins with none of the magic sequences
    gets the unknown-format error, which holds the four bytes compared: the
    first bytes of the file, padded with zeros when it is shorter. *)
Lemma detect_unmatched (env : Env) (filename : string) (data : list byte) :
  files env !! filename = Some (Regular data) → data ≠ [] →
  DetectExecutableFormat env filename ≠ (FormatELF, None) →
  DetectExecutableFormat env filename ≠ (FormatPE, None) →
  DetectExecutableFormat env filename ≠ (FormatMachO, None) →
  DetectExecutableFormat env filename
  = (FormatUnknown,
     Some (ErrUnknownMagic (take 4 data ++ replicate (4 - length data) x00))).
Proof.
  intros Hf Hne. unfold DetectExecutableFormat. rewrite Hf.
  destruct data as [|b data]; [done|]. cbn [readInto].
  repeat match goal with
         | |- context [if ?c then _ else _] => destruct c
         end; done.
Qed.

(** C9 (as the code has it). Detection classifies a file by the bytes it
    begins with: ELF exactly when it begins with 0x7f 'E' 'L' 'F', PE
    exactly when it begins with 'M' 'Z', Mach-O exactly when it begins with
    one of the four Mach-O magic sequences. In every other case it fails
    and reports the Unknown format: with the unknown-format error, holding
    the four bytes compared, for a file that is not empty and begins with
    none of the sequences; with the error of the operating system for a
    path that cannot be opened and for a file that cannot be read or is
    empty. These are all its errors. A file shorter than four bytes is not
    rejected for its length: it is compared padded with zeros. *)
Theorem detect_format_classified (env : Env) (filename : string) :
  (DetectExecutableFormat env filename = (FormatELF, None) ↔
   ∃ rest, files env !! filename
           = Some (Regular ([x7f; x45; x4c; x46] ++ rest))) ∧
  (DetectExecutableFormat env filename = (FormatPE, None) ↔
   ∃ rest, files env !! filename = Some (Regular ([x4d; x5a] ++ rest))) ∧
  (DetectExecutableFormat env filename = (FormatMachO, None) ↔
   ∃ magic rest, In magic machoMagics ∧
                 files env !! filename = Some (Regular (magic ++ rest))) ∧
  (∀ data : list byte,
     files env !! filename = Some (Regular data) → data ≠ [] →
     (¬ ∃ rest, data = [x7f; x45; x4c; x46] ++ rest) →
     (¬ ∃ rest, data = [x4d; x5a] ++ rest) →
     (¬ ∃ magic rest, In magic machoMagics ∧ data = magic ++ rest) →
     DetectExecutableFormat env filename
     = (FormatUnknown,
        Some (ErrUnknownMagic
                (take 4 data ++ replicate (4 - length data) x00)))) ∧
  (files env !! filename = None →
   DetectExecutableFormat env filename
   = (FormatUnknown, Some (ErrOpen filename))) ∧
  (files env !! filename = Some Unreadable ∨
   files env !! filename = Some (Regular []) →
   DetectExecutableFormat env filename = (FormatUnknown, Some ErrRead)) ∧
  (∀ (format : ExecutableFormat) (e : error),
     DetectExecutableFormat env filename = (format, Some e) →
     format = FormatUnknown ∧
     ((e = ErrOpen filename ∧ files env !! filename = None) ∨
      (e = ErrRead ∧ (files env !! filename = Some Unreadable ∨
                      files env !! filename = Some (Regular []))) ∨
      (∃ data, files env !! filename = Some (Regular data) ∧ data ≠ [] ∧
               e = ErrUnknownMagic
                     (take 4 data ++ replicate (4 - length data) x00)))).
Proof.
  assert (HELF : DetectExecutableFormat env filename = (FormatELF, None) ↔
                 ∃ rest, files env !! filename
                         = Some (Regular ([x7f; x45; x4c; x46] ++ rest))).
  { destruct (files env !! filename) as [[data|]|] eqn:Hf.
    + rewrite (proj1 (detect_regular env filename data Hf)).
      split; intros [rest Hr]; exists rest; congruence.
    + unfold DetectExecutableFormat. rewrite Hf. cbn.
      split; [discriminate | intros [? ?]; discriminate].
    + unfold DetectExecutableFormat. rewrite Hf.
      split; [discriminate | intros [? ?]; discriminate]. }
  assert (HPE : DetectExecutableFormat env filename = (FormatPE, None) ↔
                ∃ rest, files env !! filename
                        = Some (Regular ([x4d; x5a] ++ rest))).
  { destruct (files env !! filename) as [[data|]|] eqn:Hf.
    + rewrite (proj1 (proj2 (detect_regular env filename data Hf))).
      split; intros [rest Hr]; exists rest; congruence.
    + unfold DetectExecutableFormat. rewrite Hf. cbn.
      split; [discriminate | intros [? ?]; discriminate].
    + unfold DetectExecutableFormat. rewrite Hf.
      split; [discriminate | intros [? ?]; discriminate]. }
  assert (HMachO : DetectExecutableFormat env filename = (FormatMachO, None) ↔
                   ∃ magic rest, In magic machoMagics ∧
                     files env !! filename = Some (Regular (magic ++ rest))).
  { destruct (files env !! filename) as [[data|]|] eqn:Hf.
    + rewrite (proj2 (proj2 (detect_regular env filename data Hf))).
      split; intros (magic & rest & Hin & Hr); exists magic, rest;
        (split; [done | congruence]).
    + unfold DetectExecutableFormat. rewrite Hf. cbn.
      split; [discriminate | intros (? & ? & ? & ?); discriminate].
    + unfold DetectExecutableFormat. rewrite Hf.
      split; [discriminate | intros (? & ? & ? & ?); discriminate]. }
  split; [exact HELF|]. split; [exact HPE|]. split; [exact HMachO|].
  split; [|split; [|split]].
  - intros data Hf Hne HnoELF HnoPE HnoMachO.
    apply (detect_unmatched env filename data Hf Hne).
    + intros [rest Hr]%HELF. apply HnoELF. exists rest. congruence.
    + intros [rest Hr]%HPE. apply HnoPE. exists rest. congruence.
    + intros (magic & rest & Hin & Hr)%HMachO. apply HnoMachO.
      exists magic, rest. split; [done | congruence].
  - intros Hf. unfold DetectExecutableFormat. by rewrite Hf.
  - intros [Hf|Hf]; unfold DetectExecutableFormat; by rewrite Hf.
  - intros format e. unfold DetectExecutableFormat.
    destruct (files env !! filename) as [[data|]|] eqn:Hf.
    + destruct data as [|b data].
      * cbn [readInto]. intros [= <- <-]. split; [done|].
        right. left. split; [done|]. by right.
      * cbn [readInto].
        repeat match goal with
               | |- context [if ?c then _ else _] => destruct c
               end; try discriminate.
        intros [= <- <-]. split; [done|]. right. right.
        exists (b :: data). by repeat split.
    + cbn [readInto]. intros [= <- <-]. split; [done|].
      right. left. split; [done|]. by left.
    + intros [= <- <-]. split; [done|]. by left.
Qed.

Lemma detect_format_classified_witness :
  (files sampleEnv !! "/nowhere" = None ∧
   DetectExecutableFormat sampleEnv "/nowhere"
   = (FormatUnknown, Some (ErrOpen "/nowhere"))) ∧
  (files {| files := {[ "/tmp/note" := Regular [x6e; x6f] ]};
            executable := None |} !! "/tmp/note"
   = Some (Regular [x6e; x6f]) ∧
   DetectExecutableFormat
     {| files := {[ "/tmp/note" := Regular [x6e; x6f] ]};
        executable := None |} "/tmp/note"
   = (FormatUnknown, Some (ErrUnknownMagic [x6e; x6f; x00; x00]))).
Proof.
  split.
  - split; [vm_compute; reflexivity|].
    apply (detect_format_classified sampleEnv "/nowhere").
    vm_compute. reflexivity.
  - assert (Hf : files {| files := {[ "/tmp/note" := Regular [x6e; x6f] ]};
                          executable := None |} !! "/tmp/note"
                 = Some (Regular [x6e; x6f])) by (vm_compute; reflexivity).
    split; [exact Hf|].
    refine (proj1 (proj2 (proj2 (proj2 (detect_format_classified
              {| files := {[ "/tmp/note" := Regular [x6e; x6f] ]};
                 executable := None |} "/tmp/note"))))
              [x6e; x6f] Hf _ _ _ _).
    + discriminate.
    + intros [rest Hr]. discriminate Hr.
    + intros [rest Hr]. discriminate Hr.
    + intros (magic & rest & Hin & Hr).
      repeat (destruct Hin as [<-|Hin]; [discriminate Hr|]). destruct Hin.
Defined.

(** C9 as stated fails twice. A file of two bytes, shorter than the four
    bytes detection reads, that begins with 'M' 'Z' is classified as PE
    without an error. And a path that cannot be opened fails with the error
    of [os.Open], which is not the unknown-format error. *)
Lemma detection_not_as_claimed :
  (files sampleEnv !! "/tmp/stub" = Some (Regular [x4d; x5a]) ∧
   length [x4d; x5a] < 4 ∧
   DetectExecutableFormat sampleEnv "/tmp/stub" = (FormatPE, None) ∧
   ¬ ∃ e, DetectExecutableFormat sampleEnv "/tmp/stub"
          = (FormatUnknown, Some e)) ∧
  (files sampleEnv !! "/nowhere" = None ∧
   DetectExecutableFormat sampleEnv "/nowhere"
   = (FormatUnknown, Some (ErrOpen "/nowhere")) ∧
   ¬ ∃ magic, DetectExecutableFormat sampleEnv "/nowhere"
              = (FormatUnknown, Some (ErrUnknownMagic magic))).
Proof.
  split.
  - split; [vm_compute; reflexivity|]. split; [simpl; lia|].
    split; [vm_compute; reflexivity|].
    intros [e He]. vm_compute in He. discriminate He.
  - split; [vm_compute; reflexivity|]. split; [vm_compute; reflexivity|].
    intros [magic Hm]. vm_compute in Hm. discriminate Hm.
Qed.

(* ===================================================================== *)
(** * Descriptors                                                          *)
(* ===================================================================== *)

Section descriptor_facts.

Context {rt : GoRuntime}.

Lemma createStructFields_names (paramTypes : list rtype) (i : nat)
  (names : list string) (fields : list StructField) :
  createStructFields paramTypes i names = Ok fields →
  fieldName <$> fields = capitalizeFirst <$> names.
Proof.
  revert i fields. induction names as [|name rest IH]; intros i fields.
  - by intros [= <-].
  - cbn [createStructFields obind].
    destruct (paramTypes !! i) as [pt|]; [|done]. cbn [orPanic obind].
    destruct (createStructFields paramTypes (S i) rest) as [fs| |] eqn:Hfs;
      [|done..].
    cbn [obind]. intros [= <-]. cbn. f_equal. by eapply IH.
Qed.

Lemma looksUnexported_blank (name : string) :
  looksUnexported name = false → String.eqb name "_" = false.
Proof.
  intros Hl. destruct (String.eqb name "_") eqn:He; [|done].
  apply String.eqb_eq in He as ->. done.
Qed.

(** [reflect.StructOf] accepts no two fields of the same name. *)
Lemma structOfLoop_NoDup (fset : gset string) (fields : list StructField) :
  structOfLoop fset fields = true →
  NoDup (fieldName <$> fields) ∧
  ∀ name, name ∈ (fieldName <$> fields) → name ∉ fset.
Proof.
  revert fset. induction fields as [|f rest IH]; intros fset.
  - intros _. split; [constructor | intros name Hin; inversion Hin].
  - cbn [structOfLoop].
    destruct (String.eqb (fieldName f) EmptyString); [done|].
    destruct (negb (isValidFieldName (fieldName f))); [done|].
    destruct (looksUnexported (fieldName f)) eqn:Hl; [done|].
    rewrite (looksUnexported_blank _ Hl). cbn [negb]. rewrite andb_true_r.
    destruct (bool_decide (fieldName f ∈ fset)) eqn:Hin; [done|].
    apply bool_decide_eq_false_1 in Hin.
    intros [Hnd Hfresh]%IH. split.
    + cbn. constructor; [|done].
      intros Hdup. apply (Hfresh _ Hdup).
      by apply elem_of_union_l, elem_of_singleton.
    + intros name. cbn. intros [->|Hname]%elem_of_cons; [done|].
      intros Hin'. apply (Hfresh _ Hname). by apply elem_of_union_r.
Qed.

Lemma StructOf_NoDup (fields : list StructField) (t : rtype) :
  StructOf fields = Some t →
  t = TStruct fields ∧ NoDup (fieldName <$> fields).
Proof.
  unfold StructOf. destruct (structOfLoop ∅ fields) eqn:Hloop; [|done].
  intros [= <-]. split; [done|]. by apply structOfLoop_NoDup in Hloop as [? _].
Qed.

(** A descriptor that [NewFunction] returns is well formed. *)
Lemma NewFunction_wellFormed (st : ResolverState) (env : Env)
  (fn : candidateFn) (t : Function) :
  NewFunction st env fn = Ok t → wellFormed t.
Proof.
  unfold NewFunction. destruct (resolverInitErr st); [done|].
  destruct fn as [funcName ins outs variadic body|v]; [|by destruct v].
  destruct (discoverParameterNames _ _ _ _) as [names|err] eqn:Hnames; [|done].
  unfold createStructType.
  destruct (createStructFields ins 0 names) as [fields| |] eqn:Hfields;
    [|done..].
  cbn [obind]. destruct (StructOf fields) as [sty|] eqn:Hsty; [|done].
  cbn [orPanic]. intros [= <-]. unfold wellFormed. cbn.
  apply discoverParameterNames_inl, plainTake_Some in Hnames
    as (c & allParams & _ & _ & Hlen & ->).
  split.
  - rewrite length_take. lia.
  - apply StructOf_NoDup in Hsty as [_ Hnd].
    rewrite (createStructFields_names _ _ _ _ Hfields) in Hnd.
    by apply NoDup_fmap_1 in Hnd.
Qed.

End descriptor_facts.

(** The sample descriptor [greet] is what [NewFunction] builds. *)
Lemma greet_constructed :
  NewFunction (rt := sampleRuntime) sampleState sampleEnv
    (IsFunc "main.greet" [TBasic "string"; TBasic "int"] [TBasic "string"]
       false echo)
  = Ok greet.
Proof. vm_compute. reflexivity. Qed.

(** The sample descriptor [join] is what [NewFunction] builds from the
    variadic function. *)
Lemma join_constructed :
  NewFunction (rt := sampleRuntime) joinState sampleEnv
    (IsFunc "main.join" [TBasic "string"; TSlice (TBasic "string")]
       [TBasic "string"] true echo)
  = Ok join.
Proof. vm_compute. reflexivity. Qed.

(* ===================================================================== *)
(** * Positional invocation                                                *)
(* ===================================================================== *)

Section positional_facts.

Context {rt : GoRuntime}.

Lemma drop_cons_lookup {A : Type} (l : list A) (i : nat) (x : A) (tl : list A) :
  drop i l = x :: tl → l !! i = Some x ∧ drop (S i) l = tl.
Proof.
  intros Hd.
  assert (Hx : l !! i = Some x).
  { rewrite <- (Nat.add_0_r i), <- lookup_drop, Hd. done. }
  split; [done|]. rewrite (drop_S _ _ _ Hx) in Hd. by injection Hd.
Qed.

Lemma checkArgs_ok (t : Function) (i : nat) (args : list value) :
  Forall2 accepted args (drop i (paramTypes t)) → checkArgs t i args = Ok args.
Proof.
  revert i. induction args as [|arg rest IH]; intros i Hall; [done|].
  inversion Hall as [|? pt ? tl (argType & Hty & Hassign) Hrest Ha Hd].
  symmetry in Hd. apply drop_cons_lookup in Hd as [Hpt Hdrop].
  cbn [checkArgs]. rewrite Hty, Hpt. cbn [orPanic obind].
  rewrite Hassign. cbn [negb]. rewrite IH; [done|]. by rewrite Hdrop.
Qed.

(** The check stops at the first argument whose type is not assignable and
    reports its position and the name of its parameter. *)
Lemma checkArgs_mismatch (t : Function) (base k : nat) (args : list value)
  (arg : value) (argType paramType : rtype) (name : string) :
  args !! k = Some arg → typeOf arg = Some argType →
  paramTypes t !! (base + k) = Some paramType →
  AssignableTo argType paramType = false →
  paramNames t !! (base + k) = Some name →
  (∀ j a pt, j < k → args !! j = Some a →
             paramTypes t !! (base + j) = Some pt → accepted a pt) →
  (∀ j, j < k → is_Some (paramTypes t !! (base + j))) →
  checkArgs t base args = Err (ErrArgType (base + k) name argType paramType).
Proof.
  revert base args. induction k as [|k IH]; intros base args.
  - destruct args as [|a rest]; [done|]. intros [= ->] Hty Hpt Hassign Hname _ _.
    rewrite Nat.add_0_r in *. cbn [checkArgs].
    rewrite Hty, Hpt. cbn [orPanic obind]. rewrite Hassign. cbn [negb].
    by rewrite Hname.
  - destruct args as [|a rest]; [done|]. cbn [lookup list_lookup].
    intros Hk Hty Hpt Hassign Hname Hbefore Hsome.
    destruct (Hsome 0) as [pt0 Hpt0]; [lia|].
    destruct (Hbefore 0 a pt0) as (ty0 & Hty0 & Hassign0); [lia|done..|].
    rewrite Nat.add_0_r in Hpt0. cbn [checkArgs].
    rewrite Hty0, Hpt0. cbn [orPanic obind]. rewrite Hassign0. cbn [negb].
    replace (base + S k) with (S base + k) in * by lia.
    rewrite (IH (S base) rest); [done..| |].
    + intros j a' pt' Hj Ha' Hpt'. apply (Hbefore (S j) a' pt'); [lia|done|].
      by replace (base + S j) with (S base + j) by lia.
    + intros j Hj. replace (S base + j) with (base + S j) by lia.
      apply Hsome. lia.
Qed.

Lemma checkArgs_Err (t : Function) (i : nat) (args : list value) (e : error) :
  checkArgs t i args = Err e → ∃ j name a p, e = ErrArgType j name a p.
Proof.
  revert i. induction args as [|arg rest IH]; intros i; [done|].
  cbn [checkArgs]. destruct (typeOf arg) as [ty|]; [|done].
  destruct (paramTypes t !! i) as [pt|]; [|done]. cbn [orPanic obind].
  destruct (negb (AssignableTo ty pt)).
  - destruct (paramNames t !! i) as [name|]; [|done]. cbn [orPanic obind].
    intros [= <-]. eauto.
  - destruct (checkArgs t (S i) rest) as [cs|e'|] eqn:Hrest; [done| |done].
    cbn [obind]. intros [= <-]. by eapply IH.
Qed.

Lemma checkArgs_Ok (t : Function) (i : nat) (args callArgs : list value) :
  checkArgs t i args = Ok callArgs → callArgs = args.
Proof.
  revert i callArgs. induction args as [|arg rest IH]; intros i callArgs.
  - by intros [= <-].
  - cbn [checkArgs]. destruct (typeOf arg) as [ty|]; [|done].
    destruct (paramTypes t !! i) as [pt|]; [|done]. cbn [orPanic obind].
    destruct (negb (AssignableTo ty pt)).
    + destruct (paramNames t !! i); done.
    + destruct (checkArgs t (S i) rest) as [cs|e'|] eqn:Hrest; [|done..].
      cbn [obind]. intros [= <-]. f_equal. by eapply IH.
Qed.

Lemma Call_wrong_count (t : Function) (args : list value) (σ : calls) :
  length args ≠ length (paramTypes t) →
  Call t args σ
  = (Err (ErrWrongArgCount (length (paramTypes t)) (length args)), σ).
Proof.
  intros Hne. unfold Call.
  by rewrite (proj2 (Nat.eqb_neq _ _) Hne).
Qed.

(** What passes the check of [Call] is what [accepted] says. *)
Lemma checkArgs_accepted (t : Function) (i : nat) (args callArgs : list value) :
  checkArgs t i args = Ok callArgs →
  length args = length (drop i (paramTypes t)) →
  Forall2 accepted args (drop i (paramTypes t)).
Proof.
  revert i callArgs. induction args as [|arg rest IH]; intros i callArgs.
  - intros _ Hlen. destruct (drop i (paramTypes t)); [constructor | done].
  - cbn [checkArgs]. destruct (typeOf arg) as [ty|] eqn:Hty; [|done].
    destruct (paramTypes t !! i) as [pt|] eqn:Hpt; [|done]. cbn [orPanic obind].
    destruct (AssignableTo ty pt) eqn:Hassign; cbn [negb].
    2: { by destruct (paramNames t !! i). }
    destruct (checkArgs t (S i) rest) as [cs| |] eqn:Hrest; [|done..].
    intros _. rewrite (drop_S _ _ _ Hpt). cbn [length]. intros [= Hlen].
    constructor; [by exists ty | by eapply IH].
Qed.

(** ** The checks of [reflect.Value.Call] *)

Lemma ValueOf_typed (v : value) (ty : rtype) :
  typeOf v = Some ty → ValueOf v = Some (valueOf ty v).
Proof. intros Hty. unfold ValueOf. by rewrite Hty. Qed.

(** The Values of a list of arguments hold these arguments, have their
    dynamic types, and none is read-only. *)
Lemma validArgs_ValueOf_Ok (args : list value) (callArgs : list rvalue) :
  validArgs (ValueOf <$> args) = Ok callArgs →
  valueData <$> callArgs = args ∧
  Forall2 (λ x arg, typeOf arg = Some (valueType x)) callArgs args ∧
  existsb readOnly callArgs = false.
Proof.
  revert callArgs. induction args as [|arg rest IH]; intros callArgs.
  - intros [= <-]. by repeat split.
  - cbn [fmap list_fmap validArgs]. unfold ValueOf at 1.
    destruct (typeOf arg) as [ty|] eqn:Hty; [|done]. cbn [orPanic obind].
    destruct (validArgs (ValueOf <$> rest)) as [vs| |] eqn:Hrest; [|done..].
    cbn [obind]. intros [= <-]. destruct (IH vs eq_refl) as (Hd & Ht & Hro).
    cbn. rewrite Hd, Hro. repeat split. by constructor.
Qed.

Lemma validArgs_not_Err (args : list Value) (e : error) :
  validArgs args ≠ Err e.
Proof.
  induction args as [|arg rest IH]; [done|]. cbn [validArgs].
  destruct arg; [|done]. cbn [orPanic obind]. by destruct (validArgs rest).
Qed.

Lemma validArgs_accepted (args : list value) (pts : list rtype) :
  Forall2 accepted args pts →
  ∃ callArgs,
    validArgs (ValueOf <$> args) = Ok callArgs ∧
    valueData <$> callArgs = args ∧
    Forall2 (λ x pt, AssignableTo (valueType x) pt = true) callArgs pts ∧
    existsb readOnly callArgs = false.
Proof.
  induction 1 as [|arg pt args pts (ty & Hty & Hassign) _ IH].
  - exists []. by repeat split.
  - destruct IH as (vs & Hvs & Hd & Hall & Hro).
    exists (valueOf ty arg :: vs).
    cbn [fmap list_fmap validArgs]. rewrite (ValueOf_typed _ _ Hty), Hvs.
    cbn. rewrite Hd, Hro. repeat split. by constructor.
Qed.

Lemma forallb_zip_assignable (callArgs : list rvalue) (pts : list rtype)
  (n : nat) :
  Forall2 (λ x pt, AssignableTo (valueType x) pt = true) callArgs pts →
  forallb (λ p, AssignableTo (valueType p.1) p.2) (zip callArgs (take n pts))
  = true.
Proof.
  intros Hall. revert n.
  induction Hall as [|x pt callArgs pts Hx _ IH]; intros n; [done|].
  destruct n as [|n]; [done|]. cbn. by rewrite Hx, IH.
Qed.

(** For a function that is not variadic, reflect accepts arguments whose
    types are assignable to the parameter types, none of them read-only. *)
Lemma reflectAccepts_fixed (fnType : FuncType) (callArgs : list rvalue) :
  IsVariadic fnType = false →
  Forall2 (λ x pt, AssignableTo (valueType x) pt = true)
    callArgs (inTypes fnType) →
  existsb readOnly callArgs = false →
  reflectAccepts fnType callArgs = true.
Proof.
  intros Hvar Hall Hro. unfold reflectAccepts. rewrite Hvar, Hro.
  rewrite (Forall2_length _ _ _ Hall), Nat.ltb_irrefl. cbn [negb andb].
  by rewrite forallb_zip_assignable.
Qed.

(** For a variadic function with as many arguments as parameters, reflect
    wants the last argument to be one variadic element. *)
Lemma reflectAccepts_variadic (fnType : FuncType) (elem : rtype)
  (callArgs : list rvalue) (x : rvalue) :
  IsVariadic fnType = true →
  inTypes fnType !! (length (inTypes fnType) - 1) = Some (TSlice elem) →
  callArgs !! (length (inTypes fnType) - 1) = Some x →
  AssignableTo (valueType x) elem = false →
  reflectAccepts fnType callArgs = false.
Proof.
  intros Hvar Hlast Hx Hassign. unfold reflectAccepts.
  rewrite Hvar. cbn [negb andb].
  destruct (length callArgs <? length (inTypes fnType) - 1); [done|].
  destruct (negb (forallb _ _)); [done|].
  destruct (existsb readOnly callArgs); [done|]. rewrite Hlast.
  rewrite (drop_S _ _ _ Hx). cbn [forallb]. by rewrite Hassign.
Qed.

(** [function.Call] on the Values of a list of arguments either runs the
    callable on these arguments or panics. *)
Lemma callReflect_ValueOf (fnType : FuncType) (f : list value → list value)
  (args : list value) (σ : calls) :
  callReflect fnType f (ValueOf <$> args) σ = (Ok (f args), σ ++ [args]) ∨
  callReflect fnType f (ValueOf <$> args) σ = (Panic, σ).
Proof.
  unfold callReflect, bind, lift.
  destruct (validArgs (ValueOf <$> args)) as [callArgs|e|] eqn:Hvalid.
  - apply validArgs_ValueOf_Ok in Hvalid as (Hd & _ & _). unfold invoke.
    rewrite Hd. destruct (reflectAccepts fnType callArgs); [by left | by right].
  - by apply validArgs_not_Err in Hvalid.
  - by right.
Qed.

(** Past its checks [Call] hands the arguments to [function.Call]. *)
Lemma Call_checked (t : Function) (args : list value) (σ : calls) :
  Forall2 accepted args (paramTypes t) →
  Call t args σ
  = callReflect (functionType t) (function t) (ValueOf <$> args) σ.
Proof.
  intros Hall. unfold Call.
  rewrite (Forall2_length _ _ _ Hall), Nat.eqb_refl. cbn [negb].
  unfold bind at 1, lift at 1. by rewrite checkArgs_ok.
Qed.

Lemma callReflect_accepted (t : Function) (args : list value) (σ : calls) :
  fixedArity t →
  Forall2 accepted args (paramTypes t) →
  callReflect (functionType t) (function t) (ValueOf <$> args) σ
  = (Ok (function t args), σ ++ [args]).
Proof.
  intros [Hin Hvar] Hall.
  destruct (validArgs_accepted _ _ Hall) as (callArgs & Hvalid & Hd & Ht & Hro).
  unfold callReflect, bind, lift, invoke. rewrite Hvalid.
  rewrite reflectAccepts_fixed, Hd; [done..| |done]. by rewrite Hin.
Qed.

Lemma Call_accepted (t : Function) (args : list value) (σ : calls) :
  fixedArity t →
  Forall2 accepted args (paramTypes t) →
  Call t args σ = (Ok (function t args), σ ++ [args]).
Proof.
  intros Hfixed Hall. rewrite Call_checked by done.
  by apply callReflect_accepted.
Qed.

Lemma callReflect_variadic (t : Function) (elem : rtype) (args : list value)
  (σ : calls) :
  variadicOver t elem →
  (∀ ty, AssignableTo ty (TSlice elem) = true → AssignableTo ty elem = false) →
  Forall2 accepted args (paramTypes t) →
  callReflect (functionType t) (function t) (ValueOf <$> args) σ = (Panic, σ).
Proof.
  intros (Hin & Hvar & Hlast) Hslice Hall.
  destruct (validArgs_accepted _ _ Hall) as (callArgs & Hvalid & Hd & Ht & Hro).
  unfold callReflect, bind, lift, invoke. rewrite Hvalid.
  destruct (lookup_lt_is_Some_2 callArgs (length (paramTypes t) - 1))
    as [x Hx].
  { rewrite (Forall2_length _ _ _ Ht). by eapply lookup_lt_Some. }
  rewrite (reflectAccepts_variadic _ elem callArgs x); rewrite ?Hin; try done.
  apply Hslice. exact (Forall2_lookup_lr _ _ _ _ _ _ Ht Hx Hlast).
Qed.

(** A variadic callable is never reached: the arguments that pass the
    check of [Call] make [function.Call] panic. *)
Lemma Call_variadic (t : Function) (elem : rtype) (args : list value)
  (σ : calls) :
  variadicOver t elem →
  (∀ ty, AssignableTo ty (TSlice elem) = true → AssignableTo ty elem = false) →
  (Forall2 accepted args (paramTypes t) → Call t args σ = (Panic, σ)) ∧
  (∀ results σ', Call t args σ ≠ (Ok results, σ')).
Proof.
  intros Hvar Hslice.
  assert (Hpanic : Forall2 accepted args (paramTypes t) →
                   Call t args σ = (Panic, σ)).
  { intros Hall. rewrite Call_checked by done.
    by apply (callReflect_variadic t elem). }
  split; [exact Hpanic|]. intros results σ'.
  destruct (length args =? length (paramTypes t)) eqn:Hlen.
  2: { unfold Call. by rewrite Hlen. }
  destruct (checkArgs t 0 args) as [cs| |] eqn:Hcheck.
  - rewrite Hpanic; [done|].
    rewrite <- (drop_0 (paramTypes t)). eapply checkArgs_accepted; [done|].
    rewrite drop_0. by apply Nat.eqb_eq.
  - unfold Call. rewrite Hlen. cbn [negb]. unfold bind, lift.
    by rewrite Hcheck.
  - unfold Call. rewrite Hlen. cbn [negb]. unfold bind, lift.
    by rewrite Hcheck.
Qed.

(** Whatever [Call] returns, a success is one invocation of the callable on
    the arguments given, and anything else leaves the callable alone. *)
Lemma Call_outcomes (t : Function) (args : list value) (σ : calls) :
  (Call t args σ = (Ok (function t args), σ ++ [args]) ∧
   length args = length (paramTypes t)) ∨
  (∃ e, Call t args σ = (Err e, σ) ∧
        ((∃ n m, e = ErrWrongArgCount n m) ∨
         (∃ j name a p, e = ErrArgType j name a p))) ∨
  Call t args σ = (Panic, σ).
Proof.
  unfold Call. destruct (length args =? length (paramTypes t)) eqn:Hlen.
  - cbn [negb]. unfold bind, lift.
    destruct (checkArgs t 0 args) as [cs|e|] eqn:Hcheck.
    + apply checkArgs_Ok in Hcheck as ->.
      destruct (callReflect_ValueOf (functionType t) (function t) args σ)
        as [Hok|Hpanic].
      * left. split; [done|]. by apply Nat.eqb_eq.
      * by right; right.
    + right. left. exists e. split; [done|]. right. by eapply checkArgs_Err.
    + by right; right.
  - right. left. eexists. split; [done|]. left. eauto.
Qed.

End positional_facts.

(** C6. Positional invocation with an argument count other than the
    parameter count returns the wrong-argument-count error and leaves the
    callable uninvoked; the first argument whose type is not assignable is
    reported by its position, the name of its parameter, and the actual and
    the expected type, again without an invocation; and for a callable that
    is not variadic, the right count with every argument type assignable to
    its parameter type returns what the callable returns on these
    arguments, the callable being invoked once on them. For a variadic
    callable this fails: the arguments that pass the checks of [Call] have
    the slice of the variadic elements in the last place, where
    [function.Call] wants one element, so that it panics, and no positional
    invocation ever reaches the callable. *)
Theorem positional_invocation {rt : GoRuntime} (t : Function)
  (args : list value) (σ : calls) :
  (length args ≠ length (paramTypes t) →
   Call t args σ
   = (Err (ErrWrongArgCount (length (paramTypes t)) (length args)), σ)) ∧
  (fixedArity t → Forall2 accepted args (paramTypes t) →
   Call t args σ = (Ok (function t args), σ ++ [args])) ∧
  (wellFormed t → length args = length (paramTypes t) →
   ∀ i arg argType paramType,
     args !! i = Some arg → typeOf arg = Some argType →
     paramTypes t !! i = Some paramType →
     AssignableTo argType paramType = false →
     (∀ j a pt, j < i → args !! j = Some a → paramTypes t !! j = Some pt →
                accepted a pt) →
     ∃ name, paramNames t !! i = Some name ∧
             Call t args σ = (Err (ErrArgType i name argType paramType), σ)) ∧
  (∀ elem : rtype,
     variadicOver t elem →
     (∀ ty, AssignableTo ty (TSlice elem) = true →
            AssignableTo ty elem = false) →
     (Forall2 accepted args (paramTypes t) → Call t args σ = (Panic, σ)) ∧
     (∀ results σ', Call t args σ ≠ (Ok results, σ'))).
Proof.
  split; [apply Call_wrong_count|]. split; [apply Call_accepted|].
  split; [|intros elem; apply Call_variadic].
  intros [Hwf _] Hlen i arg argType paramType Hi Hty Hpt Hassign Hbefore.
  destruct (lookup_lt_is_Some_2 (paramNames t) i) as [name Hname].
  { rewrite Hwf. by eapply lookup_lt_Some. }
  exists name. split; [done|]. unfold Call.
  rewrite Hlen, Nat.eqb_refl. cbn [negb]. unfold bind, lift.
  rewrite (checkArgs_mismatch t 0 i args arg argType paramType name); try done.
  intros j Hj. apply lookup_lt_is_Some_2.
  apply lookup_lt_Some in Hpt. simpl. lia.
Qed.

(** [join] is built by [NewFunction] from a variadic function; the
    arguments [","] and a slice of strings have the right count and types
    assignable to the parameter types, and [Call] panics on them. *)
Lemma positional_invocation_witness :
  NewFunction (rt := sampleRuntime) joinState sampleEnv
    (IsFunc "main.join" [TBasic "string"; TSlice (TBasic "string")]
       [TBasic "string"] true echo)
  = Ok join ∧
  variadicOver join (TBasic "string") ∧
  Forall2 (accepted (rt := sampleRuntime)) [VString ","; twoParts]
    (paramTypes join) ∧
  Call (rt := sampleRuntime) join [VString ","; twoParts] [] = (Panic, []) ∧
  ∀ results σ',
    Call (rt := sampleRuntime) join [VString ","; twoParts] []
    ≠ (Ok results, σ').
Proof.
  assert (Hvar : variadicOver join (TBasic "string")) by by repeat split.
  assert (Hall : Forall2 (accepted (rt := sampleRuntime))
                   [VString ","; twoParts] (paramTypes join)).
  { repeat constructor; eexists; by split. }
  assert (Hslice : ∀ ty,
            AssignableTo (GoRuntime := sampleRuntime) ty
              (TSlice (TBasic "string")) = true →
            AssignableTo (GoRuntime := sampleRuntime) ty (TBasic "string")
            = false).
  { intros ty Hty. cbn in Hty. rewrite orb_false_r in Hty.
    by apply rtype_eqb_sound in Hty as ->. }
  split; [exact join_constructed|]. split; [exact Hvar|].
  split; [exact Hall|].
  destruct (proj2 (proj2 (proj2 (positional_invocation (rt := sampleRuntime)
                                    join [VString ","; twoParts] [])))
              (TBasic "string") Hvar Hslice) as [Hpanic Hnever].
  split; [exact (Hpanic Hall) | exact Hnever].
Defined.

(* ===================================================================== *)
(** * Context splicing                                                     *)
(* ===================================================================== *)

Section splicing_facts.

Context {rt : GoRuntime}.

Lemma In_contextPositionsFrom (base : nat) (pts : list rtype) (p : nat) :
  In p (contextPositionsFrom base pts) ↔
  ∃ k, p = base + k ∧ pts !! k = Some contextType.
Proof.
  revert base. induction pts as [|pt rest IH]; intros base.
  - split; [done | intros (k & _ & Hk); done].
  - cbn [contextPositionsFrom].
    destruct (rtype_eqb pt contextType) eqn:Hpt.
    + apply rtype_eqb_eq in Hpt as ->. cbn [In]. rewrite IH. split.
      * intros [<-|(k & -> & Hk)]; [exists 0|exists (S k)]; split;
          [lia|done|lia|done].
      * intros ([|k] & -> & Hk); [left; lia|].
        right. exists k. split; [lia|done].
    + apply rtype_eqb_neq in Hpt. rewrite IH. split.
      * intros (k & -> & Hk). exists (S k). split; [lia|done].
      * intros ([|k] & -> & Hk); [by injection Hk|].
        exists k. split; [lia|done].
Qed.

Lemma In_nonContextPositionsFrom (base : nat) (pts : list rtype) (p : nat) :
  In p (nonContextPositionsFrom base pts) ↔
  ∃ k pt, p = base + k ∧ pts !! k = Some pt ∧ pt ≠ contextType.
Proof.
  revert base. induction pts as [|pt rest IH]; intros base.
  - split; [done | intros (k & ? & _ & Hk & _); done].
  - cbn [nonContextPositionsFrom].
    destruct (rtype_eqb pt contextType) eqn:Hpt.
    + apply rtype_eqb_eq in Hpt as ->. rewrite IH. split.
      * intros (k & pt & -> & Hk & Hne). exists (S k), pt.
        split; [lia|done].
      * intros ([|k] & pt & -> & Hk & Hne); [by injection Hk as <-|].
        exists k, pt. split; [lia|done].
    + apply rtype_eqb_neq in Hpt. cbn [In]. rewrite IH. split.
      * intros [<-|(k & pt' & -> & Hk & Hne)];
          [exists 0, pt|exists (S k), pt']; (split; [lia|done]).
      * intros ([|k] & pt' & -> & Hk & Hne); [left; lia|].
        right. exists k, pt'. split; [lia|done].
Qed.

(** The membership test of the loop is the test of the parameter type. *)
Lemma slicesContains_contextPositions (pts : list rtype) (i : nat) (pt : rtype) :
  pts !! i = Some pt →
  slicesContains (contextPositionsFrom 0 pts) i = rtype_eqb pt contextType.
Proof.
  intros Hpt. unfold slicesContains.
  destruct (rtype_eqb pt contextType) eqn:Heq.
  - apply rtype_eqb_eq in Heq as ->. apply existsb_exists.
    exists i. split; [|apply Nat.eqb_refl].
    apply In_contextPositionsFrom. by exists i.
  - apply rtype_eqb_neq in Heq.
    destruct (existsb _ _) eqn:Hex; [|done].
    apply existsb_exists in Hex as (q & Hin & ->%Nat.eqb_eq).
    apply In_contextPositionsFrom in Hin as (k & -> & Hk).
    simpl in *. congruence.
Qed.

Lemma positions_count (base : nat) (pts : list rtype) :
  length (contextPositionsFrom base pts) +
  length (nonContextPositionsFrom base pts) = length pts.
Proof.
  revert base. induction pts as [|pt rest IH]; intros base; [done|].
  cbn [contextPositionsFrom nonContextPositionsFrom].
  destruct (rtype_eqb pt contextType); cbn [length]; rewrite <- (IH (S base)); lia.
Qed.

(** ** The reference splicing *)

Lemma splice_length (ctx : value) (pts : list rtype) (args full : list value) :
  splice ctx pts args = Some full → length full = length pts.
Proof.
  revert args full. induction pts as [|pt rest IH]; intros args full.
  - by intros [= <-].
  - cbn [splice]. destruct (rtype_eqb pt contextType).
    + destruct (splice ctx rest args) as [tl|] eqn:Htl; [|done].
      intros [= <-]. cbn. f_equal. by eapply IH.
    + destruct args as [|a args']; [done|].
      destruct (splice ctx rest args') as [tl|] eqn:Htl; [|done].
      intros [= <-]. cbn. f_equal. by eapply IH.
Qed.



(** The reference splicing fails exactly when the caller brings fewer
    arguments than there are positions to fill. *)
Lemma splice_None (ctx : value) (pts : list rtype) (args : list value) :
  splice ctx pts args = None ↔
  length args < length (nonContextPositionsFrom 0 pts).
Proof.
  generalize 0 as base. revert args.
  induction pts as [|pt rest IH]; intros args base.
  - cbn. split; [done | lia].
  - cbn [splice nonContextPositionsFrom].
    destruct (rtype_eqb pt contextType).
    + rewrite <- (IH args (S base)).
      destruct (splice ctx rest args); split; done.
    + destruct args as [|a args']; [cbn; split; [lia|done]|].
      cbn [length]. rewrite <- Nat.succ_lt_mono, <- (IH args' (S base)).
      destruct (splice ctx rest args'); split; done.
Qed.

Lemma splice_no_context (ctx : value) (pts : list rtype) (args : list value)
  (base : nat) :
  contextPositionsFrom base pts = [] → length args = length pts →
  splice ctx pts args = Some args.
Proof.
  revert args base. induction pts as [|pt rest IH]; intros args base.
  - intros _ Hlen. by destruct args.
  - cbn [contextPositionsFrom splice].
    destruct (rtype_eqb pt contextType); [done|].
    intros Hnone Hlen. destruct args as [|a args']; [done|].
    rewrite (IH args' (S base)); [done..|]. cbn in Hlen. lia.
Qed.

(** ** The loop of [CallWithContext] computes the reference splicing *)

Lemma fillArgs_splice (t : Function) (ctx : value) (args : list value)
  (steps i argIndex : nat) (fullArgs : list value) :
  i + steps = length (paramTypes t) →
  length fullArgs = length (paramTypes t) →
  fillArgs t (GetContextPositions t) ctx args steps i argIndex fullArgs =
  match splice ctx (drop i (paramTypes t)) (drop argIndex args) with
  | Some tail => Ok (take i fullArgs ++ tail)
  | None => Err (ErrNotEnoughArgs
                   (length (paramTypes t) - length (GetContextPositions t))
                   (length args))
  end.
Proof.
  revert i argIndex fullArgs.
  induction steps as [|steps IH]; intros i argIndex fullArgs Hsteps Hfull.
  - cbn [fillArgs]. rewrite drop_ge by lia. cbn [splice].
    rewrite app_nil_r, take_ge by lia. done.
  - destruct (lookup_lt_is_Some_2 (paramTypes t) i) as [pt Hpt]; [lia|].
    cbn [fillArgs]. unfold GetContextPositions at 1.
    rewrite (slicesContains_contextPositions _ _ _ Hpt).
    rewrite (drop_S _ _ _ Hpt). cbn [splice].
    destruct (rtype_eqb pt contextType).
    + rewrite IH by (rewrite ?length_insert; lia).
      destruct (splice ctx _ _) as [tail|]; [|done]. cbn. f_equal.
      assert (Hl : <[i:=ctx]> fullArgs !! i = Some ctx)
        by (apply list_lookup_insert_eq; lia).
      rewrite (take_S_r _ _ _ Hl), take_insert_ge by lia.
      by rewrite <- app_assoc.
    + destruct (length args <=? argIndex) eqn:Hargs.
      * apply Nat.leb_le in Hargs. by rewrite drop_ge by lia.
      * apply Nat.leb_gt in Hargs.
        destruct (lookup_lt_is_Some_2 args argIndex) as [arg Harg]; [lia|].
        rewrite Harg, (drop_S _ _ _ Harg). cbn [orPanic obind].
        rewrite IH by (rewrite ?length_insert; lia).
        destruct (splice ctx _ _) as [tail|]; [|done]. cbn. f_equal.
        assert (Hl : <[i:=arg]> fullArgs !! i = Some arg)
          by (apply list_lookup_insert_eq; lia).
        rewrite (take_S_r _ _ _ Hl), take_insert_ge by lia.
        by rewrite <- app_assoc.
Qed.

(** With a context parameter, [CallWithContext] is [Call] on the reference
    splicing, and the not-enough-arguments error when there is none. *)
Lemma CallWithContext_spliced (t : Function) (ctx : value) (args : list value)
  (σ : calls) :
  GetContextPositions t ≠ [] →
  CallWithContext t ctx args σ =
  match splice ctx (paramTypes t) args with
  | Some fullArgs => Call t fullArgs σ
  | None => (Err (ErrNotEnoughArgs
                    (length (paramTypes t) - length (GetContextPositions t))
                    (length args)), σ)
  end.
Proof.
  intros Hctx. unfold CallWithContext.
  destruct (length (GetContextPositions t) =? 0) eqn:Hlen.
  { apply Nat.eqb_eq in Hlen. by destruct (GetContextPositions t). }
  unfold bind, lift.
  rewrite fillArgs_splice by (rewrite ?length_replicate; lia).
  rewrite !drop_0, take_0. cbn [app].
  by destruct (splice ctx (paramTypes t) args).
Qed.

(** Too few arguments are refused, and the callable is left alone. *)
Lemma CallWithContext_too_few (t : Function) (ctx : value) (args : list value)
  (σ : calls) :
  GetContextPositions t ≠ [] →
  length args < length (paramTypes t) - length (GetContextPositions t) →
  CallWithContext t ctx args σ
  = (Err (ErrNotEnoughArgs
            (length (paramTypes t) - length (GetContextPositions t))
            (length args)), σ).
Proof.
  intros Hctx Hfew. rewrite CallWithContext_spliced by done.
  assert (Hnone : splice ctx (paramTypes t) args = None).
  { apply splice_None. pose proof (positions_count 0 (paramTypes t)).
    unfold GetContextPositions in Hfew. lia. }
  by rewrite Hnone.
Qed.

End splicing_facts.



(** C2, evaluated on a descriptor with one context parameter and one other
    parameter: one argument too few is refused with the expected count, one
    argument too many is not refused, the callable is invoked and the
    surplus argument is dropped. *)
Theorem surplus_argument_not_refused :
  GetContextPositions handler = [0] ∧
  nonContextPositionsFrom 0 (paramTypes handler) = [1] ∧
  CallWithContext (rt := sampleRuntime) handler background [] []
  = (Err (ErrNotEnoughArgs 1 0), []) ∧
  CallWithContext (rt := sampleRuntime) handler background
    [VInt 1; VInt 2] []
  = (Ok [background; VInt 1], [[background; VInt 1]]).
Proof.
  split; [reflexivity|]. split; [reflexivity|].
  split; vm_compute; reflexivity.
Qed.

(* ===================================================================== *)
(** * Named-mapping invocation                                             *)
(* ===================================================================== *)

Section mapping_facts.

Context {rt : GoRuntime}.

Lemma missingParams_none (argMap : gmap string value) (names : list string) :
  (∀ name, In name names → is_Some (argMap !! name)) →
  missingParams argMap names = [].
Proof.
  induction names as [|name rest IH]; intros Hall; [done|].
  cbn [missingParams]. destruct (Hall name) as [v ->]; [by left|].
  apply IH. intros n Hn. apply Hall. by right.
Qed.

Lemma orderArgs_ok (t : Function) (argMap : gmap string value) (i : nat)
  (names : list string) :
  Forall2 (λ name pt, accepted (default VNil (argMap !! name)) pt)
    names (drop i (paramTypes t)) →
  orderArgs t argMap i names
  = Ok ((λ name, default VNil (argMap !! name)) <$> names).
Proof.
  revert i. induction names as [|name rest IH]; intros i Hall; [done|].
  inversion Hall as [|? pt ? tl (argType & Hty & Hassign) Hrest Ha Hd].
  symmetry in Hd. apply drop_cons_lookup in Hd as [Hpt Hdrop].
  cbn [orderArgs]. rewrite Hty, Hpt. cbn [orPanic obind].
  rewrite Hassign. cbn [negb]. rewrite IH; [done|]. by rewrite Hdrop.
Qed.

(** A map whose keys are the declared names has as many entries as there
    are parameters, the names being pairwise distinct. *)
Lemma size_of_named_map (t : Function) (argMap : gmap string value) :
  wellFormed t → dom argMap = list_to_set (paramNames t) →
  size argMap = length (paramTypes t).
Proof.
  intros [Hlen Hnd] Hdom.
  rewrite <- size_dom, Hdom, size_list_to_set by done. done.
Qed.

End mapping_facts.

(** C5. For a well-formed descriptor and a map whose key set is the set of
    declared parameter names and whose values are assignable to the
    parameter types, the named-mapping call is the positional call on the
    values arranged in declared order: the same outcome and the same
    invocations of the callable. For a callable that is not variadic both
    invoke the callable once on that list and return its results. A map has
    no order of its own, so the order in which its entries were written
    plays no role. *)
Theorem named_invocation {rt : GoRuntime} (t : Function)
  (argMap : gmap string value) (σ : calls) :
  wellFormed t →
  dom argMap = list_to_set (paramNames t) →
  (∀ i name paramType,
     paramNames t !! i = Some name → paramTypes t !! i = Some paramType →
     ∃ arg, argMap !! name = Some arg ∧ accepted arg paramType) →
  CallWithMap t argMap σ = Call t (inDeclaredOrder t argMap) σ ∧
  (fixedArity t →
   CallWithMap t argMap σ
   = (Ok (function t (inDeclaredOrder t argMap)),
      σ ++ [inDeclaredOrder t argMap])).
Proof.
  intros Hwf Hdom Hvalues.
  assert (Hall : Forall2 (λ name pt, accepted (default VNil (argMap !! name)) pt)
                   (paramNames t) (paramTypes t)).
  { apply Forall2_same_length_lookup_2; [apply Hwf|].
    intros i name pt Hname Hpt.
    destruct (Hvalues i name pt Hname Hpt) as (arg & -> & Harg). done. }
  assert (Hordered : Forall2 accepted (inDeclaredOrder t argMap) (paramTypes t)).
  { unfold inDeclaredOrder. by apply Forall2_fmap_l. }
  assert (Hmap : CallWithMap t argMap σ
                 = Call t (inDeclaredOrder t argMap) σ).
  { rewrite Call_checked by done.
    unfold CallWithMap, MapToArgs, bind, lift.
    rewrite (size_of_named_map t argMap Hwf Hdom), Nat.eqb_refl. cbn [negb].
    rewrite missingParams_none.
    - cbn [length Nat.ltb Nat.leb]. rewrite orderArgs_ok; [done|].
      by rewrite drop_0.
    - intros name Hin. apply elem_of_dom. rewrite Hdom.
      by apply elem_of_list_to_set, list_elem_of_In. }
  split; [exact Hmap|]. intros Hfixed. rewrite Hmap. by apply Call_accepted.
Qed.

Lemma named_invocation_witness :
  wellFormed greet ∧
  dom (<["age" := VInt 30]> (<["name" := VString "Alice"]> (∅ : gmap string value)))
  = list_to_set (paramNames greet) ∧
  <["age" := VInt 30]> (<["name" := VString "Alice"]> (∅ : gmap string value))
  = <["name" := VString "Alice"]> (<["age" := VInt 30]> ∅) ∧
  CallWithMap (rt := sampleRuntime) greet
    (<["age" := VInt 30]> (<["name" := VString "Alice"]> ∅)) []
  = Call (rt := sampleRuntime) greet [VString "Alice"; VInt 30] [] ∧
  fixedArity greet ∧
  CallWithMap (rt := sampleRuntime) greet
    (<["age" := VInt 30]> (<["name" := VString "Alice"]> ∅)) []
  = (Ok [VString "Alice"; VInt 30], [] ++ [[VString "Alice"; VInt 30]]).
Proof.
  assert (Hwf : wellFormed greet).
  { exact (NewFunction_wellFormed (rt := sampleRuntime) _ _ _ _
             greet_constructed). }
  assert (Hdom : dom (<["age" := VInt 30]>
                        (<["name" := VString "Alice"]> (∅ : gmap string value)))
                 = list_to_set (paramNames greet)).
  { apply set_eq. intros k. rewrite !dom_insert_L, dom_empty_L. cbn.
    rewrite !elem_of_union, !elem_of_singleton, elem_of_empty. tauto. }
  assert (Hfixed : fixedArity greet) by (by split).
  split; [exact Hwf|]. split; [exact Hdom|]. split.
  { apply insert_insert_ne. done. }
  assert (Hvalues : ∀ i name paramType,
            paramNames greet !! i = Some name →
            paramTypes greet !! i = Some paramType →
            ∃ arg, (<["age" := VInt 30]>
                      (<["name" := VString "Alice"]> (∅ : gmap string value)))
                   !! name = Some arg ∧
                   accepted (rt := sampleRuntime) arg paramType).
  { intros [|[|i]] name pt; cbn; intros [= <-] [= <-].
    - exists (VString "Alice"). split; [reflexivity|].
      exists (TBasic "string"). split; reflexivity.
    - exists (VInt 30). split; [reflexivity|].
      exists (TBasic "int"). split; reflexivity. }
  split; [|split; [exact Hfixed|]].
  - exact (proj1 (named_invocation (rt := sampleRuntime) greet _ [] Hwf Hdom
                    Hvalues)).
  - exact (proj2 (named_invocation (rt := sampleRuntime) greet _ [] Hwf Hdom
                    Hvalues) Hfixed).
Defined.

(* ===================================================================== *)
(** * Structural compatibility and the non-context record                  *)
(* ===================================================================== *)

Section record_facts.

Context {rt : GoRuntime}.

Lemma fieldsCompatible_Forall2 (fields1 fields2 : list StructField) :
  length fields1 = length fields2 →
  fieldsCompatible fields1 fields2 = true ↔
  Forall2 sameNameAndType fields1 fields2.
Proof.
  revert fields2. induction fields1 as [|a rest1 IH]; intros [|b rest2] Hlen;
    try discriminate Hlen.
  - split; [constructor | done].
  - cbn [fieldsCompatible]. injection Hlen as Hlen.
    destruct (String.eqb (fieldName a) (fieldName b)) eqn:Hn; cbn [negb orb].
    + destruct (rtype_eqb (fieldType a) (fieldType b)) eqn:Ht; cbn [negb].
      * apply String.eqb_eq in Hn. apply rtype_eqb_eq in Ht.
        rewrite (IH rest2 Hlen). split.
        -- intros Hrest. by constructor.
        -- intros Hall. by inversion Hall.
      * apply rtype_eqb_neq in Ht. split; [done|].
        intros Hall. inversion Hall as [|? ? ? ? [_ Hty]]. done.
    + apply String.eqb_neq in Hn. split; [done|].
      intros Hall. inversion Hall as [|? ? ? ? [Hname _]]. done.
Qed.

Lemma structTypesCompatible_Forall2 (t1 t2 : rtype) :
  structTypesCompatible t1 t2 = true ↔
  ∃ fields1 fields2,
    structFields t1 = Some fields1 ∧ structFields t2 = Some fields2 ∧
    Forall2 sameNameAndType fields1 fields2.
Proof.
  unfold structTypesCompatible.
  destruct (structFields t1) as [fields1|];
    [|split; [done | intros (? & ? & ? & _); done]].
  destruct (structFields t2) as [fields2|];
    [|split; [done | intros (? & ? & _ & ? & _); done]].
  destruct (length fields1 =? length fields2) eqn:Hlen; cbn [negb].
  - apply Nat.eqb_eq in Hlen. rewrite (fieldsCompatible_Forall2 _ _ Hlen).
    split; [intros Hall; by exists fields1, fields2|].
    by intros (? & ? & [= <-] & [= <-] & Hall).
  - apply Nat.eqb_neq in Hlen. split; [done|].
    intros (? & ? & [= <-] & [= <-] & Hall).
    by apply Forall2_length in Hall.
Qed.



Lemma fieldIndex_NoDup (fields : list StructField) (j : nat) (f : StructField) :
  NoDup (fieldName <$> fields) → fields !! j = Some f →
  fieldIndex (fieldName f) fields = Some j.
Proof.
  revert j. induction fields as [|g rest IH]; intros j Hnd Hj; [done|].
  cbn in Hnd. apply NoDup_cons in Hnd as [Hfresh Hnd].
  cbn [fieldIndex]. destruct j as [|j].
  - injection Hj as ->. by rewrite String.eqb_refl.
  - cbn in Hj. destruct (String.eqb (fieldName g) (fieldName f)) eqn:Heq.
    + apply String.eqb_eq in Heq. exfalso. apply Hfresh. rewrite Heq.
      apply list_elem_of_fmap. exists f. split; [done|].
      by eapply list_elem_of_lookup_2.
    + by rewrite (IH j Hnd Hj).
Qed.

(** [FieldByName] on a record, for the name of its [i]-th field, the names
    being pairwise distinct: the Value has the type of the field and holds
    its value, and is read-only when the field is not exported. *)
Lemma FieldByName_record (recordType : rtype) (fields : list StructField)
  (fieldValues : list value) (i : nat) (f : StructField) (x : value) :
  structFields recordType = Some fields →
  NoDup (fieldName <$> fields) →
  fields !! i = Some f → fieldValues !! i = Some x →
  FieldByName (valueOf recordType (VStruct recordType fieldValues)) (fieldName f)
  = Some {| valueType := fieldType f; valueData := x;
            readOnly := negb (IsExported f) |}.
Proof.
  intros Hfields Hnd Hf Hx. unfold FieldByName, valueOf. cbn.
  rewrite Hfields. cbn. rewrite (fieldIndex_NoDup _ _ _ Hnd Hf). cbn.
  by rewrite Hf, Hx.
Qed.





End record_facts.

Section acceptance_facts.

Context {rt : GoRuntime}.




End acceptance_facts.



(* ===================================================================== *)
(** * Building the index                                                   *)
(* ===================================================================== *)

Section index_facts.

Lemma extract_rest_length (reader : list Entry) (acc : list string) :
  length (extractParametersFromDWARF reader acc).2 ≤ length reader.
Proof.
  revert acc. induction reader as [|entry rest IH]; intros acc; [done|].
  cbn [extractParametersFromDWARF].
  destruct (entryTag entry); [cbn; lia| | |];
    try destruct (entryName entry); cbn [length];
    try (etrans; [apply IH|lia]).
Qed.

(** The loop does not depend on the fuel once there is enough of it. *)
Lemma indexLoop_fuel (fuel1 fuel2 : nat) (reader : list Entry)
  (m : gmap string (list string)) :
  length reader ≤ fuel1 → length reader ≤ fuel2 →
  indexLoop fuel1 reader m = indexLoop fuel2 reader m.
Proof.
  revert fuel2 reader m.
  induction fuel1 as [|fuel1 IH]; intros fuel2 reader m H1 H2.
  - destruct reader; [|cbn in H1; lia]. by destruct fuel2.
  - destruct fuel2 as [|fuel2].
    + destruct reader; [done|cbn in H2; lia].
    + destruct reader as [|entry rest]; [done|]. cbn [indexLoop].
      cbn [length] in H1, H2.
      destruct (entryTag entry); try (apply IH; lia).
      destruct (negb _ && _); [|apply IH; lia].
      pose proof (extract_rest_length rest []).
      apply IH; lia.
Qed.

(** One step of [indexFunctions] on a non-empty reader. *)
Lemma indexLoop_step (entry : Entry) (rest : list Entry)
  (m : gmap string (list string)) :
  indexLoop (length (entry :: rest)) (entry :: rest) m =
  match entryTag entry with
  | TagSubprogram =>
      let funcName := default EmptyString (entryName entry) in
      if negb (String.eqb funcName EmptyString) && entryChildren entry
      then
        let r := extractParametersFromDWARF rest [] in
        indexLoop (length r.2) r.2 (<[funcName := r.1]> m)
      else indexLoop (length rest) rest m
  | _ => indexLoop (length rest) rest m
  end.
Proof.
  cbn [length indexLoop]. destruct (entryTag entry); try done.
  cbn zeta. destruct (negb _ && _); [|done].
  apply indexLoop_fuel; [apply extract_rest_length|done].
Qed.

(** The children of a subprogram, up to the entry that closes them, give
    the names of their named formal parameters, in order. *)
Lemma extract_children (children rest : list Entry) (closing : Entry)
  (acc : list string) :
  Forall (λ e, entryTag e ≠ TagNull) children →
  entryTag closing = TagNull →
  extractParametersFromDWARF (children ++ closing :: rest) acc
  = (acc ++ formalParameterNames children, rest).
Proof.
  intros Hchildren Hclosing. revert acc.
  induction Hchildren as [|e children He _ IH]; intros acc.
  - cbn. rewrite Hclosing. by rewrite app_nil_r.
  - cbn [app extractParametersFromDWARF]. unfold formalParameterNames.
    cbn [omap list_omap]. fold (formalParameterNames children).
    destruct (entryTag e) eqn:Htag; [done| | |]; try apply IH.
    destruct (entryName e) as [n|]; [|apply IH].
    rewrite IH. by rewrite <- app_assoc.
Qed.

Lemma extract_names_from (reader : list Entry) (acc : list string) (n : string) :
  In n (extractParametersFromDWARF reader acc).1 →
  In n acc ∨ ∃ e, In e reader ∧ entryTag e = TagFormalParameter ∧
                  entryName e = Some n.
Proof.
  revert acc. induction reader as [|entry rest IH]; intros acc; [by left|].
  cbn [extractParametersFromDWARF].
  destruct (entryTag entry) eqn:Htag; [by left| | |].
  - intros [?|(e & ? & ?)]%IH; [by left|]. right. exists e. split; [by right|done].
  - destruct (entryName entry) as [name|] eqn:Hname.
    + intros [[?|[<-|[]]]%in_app_or|(e & ? & ?)]%IH; [by left| |].
      * right. exists entry. split; [by left|done].
      * right. exists e. split; [by right|done].
    + intros [?|(e & ? & ?)]%IH; [by left|]. right. exists e.
      split; [by right|done].
  - intros [?|(e & ? & ?)]%IH; [by left|]. right. exists e. split; [by right|done].
Qed.

Lemma extract_rest_from (reader : list Entry) (acc : list string) (e : Entry) :
  In e (extractParametersFromDWARF reader acc).2 → In e reader.
Proof.
  revert acc. induction reader as [|entry rest IH]; intros acc; [done|].
  cbn [extractParametersFromDWARF].
  destruct (entryTag entry); [by right| | |];
    try destruct (entryName entry); intros ?%IH; by right.
Qed.

Lemma indexLoop_provenance (fuel : nat) (reader : list Entry)
  (m : gmap string (list string)) (k : string) (names : list string) :
  indexLoop fuel reader m !! k = Some names →
  m !! k = Some names ∨
  ((∃ e, In e reader ∧ indexedSubprogram k e) ∧
   ∀ n, In n names →
        ∃ e, In e reader ∧ entryTag e = TagFormalParameter ∧
             entryName e = Some n).
Proof.
  revert reader m. induction fuel as [|fuel IH]; intros reader m; [by left|].
  destruct reader as [|entry rest]; [by left|]. cbn [indexLoop].
  assert (Hskip : indexLoop fuel rest m !! k = Some names →
                  m !! k = Some names ∨
                  ((∃ e, In e (entry :: rest) ∧ indexedSubprogram k e) ∧
                   ∀ n, In n names →
                        ∃ e, In e (entry :: rest) ∧
                             entryTag e = TagFormalParameter ∧
                             entryName e = Some n)).
  { intros [?|[(e & ? & ?) Hnames]]%IH; [by left|]. right. split.
    - exists e. split; [by right|done].
    - intros n (e' & ? & ?)%Hnames. exists e'. split; [by right|done]. }
  destruct (entryTag entry) eqn:Htag; try exact Hskip.
  destruct (negb _ && _) eqn:Hcond; [|exact Hskip].
  apply andb_prop in Hcond as [Hname Hchildren].
  apply negb_true_iff, String.eqb_neq in Hname.
  destruct (entryName entry) as [f|] eqn:Hf; [|done]. cbn in Hname. cbn zeta.
  cbn [default].
  intros [Hm|[(e & He & Hsub) Hnames]]%IH.
  - destruct (decide (f = k)) as [->|Hne].
    + rewrite lookup_insert_eq in Hm. injection Hm as <-. right. split.
      * exists entry. split; [by left|done].
      * intros n [[]|(e & ? & ?)]%extract_names_from.
        exists e. split; [by right|done].
    + rewrite lookup_insert_ne in Hm by done. by left.
  - right. split.
    + exists e. split; [right; by eapply extract_rest_from|done].
    + intros n (e' & He' & ?)%Hnames. exists e'.
      split; [right; by eapply extract_rest_from|done].
Qed.

End index_facts.

(** X1. [indexFunctions] reads the records in one pass: an entry that is not
    a subprogram with a non-empty name and children leaves the index as it
    is; a subprogram with a non-empty name whose children run up to a
    closing entry is indexed with the names of its named formal-parameter
    children, in order, and the pass goes on after the closing entry, a
    later subprogram of the same name replacing the earlier entry. *)
Theorem index_one_pass (dr : DWARFResolver) :
  functionMap (indexFunctions dr []) = functionMap dr ∧
  (∀ (entry : Entry) (rest : list Entry),
     (∀ name, ¬ indexedSubprogram name entry) →
     functionMap (indexFunctions dr (entry :: rest))
     = functionMap (indexFunctions dr rest)) ∧
  (∀ (name : string) (subprogram closing : Entry)
     (children rest : list Entry),
     indexedSubprogram name subprogram →
     Forall (λ e, entryTag e ≠ TagNull) children →
     entryTag closing = TagNull →
     functionMap (indexFunctions dr (subprogram :: children ++ closing :: rest))
     = functionMap
         (indexFunctions
            {| functionMap :=
                 <[name := formalParameterNames children]> (functionMap dr);
               executablePath := executablePath dr |} rest)).
Proof.
  split; [done|]. split.
  - intros entry rest Hnot. unfold indexFunctions. cbn [functionMap].
    rewrite indexLoop_step.
    destruct (entryTag entry) eqn:Htag; try done. cbn zeta.
    destruct (negb (String.eqb (default EmptyString (entryName entry))
                      EmptyString) && entryChildren entry) eqn:Hcond; [|done].
    exfalso. apply andb_prop in Hcond as [Hname Hchildren].
    apply negb_true_iff, String.eqb_neq in Hname.
    destruct (entryName entry) as [f|] eqn:Hf; [|done].
    by apply (Hnot f).
  - intros name subprogram closing children rest (Htag & Hname & Hne & Hch)
      Hchildren Hclosing.
    unfold indexFunctions. cbn [functionMap].
    rewrite indexLoop_step, Htag, Hname, Hch. cbn [default]. cbn zeta.
    unfold id. rewrite (proj2 (String.eqb_neq _ _) Hne). cbn [negb andb].
    by rewrite (extract_children _ _ _ _ Hchildren Hclosing).
Qed.

Lemma index_one_pass_witness :
  indexedSubprogram "main.greet"
    {| entryTag := TagSubprogram; entryName := Some "main.greet";
       entryChildren := true |} ∧
  functionMap (indexFunctions emptyResolver sampleEntries)
  = {[ "main.greet" := ["name"; "age"; "~r0"] ]}.
Proof.
  assert (Hsub : indexedSubprogram "main.greet"
                   {| entryTag := TagSubprogram; entryName := Some "main.greet";
                      entryChildren := true |}) by done.
  split; [exact Hsub|].
  etrans; [|reflexivity].
  refine (proj2 (proj2 (index_one_pass emptyResolver)) "main.greet" _
             {| entryTag := TagNull; entryName := None; entryChildren := false |}
             [ {| entryTag := TagFormalParameter; entryName := Some "name";
                  entryChildren := false |};
               {| entryTag := TagFormalParameter; entryName := Some "age";
                  entryChildren := false |};
               {| entryTag := TagFormalParameter; entryName := Some "~r0";
                  entryChildren := false |} ]
             [ {| entryTag := TagSubprogram; entryName := Some "main.leaf";
                  entryChildren := false |} ] Hsub _ eq_refl).
  by repeat constructor.
Defined.

(** X2. Whatever the record stream, a key of the built index that was not
    there before is the non-empty name of a subprogram entry with children,
    and its value holds only names of formal-parameter entries of the
    stream. *)
Theorem index_provenance (dr : DWARFResolver) (entries : list Entry)
  (key : string) (names : list string) :
  functionMap (indexFunctions dr entries) !! key = Some names →
  functionMap dr !! key = Some names ∨
  ((∃ e, In e entries ∧ indexedSubprogram key e) ∧
   ∀ n, In n names →
        ∃ e, In e entries ∧ entryTag e = TagFormalParameter ∧
             entryName e = Some n).
Proof. apply indexLoop_provenance. Qed.

Lemma index_provenance_witness :
  functionMap (indexFunctions emptyResolver sampleEntries) !! "main.greet"
  = Some ["name"; "age"; "~r0"] ∧
  ∃ e, In e sampleEntries ∧ indexedSubprogram "main.greet" e.
Proof.
  assert (Hkey : functionMap (indexFunctions emptyResolver sampleEntries)
                 !! "main.greet" = Some ["name"; "age"; "~r0"])
    by (vm_compute; reflexivity).
  split; [exact Hkey|].
  destruct (index_provenance _ _ _ _ Hkey) as [Hold|[Hsub _]];
    [discriminate Hold | exact Hsub].
Defined.

(* ===================================================================== *)
(** * The diagnostic resolver                                              *)
(* ===================================================================== *)

Section debug_facts.
Import strings.

(** The search for the end of the input parameters finds the first name
    with the return-value prefix, or falls back to the default. *)
Lemma inputEndFrom_scan (i : nat) (allParams : list string) (d : nat) :
  (Forall (λ p, HasPrefix p "~r" = false) allParams ∧
   inputEndFrom i allParams d = d) ∨
  (∃ k p, allParams !! k = Some p ∧ HasPrefix p "~r" = true ∧
          Forall (λ q, HasPrefix q "~r" = false) (take k allParams) ∧
          inputEndFrom i allParams d = i + k).
Proof.
  revert i. induction allParams as [|param rest IH]; intros i.
  - left. by split.
  - cbn [inputEndFrom]. destruct (HasPrefix param "~r") eqn:Hp.
    + right. exists 0, param. rewrite Nat.add_0_r. by repeat split.
    + destruct (IH (S i)) as [[Hall ->]|(k & p & Hk & Hpk & Hbefore & ->)].
      * left. split; [by constructor | done].
      * right. exists (S k), p. repeat split; [done..| |lia].
        cbn. by constructor.
Qed.

Lemma inputEndFrom_app (i : nat) (inputs slots : list string) (d : nat) :
  Forall (λ p, HasPrefix p "~r" = false) inputs →
  inputEndFrom i (inputs ++ slots) d = inputEndFrom (i + length inputs) slots d.
Proof.
  intros Hinputs. revert i.
  induction Hinputs as [|p inputs Hp _ IH]; intros i.
  - cbn. by rewrite Nat.add_0_r.
  - cbn [app inputEndFrom length]. rewrite Hp, IH. f_equal. lia.
Qed.

Lemma firstIndexed_In (index : gmap string (list string))
  (candidates : list string) :
  firstIndexed index candidates ≠ [] →
  ∃ c, In c candidates ∧ index !! c = Some (firstIndexed index candidates).
Proof.
  induction candidates as [|c rest IH]; [done|]. cbn [firstIndexed].
  destruct (index !! c) as [params|] eqn:Hc.
  - intros _. exists c. split; [by left|done].
  - intros (c' & ? & ?)%IH. exists c'. split; [by right|done].
Qed.

Lemma firstIndexed_none (index : gmap string (list string))
  (candidates : list string) :
  (∀ c, In c candidates → index !! c = None) →
  firstIndexed index candidates = [].
Proof.
  induction candidates as [|c rest IH]; [done|]. intros Hnone.
  cbn [firstIndexed]. rewrite (Hnone c (or_introl eq_refl)).
  apply IH. intros c' Hc'. apply Hnone. by right.
Qed.

Lemma firstIndexed_direct (index : gmap string (list string))
  (funcName : string) (params : list string) :
  index !! funcName = Some params →
  firstIndexed index (generateFunctionKeyCandidates funcName) = params.
Proof.
  intros Hkey. rewrite generateFunctionKeyCandidates_shape.
  cbn [app firstIndexed]. by rewrite Hkey.
Qed.

End debug_facts.

(** X3. When [DebugDWARFParameters] succeeds, the raw list it returns is the
    non-empty entry of a candidate key, and the input list is a non-empty
    prefix of it: either the whole raw list, or the names before the first
    one that bears the return-value prefix, none of which bears it. *)
Theorem debug_parameters_split (st : ResolverState) (funcName : string)
  (inputParams allParams : list string) :
  DebugDWARFParameters st funcName = DebugOk inputParams allParams →
  resolverInitErr st = None ∧
  (∃ candidate, In candidate (generateFunctionKeyCandidates funcName) ∧
                functionMap (globalResolver st) !! candidate = Some allParams) ∧
  inputParams ≠ [] ∧
  (inputParams = allParams ∨
   ∃ k p, inputParams = take k allParams ∧ allParams !! k = Some p ∧
          strings.HasPrefix p "~r" = true ∧
          Forall (λ q, strings.HasPrefix q "~r" = false) inputParams).
Proof.
  unfold DebugDWARFParameters. destruct (resolverInitErr st); [done|].
  set (all := firstIndexed _ _).
  destruct (length all =? 0) eqn:Hlen; [done|].
  apply Nat.eqb_neq in Hlen.
  assert (Hne : all ≠ []) by (by destruct all).
  intros Hok. split; [done|].
  assert (allParams = all) as ->.
  { destruct (0 <? _); by injection Hok. }
  split; [by apply firstIndexed_In|].
  destruct (inputEndFrom_scan 0 all (length all))
    as [[Hall Hend]|(k & p & Hk & Hp & Hbefore & Hend)]; rewrite Hend in Hok.
  - destruct (0 <? length all) eqn:Hpos; injection Hok as <-.
    + rewrite take_ge by lia. split; [done | by left].
    + split; [done | by left].
  - cbn [Nat.add] in Hok. destruct (0 <? k) eqn:Hpos; injection Hok as <-.
    + apply Nat.ltb_lt in Hpos. split.
      * destruct all; [done|]. by destruct k; [lia|].
      * right. by exists k, p.
    + split; [done | by left].
Qed.

Lemma debug_parameters_split_witness :
  DebugDWARFParameters sampleState "main.greet"
  = DebugOk ["name"; "age"] ["name"; "age"; "~r0"] ∧
  ["name"; "age"] ≠ [].
Proof.
  assert (Hok : DebugDWARFParameters sampleState "main.greet"
                = DebugOk ["name"; "age"] ["name"; "age"; "~r0"])
    by (vm_compute; reflexivity).
  split; [exact Hok|].
  exact (proj1 (proj2 (proj2 (debug_parameters_split _ _ _ _ Hok)))).
Defined.

(** X4. [DebugDWARFParameters] reports a function as not found when no
    candidate key is indexed, and also when the function is indexed with an
    empty parameter list: a function without parameters cannot be told from
    a missing one. *)
Theorem debug_parameters_not_found (st : ResolverState) (funcName : string) :
  resolverInitErr st = None →
  (∀ c, In c (generateFunctionKeyCandidates funcName) →
        functionMap (globalResolver st) !! c = None) ∨
  functionMap (globalResolver st) !! funcName = Some [] →
  DebugDWARFParameters st funcName = DebugNotFound funcName.
Proof.
  intros Hinit Hcases. unfold DebugDWARFParameters. rewrite Hinit.
  destruct Hcases as [Hnone|Hempty].
  - by rewrite firstIndexed_none.
  - by rewrite (firstIndexed_direct _ _ _ Hempty).
Qed.

Lemma debug_parameters_not_found_witness :
  resolverInitErr
    {| globalResolver := singleEntry "main.noargs" [];
       resolverInitErr := None |} = None ∧
  DebugDWARFParameters
    {| globalResolver := singleEntry "main.noargs" [];
       resolverInitErr := None |} "main.noargs"
  = DebugNotFound "main.noargs".
Proof.
  split; [reflexivity|].
  apply debug_parameters_not_found; [reflexivity|]. right. reflexivity.
Defined.

(** X5. The two resolvers agree on a well-shaped entry: when a function
    name is indexed with its input parameters followed by return slots,
    where there is at least one input parameter, no input parameter bears
    the return-value prefix and the first return slot, if any, does,
    [DebugDWARFParameters] gives the input parameters, and so does
    [discoverParameterNames] for their count. *)
Theorem resolvers_agree (st : ResolverState) (env : Env) (funcName : string)
  (inputs slots : list string) :
  resolverInitErr st = None →
  functionMap (globalResolver st) !! funcName = Some (inputs ++ slots) →
  inputs ≠ [] →
  Forall (λ p, strings.HasPrefix p "~r" = false) inputs →
  (∀ slot, slots !! 0 = Some slot → strings.HasPrefix slot "~r" = true) →
  DebugDWARFParameters st funcName = DebugOk inputs (inputs ++ slots) ∧
  discoverParameterNames (globalResolver st) env funcName (length inputs)
  = inl inputs.
Proof.
  intros Hinit Hkey Hne Hinputs Hslot. split.
  - unfold DebugDWARFParameters. rewrite Hinit.
    rewrite (firstIndexed_direct _ _ _ Hkey).
    assert (Hpos : 0 < length inputs) by (destruct inputs; [done|cbn; lia]).
    assert (Hlen : (length (inputs ++ slots) =? 0) = false).
    { apply Nat.eqb_neq. rewrite length_app. lia. }
    rewrite Hlen, inputEndFrom_app by done. cbn [Nat.add].
    assert (Hend : inputEndFrom (length inputs) slots (length (inputs ++ slots))
                   = length inputs).
    { destruct slots as [|slot slots'].
      - cbn. by rewrite app_nil_r.
      - cbn [inputEndFrom]. by rewrite (Hslot slot eq_refl). }
    rewrite Hend, (proj2 (Nat.ltb_lt _ _) Hpos).
    by rewrite take_app_length.
  - rewrite (discoverParameterNames_direct _ _ _ _ _ Hkey)
      by (rewrite length_app; lia).
    by rewrite take_app_length.
Qed.

Lemma resolvers_agree_witness :
  resolverInitErr sampleState = None ∧
  functionMap (globalResolver sampleState) !! "main.greet"
  = Some (["name"; "age"] ++ ["~r0"]) ∧
  DebugDWARFParameters sampleState "main.greet"
  = DebugOk ["name"; "age"] (["name"; "age"] ++ ["~r0"]) ∧
  discoverParameterNames (globalResolver sampleState) sampleEnv "main.greet"
    (length ["name"; "age"]) = inl ["name"; "age"].
Proof.
  split; [reflexivity|]. split; [vm_compute; reflexivity|].
  apply (resolvers_agree sampleState sampleEnv "main.greet"
           ["name"; "age"] ["~r0"]);
    [reflexivity | vm_compute; reflexivity | done | by repeat constructor |].
  by intros slot [= <-].
Defined.

(* ===================================================================== *)
(** * The executable and its format                                        *)
(* ===================================================================== *)

Lemma GetExecutableInfo_cases (env : Env) :
  (∃ format path, GetExecutableInfo env = (format, path, None) ∧
                  format ≠ FormatUnknown ∧ executable env = Some path ∧
                  DetectExecutableFormat env path = (format, None)) ∨
  (∃ path e, GetExecutableInfo env = (FormatUnknown, path, Some e) ∧
             (executable env = None ∧ path = EmptyString ∧ e = ErrExecutable ∨
              executable env = Some path ∧
              DetectExecutableFormat env path = (FormatUnknown, Some e))).
Proof.
  unfold GetExecutableInfo. destruct (executable env) as [path|].
  - destruct (detect_outcomes env path) as [H|[H|[H|[e H]]]]; rewrite H.
    + left. by exists FormatELF, path.
    + left. by exists FormatPE, path.
    + left. by exists FormatMachO, path.
    + right. exists path, e. split; [done|]. by right.
  - right. exists EmptyString, ErrExecutable. split; [done|]. by left.
Qed.

(** X6. [GetExecutableInfo] returns a known format exactly when it returns
    no error; with an error the format is Unknown, and the path of the
    executable is still returned when only the detection failed. *)
Theorem executable_info (env : Env) :
  ((GetExecutableInfo env).2 = None ↔
   (GetExecutableInfo env).1.1 ≠ FormatUnknown) ∧
  (∀ path, executable env = Some path →
           (GetExecutableInfo env).1.2 = path ∧
           (GetExecutableInfo env).2 = (DetectExecutableFormat env path).2) ∧
  (executable env = None →
   GetExecutableInfo env = (FormatUnknown, EmptyString, Some ErrExecutable)).
Proof.
  destruct (GetExecutableInfo_cases env)
    as [(format & path & Hr & Hne & Hexe & Hdet)
       |(path & e & Hr & [(Hexe & -> & ->)|[Hexe Hdet]])];
    rewrite Hr; cbn [fst snd].
  - split; [done|]. split; [|congruence].
    intros p Hp. rewrite Hexe in Hp. injection Hp as <-. by rewrite Hdet.
  - split; [split; done|]. split; [congruence|done].
  - split; [split; done|]. split; [|congruence].
    intros p Hp. rewrite Hexe in Hp. injection Hp as <-. by rewrite Hdet.
Qed.

Lemma executable_info_witness :
  executable sampleEnv = Some "/bin/app" ∧
  (GetExecutableInfo sampleEnv).1.2 = "/bin/app" ∧
  (GetExecutableInfo sampleEnv).2
  = (DetectExecutableFormat sampleEnv "/bin/app").2.
Proof.
  split; [reflexivity|].
  apply (proj1 (proj2 (executable_info sampleEnv))). reflexivity.
Defined.

(** X7. [IsDWARFSupported] passes on the error of [GetExecutableInfo] with
    a false flag and an empty reason, and without an error the flag is
    always true, whatever the operating system: the answer false is never
    given without an error. *)
Theorem dwarf_supported_or_error (env : Env) (GOOS : string) :
  (IsDWARFSupported env GOOS).2 = (GetExecutableInfo env).2 ∧
  match (IsDWARFSupported env GOOS).2 with
  | Some _ => (IsDWARFSupported env GOOS).1 = (false, EmptyString)
  | None => (IsDWARFSupported env GOOS).1.1 = true
  end.
Proof.
  unfold IsDWARFSupported.
  destruct (GetExecutableInfo_cases env)
    as [(format & path & Hr & Hne & _)|(path & e & Hr & _)]; rewrite Hr.
  - by destruct format.
  - done.
Qed.

(* ===================================================================== *)
(** * Package path and base name                                           *)
(* ===================================================================== *)

Module naming_facts.
Import strings strings_facts.

#[local] Arguments String.append !_ _ / : simpl nomatch.

Lemma firstOccurrence_byte_None (d : ascii) (s : string) :
  Contains s (String d EmptyString) = false →
  firstOccurrence s (String d EmptyString) = None.
Proof.
  induction s as [|c s IH]; [done|].
  rewrite Contains_byte_cons. intros [Hc Hs]%orb_false_elim.
  cbn [firstOccurrence]. rewrite HasPrefix_byte, Hc. by rewrite (IH Hs).
Qed.

Lemma firstOccurrence_byte_split (d : ascii) (pre rest : string) :
  Contains pre (String d EmptyString) = false →
  firstOccurrence (pre +:+ String d rest) (String d EmptyString)
  = Some (String.length pre).
Proof.
  induction pre as [|c pre IH]; simpl String.append.
  - intros _. cbn [firstOccurrence].
    by rewrite HasPrefix_byte, bool_decide_eq_true_2.
  - rewrite Contains_byte_cons. intros [Hc Hs]%orb_false_elim.
    cbn [firstOccurrence]. rewrite HasPrefix_byte, Hc. by rewrite (IH Hs).
Qed.

(** The first piece of a split is what precedes the first separator. *)
Lemma splitLoop_byte_head (d : ascii) (cur pre rest : string) :
  Contains pre (String d EmptyString) = false →
  splitLoop (String d EmptyString) 0 cur (pre +:+ String d rest)
  = (cur +:+ pre) :: splitLoop (String d EmptyString) 0 EmptyString rest.
Proof.
  revert cur. induction pre as [|c pre IH]; intros cur; simpl String.append.
  - intros _. cbn [splitLoop]. rewrite HasPrefix_byte, bool_decide_eq_true_2
      by done. by rewrite append_empty_r.
  - rewrite Contains_byte_cons. intros [Hc Hs]%orb_false_elim.
    cbn [splitLoop]. rewrite HasPrefix_byte, Hc.
    rewrite (IH _ Hs), append_assoc. reflexivity.
Qed.

Lemma Z_of_length_snoc (a : string) (c : ascii) :
  (Z.of_nat (String.length a) + 1)%Z
  = Z.of_nat (String.length (a +:+ String c EmptyString)).
Proof. rewrite length_append. simpl. lia. Qed.

Lemma inCutset_parens (c : ascii) :
  inCutset "()" c = bool_decide ("("%char = c) || bool_decide (")"%char = c).
Proof.
  unfold inCutset. cbn [String.list_ascii_of_string existsb].
  rewrite orb_false_r. f_equal.
  - destruct (Ascii.eqb_spec c "("); [by rewrite bool_decide_eq_true_2
                                     | by rewrite bool_decide_eq_false_2].
  - destruct (Ascii.eqb_spec c ")"); [by rewrite bool_decide_eq_true_2
                                     | by rewrite bool_decide_eq_false_2].
Qed.

(** Trimming parentheses changes nothing in a string that has none. *)
Lemma Trim_no_parens (s : string) :
  Contains s "(" = false → Contains s ")" = false → Trim s "()" = s.
Proof.
  intros Hopen Hclose. unfold Trim.
  assert (Hleft : TrimLeft s "()" = s).
  { destruct s as [|c s]; [done|]. cbn [TrimLeft].
    rewrite Contains_byte_cons in Hopen, Hclose.
    apply orb_false_elim in Hopen as [Ho _].
    apply orb_false_elim in Hclose as [Hc _].
    by rewrite inCutset_parens, Ho, Hc. }
  rewrite Hleft. clear Hleft.
  induction s as [|c s IH]; [done|].
  rewrite Contains_byte_cons in Hopen, Hclose.
  apply orb_false_elim in Hopen as [Ho Hopen].
  apply orb_false_elim in Hclose as [Hc Hclose].
  cbn [TrimRight]. rewrite (IH Hopen Hclose), inCutset_parens, Ho, Hc.
  by destruct s.
Qed.

End naming_facts.

(** X8. [extractPackagePath] returns the text before the first dot that
    follows the last path separator: for a name without separator,
    "pkg.rest" gives "pkg"; for "dir/pkg.rest" it gives "dir/pkg". Without
    any dot after the last separator it falls back to "main" when there is
    no separator and to the whole name otherwise. *)
Theorem package_path_extracted :
  (∀ pkg rest : string,
     strings.Contains pkg "/" = false → strings.Contains rest "/" = false →
     strings.Contains pkg "." = false →
     extractPackagePath (pkg +:+ "." +:+ rest) = pkg) ∧
  (∀ dir pkg rest : string,
     strings.Contains pkg "/" = false → strings.Contains rest "/" = false →
     strings.Contains pkg "." = false →
     extractPackagePath (dir +:+ "/" +:+ pkg +:+ "." +:+ rest)
     = dir +:+ "/" +:+ pkg) ∧
  (∀ name : string,
     strings.Contains name "/" = false → strings.Contains name "." = false →
     extractPackagePath name = "main") ∧
  (∀ dir last : string,
     strings.Contains last "/" = false → strings.Contains last "." = false →
     extractPackagePath (dir +:+ "/" +:+ last) = dir +:+ "/" +:+ last).
Proof.
  split; [|split; [|split]].
  - intros pkg rest Hpkg Hrest Hdot. unfold extractPackagePath, strings.LastIndex.
    rewrite strings_facts.lastOccurrence_byte_None.
    2: { rewrite !strings_facts.Contains_byte_app, Hpkg, Hrest. reflexivity. }
    cbn [Z.eqb]. unfold strings.Split.
    change ("." +:+ rest) with (String "." rest).
    rewrite naming_facts.splitLoop_byte_head by done.
    pose proof (strings_facts.splitLoop_nonempty "." 0 EmptyString rest).
    destruct (strings.splitLoop "." 0 EmptyString rest); [done|]. reflexivity.
  - intros dir pkg rest Hpkg Hrest Hdot.
    unfold extractPackagePath, strings.LastIndex.
    assert (Hsuf : strings.Contains (pkg +:+ "." +:+ rest) "/" = false).
    { rewrite !strings_facts.Contains_byte_app, Hpkg, Hrest. reflexivity. }
    change ("/" +:+ pkg +:+ "." +:+ rest) with (String "/" (pkg +:+ "." +:+ rest)).
    rewrite strings_facts.lastOccurrence_byte_split by done.
    assert (Hz : (Z.of_nat (String.length dir) =? -1)%Z = false)
      by (apply Z.eqb_neq; lia).
    rewrite Hz. rewrite naming_facts.Z_of_length_snoc with (c := "/"%char).
    change (String "/" (pkg +:+ "." +:+ rest))
      with ("/" +:+ (pkg +:+ "." +:+ rest)).
    rewrite <- (strings_facts.append_assoc dir "/" (pkg +:+ "." +:+ rest)).
    rewrite strings_facts.sliceFrom_app. unfold strings.Index.
    change ("." +:+ rest) with (String "." rest).
    rewrite naming_facts.firstOccurrence_byte_split by done.
    assert (Hz' : (Z.of_nat (String.length pkg) =? -1)%Z = false)
      by (apply Z.eqb_neq; lia).
    rewrite Hz'.
    replace (Z.of_nat (String.length (dir +:+ "/")) + Z.of_nat (String.length pkg))%Z
      with (Z.of_nat (String.length ((dir +:+ "/") +:+ pkg)))
      by (rewrite (strings_facts.length_append (dir +:+ "/") pkg); lia).
    rewrite <- (strings_facts.append_assoc (dir +:+ "/") pkg (String "." rest)).
    rewrite strings_facts.sliceTo_app.
    by rewrite strings_facts.append_assoc.
  - intros name Hslash Hdot. unfold extractPackagePath, strings.LastIndex.
    rewrite strings_facts.lastOccurrence_byte_None by done. cbn [Z.eqb].
    unfold strings.Split.
    by rewrite strings_facts.splitLoop_byte_absent.
  - intros dir last Hslash Hdot.
    unfold extractPackagePath, strings.LastIndex.
    change ("/" +:+ last) with (String "/" last).
    rewrite strings_facts.lastOccurrence_byte_split by done.
    assert (Hz : (Z.of_nat (String.length dir) =? -1)%Z = false)
      by (apply Z.eqb_neq; lia).
    rewrite Hz. rewrite naming_facts.Z_of_length_snoc with (c := "/"%char).
    change (String "/" last) with ("/" +:+ last).
    rewrite <- (strings_facts.append_assoc dir "/" last).
    rewrite strings_facts.sliceFrom_app. unfold strings.Index.
    by rewrite naming_facts.firstOccurrence_byte_None.
Qed.

Lemma package_path_extracted_witness :
  strings.Contains "pkg" "/" = false ∧
  strings.Contains "(*Type).Method" "/" = false ∧
  strings.Contains "pkg" "." = false ∧
  extractPackagePath
    ("github.com/user/repo" +:+ "/" +:+ "pkg" +:+ "." +:+ "(*Type).Method")
  = "github.com/user/repo" +:+ "/" +:+ "pkg".
Proof.
  split; [reflexivity|]. split; [reflexivity|]. split; [reflexivity|].
  by apply (proj1 (proj2 package_path_extracted)).
Defined.

(** X9. [GetBaseFunctionName] returns the text after the last dot of the
    function name with leading and trailing parentheses trimmed: for a name
    "prefix.base" whose base has neither a dot nor a parenthesis it is the
    base, and a name without any dot is returned trimmed. *)
Theorem base_name_extracted (t : Function) :
  (∀ pre base : string,
     funcName t = pre +:+ "." +:+ base →
     strings.Contains base "." = false →
     GetBaseFunctionName t = Trim base "()" ∧
     (strings.Contains base "(" = false → strings.Contains base ")" = false →
      GetBaseFunctionName t = base)) ∧
  (strings.Contains (funcName t) "." = false →
   GetBaseFunctionName t = Trim (funcName t) "()").
Proof.
  split.
  - intros pre base Hname Hdot.
    assert (Hbase : GetBaseFunctionName t = Trim base "()").
    { unfold GetBaseFunctionName, strings.Split. rewrite Hname.
      change ("." +:+ base) with (String "." base).
      rewrite strings_facts.splitLoop_byte_last by done.
      pose proof (strings_facts.splitLoop_nonempty "." 0 EmptyString
                    (pre +:+ String "." base)).
      by destruct (strings.splitLoop _ _ _ _). }
    split; [done|]. intros Hopen Hclose.
    by rewrite Hbase, naming_facts.Trim_no_parens.
  - intros Hdot. unfold GetBaseFunctionName, strings.Split.
    by rewrite strings_facts.splitLoop_byte_absent.
Qed.

Lemma base_name_extracted_witness :
  funcName greet = "main" +:+ "." +:+ "greet" ∧
  strings.Contains "greet" "." = false ∧
  GetBaseFunctionName greet = "greet".
Proof.
  split; [reflexivity|]. split; [reflexivity|].
  destruct (proj1 (base_name_extracted greet) "main" "greet" eq_refl eq_refl)
    as [_ Hbase].
  by apply Hbase.
Defined.

(* ===================================================================== *)
(** * Construction of a descriptor                                         *)
(* ===================================================================== *)

Section construction_facts.

Context {rt : GoRuntime}.

Lemma createStructFields_types (paramTypes : list rtype) (i : nat)
  (names : list string) (fields : list StructField) :
  createStructFields paramTypes i names = Ok fields →
  fieldType <$> fields = take (length names) (drop i paramTypes).
Proof.
  revert i fields. induction names as [|name rest IH]; intros i fields.
  - by intros [= <-].
  - cbn [createStructFields obind].
    destruct (paramTypes !! i) as [pt|] eqn:Hpt; [|done]. cbn [orPanic obind].
    destruct (createStructFields paramTypes (S i) rest) as [fs| |] eqn:Hfs;
      [|done..].
    cbn [obind]. intros [= <-]. rewrite (drop_S _ _ _ Hpt). cbn.
    f_equal. by apply IH.
Qed.

(** Every field of the struct type of a descriptor has a tag. *)
Lemma createStructFields_tagged (paramTypes : list rtype) (i : nat)
  (names : list string) (fields : list StructField) :
  createStructFields paramTypes i names = Ok fields →
  Forall (λ f, fieldTag f ≠ EmptyString) fields.
Proof.
  revert i fields. induction names as [|name rest IH]; intros i fields.
  - intros [= <-]. constructor.
  - cbn [createStructFields obind].
    destruct (paramTypes !! i) as [pt|] eqn:Hpt; [|done]. cbn [orPanic obind].
    destruct (createStructFields paramTypes (S i) rest) as [fs| |] eqn:Hfs;
      [|done..].
    cbn [obind]. intros [= <-]. constructor; [done | by eapply IH].
Qed.

Lemma structFieldsFromParams_untagged (paramTypes : list rtype) (i : nat)
  (names : list string) (fields : list StructField) :
  structFieldsFromParams {| FieldNamer := None; TagBuilder := None |}
    paramTypes i names = Ok fields →
  Forall (λ f, fieldTag f = EmptyString) fields.
Proof.
  revert i fields. induction names as [|name rest IH]; intros i fields.
  - intros [= <-]. constructor.
  - cbn [structFieldsFromParams obind].
    destruct (paramTypes !! i) as [pt|] eqn:Hpt; [|done]. cbn [orPanic obind].
    destruct (structFieldsFromParams _ paramTypes (S i) rest)
      as [fs| |] eqn:Hfs; [|done..].
    cbn [obind]. intros [= <-]. constructor; [done | by eapply IH].
Qed.

(** With the default options the fields have the names and the types that
    [createStructType] gives them. *)
Lemma structFieldsFromParams_default (paramTypes : list rtype) (i : nat)
  (names : list string) (fields : list StructField) :
  createStructFields paramTypes i names = Ok fields →
  ∃ fields',
    structFieldsFromParams {| FieldNamer := None; TagBuilder := None |}
      paramTypes i names = Ok fields' ∧
    Forall2 sameNameAndType fields fields'.
Proof.
  revert i fields. induction names as [|name rest IH]; intros i fields.
  - intros [= <-]. exists []. by split.
  - cbn [createStructFields structFieldsFromParams obind].
    destruct (paramTypes !! i) as [pt|] eqn:Hpt; [|done]. cbn [orPanic obind].
    destruct (createStructFields paramTypes (S i) rest) as [fs| |] eqn:Hfs;
      [|done..].
    cbn [obind]. intros [= <-].
    destruct (IH _ _ Hfs) as (fs' & -> & Hall). cbn [obind].
    eexists. split; [done|]. by constructor.
Qed.

(** Whether [reflect.StructOf] accepts a list of fields depends on their
    names only. *)
Lemma structOfLoop_names (fset : gset string) (fields1 fields2 : list StructField) :
  Forall2 sameNameAndType fields1 fields2 →
  structOfLoop fset fields1 = structOfLoop fset fields2.
Proof.
  intros Hall. revert fset.
  induction Hall as [|a b rest1 rest2 [Hname _] _ IH]; intros fset; [done|].
  cbn [structOfLoop]. rewrite Hname.
  repeat match goal with |- context [if ?c then _ else _] => destruct c end;
    first [done | apply IH].
Qed.

(** What a descriptor returned by [NewFunction] is made of. *)
Lemma NewFunction_Ok (st : ResolverState) (env : Env) (fn : candidateFn)
  (t : Function) :
  NewFunction st env fn = Ok t →
  ∃ ins outs variadic fields,
    fn = IsFunc (funcName t) ins outs variadic (function t) ∧
    resolverInitErr st = None ∧
    paramTypes t = ins ∧
    functionType t
    = {| inTypes := ins; outTypes := outs; IsVariadic := variadic |} ∧
    packagePath t = extractPackagePath (funcName t) ∧
    discoverParameterNames (globalResolver st) env (funcName t) (length ins)
    = inl (paramNames t) ∧
    createStructFields ins 0 (paramNames t) = Ok fields ∧
    StructOf fields = Some (structType t).
Proof.
  unfold NewFunction. destruct (resolverInitErr st); [done|].
  destruct fn as [name ins outs variadic body|v]; [|by destruct v].
  destruct (discoverParameterNames _ _ _ _) as [names|err] eqn:Hnames; [|done].
  unfold createStructType.
  destruct (createStructFields ins 0 names) as [fields| |] eqn:Hfields;
    [|done..].
  cbn [obind]. destruct (StructOf fields) as [sty|] eqn:Hsty; [|done].
  cbn [orPanic]. intros [= <-]. cbn. by exists ins, outs, variadic, fields.
Qed.

(** The function type of a descriptor has the parameter types of the
    descriptor. *)
Lemma NewFunction_inTypes (st : ResolverState) (env : Env) (fn : candidateFn)
  (t : Function) :
  NewFunction st env fn = Ok t → inTypes (functionType t) = paramTypes t.
Proof.
  intros Hnew.
  destruct (NewFunction_Ok _ _ _ _ Hnew)
    as (ins & outs & variadic & fields & _ & _ & -> & -> & _).
  done.
Qed.

(** The fields that [createStructType] makes are exported ones. *)
Lemma createStructFields_exported (paramTypes : list rtype) (i : nat)
  (names : list string) (fields : list StructField) :
  createStructFields paramTypes i names = Ok fields →
  forallb IsExported fields = true.
Proof.
  revert i fields. induction names as [|name rest IH]; intros i fields.
  - by intros [= <-].
  - cbn [createStructFields obind].
    destruct (paramTypes !! i) as [pt|] eqn:Hpt; [|done]. cbn [orPanic obind].
    destruct (createStructFields paramTypes (S i) rest) as [fs| |] eqn:Hfs;
      [|done..].
    cbn [obind]. intros [= <-]. cbn. by eapply IH.
Qed.

(** The struct type of a descriptor: one field per parameter, named by the
    capitalised parameter name and typed by the parameter type. *)
Lemma NewFunction_structType (st : ResolverState) (env : Env)
  (fn : candidateFn) (t : Function) :
  NewFunction st env fn = Ok t →
  ∃ fields,
    structType t = TStruct fields ∧
    createStructFields (paramTypes t) 0 (paramNames t) = Ok fields ∧
    fieldName <$> fields = capitalizeFirst <$> paramNames t ∧
    fieldType <$> fields = paramTypes t ∧
    NoDup (fieldName <$> fields).
Proof.
  intros Hnew. pose proof (NewFunction_wellFormed _ _ _ _ Hnew) as [Hlen _].
  destruct (NewFunction_Ok _ _ _ _ Hnew)
    as (ins & outs & variadic & fields & _ & _ & <- & _ & _ & _ & Hfields
        & Hsty).
  apply StructOf_NoDup in Hsty as [Hsty Hnd].
  exists fields. split; [done|]. split; [done|].
  split; [by eapply createStructFields_names|]. split; [|done].
  rewrite (createStructFields_types _ _ _ _ Hfields), drop_0.
  apply take_ge. lia.
Qed.

End construction_facts.

(** X10. [NewFunction] returns the cached initialisation error for whatever
    it is given; it refuses a value that is not a function; it passes on
    the error of the name resolution; and a descriptor it returns has the
    signature's parameter types, exactly as many names as types, namely the
    first names of the indexed entry of a candidate key, the package path
    extracted from the runtime name, and a struct type with one field per
    parameter, named by the capitalised parameter name and typed by the
    parameter type. *)
Theorem descriptor_constructed {rt : GoRuntime} (st : ResolverState)
  (env : Env) :
  (∀ e fn, resolverInitErr st = Some e → NewFunction st env fn = Err e) ∧
  (∀ v, resolverInitErr st = None → v ≠ VNil →
        NewFunction st env (NotFunc v) = Err ErrNotAFunction) ∧
  (∀ name ins outs variadic body e,
     resolverInitErr st = None →
     discoverParameterNames (globalResolver st) env name (length ins) = inr e →
     NewFunction st env (IsFunc name ins outs variadic body) = Err e) ∧
  (∀ fn t,
     NewFunction st env fn = Ok t →
     ∃ ins outs variadic candidate allParams fields,
       fn = IsFunc (funcName t) ins outs variadic (function t) ∧
       paramTypes t = ins ∧
       length (paramNames t) = length ins ∧
       In candidate (generateFunctionKeyCandidates (funcName t)) ∧
       functionMap (globalResolver st) !! candidate = Some allParams ∧
       paramNames t = take (length ins) allParams ∧
       packagePath t = extractPackagePath (funcName t) ∧
       structType t = TStruct fields ∧
       fieldName <$> fields = capitalizeFirst <$> paramNames t ∧
       fieldType <$> fields = ins).
Proof.
  split; [|split; [|split]].
  - intros e fn Hinit. unfold NewFunction. by rewrite Hinit.
  - intros v Hinit Hv. unfold NewFunction. rewrite Hinit. by destruct v.
  - intros name ins outs variadic body e Hinit Hres. unfold NewFunction.
    by rewrite Hinit, Hres.
  - intros fn t Hnew.
    destruct (NewFunction_Ok _ _ _ _ Hnew)
      as (ins & outs & variadic & fields0 & Hfn & _ & Hpt & _ & Hpkg & Hnames
          & _ & _).
    destruct (NewFunction_structType _ _ _ _ Hnew)
      as (fields & Hsty & _ & Hfn' & Hft & _).
    pose proof (NewFunction_wellFormed _ _ _ _ Hnew) as [Hlen _].
    apply discoverParameterNames_inl, plainTake_Some in Hnames
      as (c & allParams & Hin & Hkey & _ & Htake).
    exists ins, outs, variadic, c, allParams, fields. rewrite <- Hpt.
    rewrite Hpt at 1. split; [done|]. split; [done|].
    split; [done|]. split; [done|]. split; [done|].
    split; [by rewrite Hpt|]. by repeat split.
Qed.

Lemma descriptor_constructed_witness :
  NewFunction (rt := sampleRuntime) sampleState sampleEnv
    (IsFunc "main.greet" [TBasic "string"; TBasic "int"] [TBasic "string"]
       false echo)
  = Ok greet ∧
  ∃ ins outs variadic candidate allParams fields,
    IsFunc "main.greet" [TBasic "string"; TBasic "int"] [TBasic "string"]
      false echo
    = IsFunc (funcName greet) ins outs variadic (function greet) ∧
    paramTypes greet = ins ∧
    length (paramNames greet) = length ins ∧
    In candidate (generateFunctionKeyCandidates (funcName greet)) ∧
    functionMap (globalResolver sampleState) !! candidate = Some allParams ∧
    paramNames greet = take (length ins) allParams ∧
    packagePath greet = extractPackagePath (funcName greet) ∧
    structType greet = TStruct fields ∧
    fieldName <$> fields
    = capitalizeFirst (rt := sampleRuntime) <$> paramNames greet ∧
    fieldType <$> fields = ins.
Proof.
  split; [exact greet_constructed|].
  exact (proj2 (proj2 (proj2 (descriptor_constructed (rt := sampleRuntime)
                                 sampleState sampleEnv)))
           _ _ greet_constructed).
Defined.

(* ===================================================================== *)
(** * Non-context parameters and compatibility as a relation               *)
(* ===================================================================== *)

Section partition_facts.

Context {rt : GoRuntime}.

Lemma nonContextFrom_Ok (names : list string) (i : nat) (pts : list rtype) :
  i + length pts ≤ length names →
  ∃ ns ts,
    nonContextFrom names i pts = Ok (ns, ts) ∧
    length ns = length ts ∧
    length ns = length (nonContextPositionsFrom i pts) ∧
    Forall (λ ty, ty ≠ contextType) ts ∧
    ∀ j p, nonContextPositionsFrom i pts !! j = Some p →
           ns !! j = names !! p ∧ ts !! j = pts !! (p - i).
Proof.
  revert i. induction pts as [|pt rest IH]; intros i Hlen.
  - exists [], []. by repeat split.
  - cbn [length] in Hlen.
    destruct (IH (S i)) as (ns & ts & Hrec & Hl1 & Hl2 & Hne & Hpos); [lia|].
    cbn [nonContextFrom nonContextPositionsFrom].
    destruct (rtype_eqb pt contextType) eqn:Hpt; cbn [negb].
    + exists ns, ts. split; [done|]. split; [done|]. split; [done|].
      split; [done|].
      intros j p Hj. destruct (Hpos j p Hj) as [Hn Ht]. split; [done|].
      assert (Hin : In p (nonContextPositionsFrom (S i) rest))
        by (apply list_elem_of_In; by eapply list_elem_of_lookup_2).
      apply In_nonContextPositionsFrom in Hin as (k & ? & -> & _).
      rewrite Ht. replace (S i + k - S i) with k by lia.
      by replace (S i + k - i) with (S k) by lia.
    + apply rtype_eqb_neq in Hpt.
      destruct (lookup_lt_is_Some_2 names i) as [name Hname]; [lia|].
      rewrite Hname, Hrec. cbn [orPanic obind fst snd].
      exists (name :: ns), (pt :: ts). split; [done|].
      split; [cbn [length]; lia|]. split; [cbn [length]; lia|].
      split; [by constructor|].
      intros [|j] p Hj.
      * injection Hj as <-. rewrite Nat.sub_diag. done.
      * cbn in Hj. destruct (Hpos j p Hj) as [Hn Ht]. split; [done|].
        assert (Hin : In p (nonContextPositionsFrom (S i) rest))
          by (apply list_elem_of_In; by eapply list_elem_of_lookup_2).
        apply In_nonContextPositionsFrom in Hin as (k & ? & -> & _).
        replace (S i + k - i) with (S k) by lia.
        replace (S i + k - S i) with k in Ht by lia.
        exact Ht.
Qed.

Lemma sameNameAndType_sym (a b : StructField) :
  sameNameAndType a b → sameNameAndType b a.
Proof. intros [Hn Ht]. by split. Qed.

Lemma sameNameAndType_trans (a b c : StructField) :
  sameNameAndType a b → sameNameAndType b c → sameNameAndType a c.
Proof. intros [Hn Ht] [Hn' Ht']. split; congruence. Qed.

End partition_facts.

(** X11. On a well-formed descriptor [GetNonContextParameters] does not
    panic; it returns as many names as types, none of the types the context
    type; together with the context positions they account for every
    parameter; and the [j]-th name and type are those of the [j]-th
    parameter position that is not a context position. *)
Theorem non_context_parameters {rt : GoRuntime} (t : Function) :
  wellFormed t →
  ∃ names types,
    GetNonContextParameters t = Ok (names, types) ∧
    length names = length types ∧
    length names + length (GetContextPositions t) = length (paramTypes t) ∧
    Forall (λ ty, ty ≠ contextType) types ∧
    ∀ j p, nonContextPositionsFrom 0 (paramTypes t) !! j = Some p →
           names !! j = paramNames t !! p ∧ types !! j = paramTypes t !! p.
Proof.
  intros [Hlen _].
  destruct (nonContextFrom_Ok (paramNames t) 0 (paramTypes t))
    as (ns & ts & Hok & Hl1 & Hl2 & Hne & Hpos); [cbn; lia|].
  exists ns, ts. split; [done|]. split; [done|]. split.
  - pose proof (positions_count 0 (paramTypes t)).
    unfold GetContextPositions. lia.
  - split; [done|]. intros j p Hj. destruct (Hpos j p Hj) as [Hn Ht].
    by rewrite Nat.sub_0_r in Ht.
Qed.

Lemma non_context_parameters_witness :
  wellFormed relay ∧
  ∃ names types,
    GetNonContextParameters relay = Ok (names, types) ∧
    length names = length types ∧
    length names + length (GetContextPositions relay)
    = length (paramTypes relay) ∧
    Forall (λ ty, ty ≠ contextType) types ∧
    ∀ j p, nonContextPositionsFrom 0 (paramTypes relay) !! j = Some p →
           names !! j = paramNames relay !! p ∧
           types !! j = paramTypes relay !! p.
Proof.
  assert (Hwf : wellFormed relay).
  { split; [reflexivity|]. apply (bool_decide_unpack _). by vm_compute. }
  split; [exact Hwf|].
  exact (non_context_parameters (rt := sampleRuntime) relay Hwf).
Defined.

(** X12. Structural compatibility is an equivalence on the types of kind
    struct: every such type is compatible with itself, the test is
    symmetric, and it is transitive; a type that is not of kind struct is
    compatible with nothing. *)
Theorem compatibility_equivalence :
  (∀ t, is_Some (structFields t) → structTypesCompatible t t = true) ∧
  (∀ t1 t2, structTypesCompatible t1 t2 = structTypesCompatible t2 t1) ∧
  (∀ t1 t2 t3, structTypesCompatible t1 t2 = true →
               structTypesCompatible t2 t3 = true →
               structTypesCompatible t1 t3 = true) ∧
  (∀ t1 t2, structFields t1 = None → structTypesCompatible t1 t2 = false).
Proof.
  assert (Hsym : ∀ t1 t2, structTypesCompatible t1 t2 = true →
                          structTypesCompatible t2 t1 = true).
  { intros t1 t2 (f1 & f2 & H1 & H2 & Hall)%structTypesCompatible_Forall2.
    apply structTypesCompatible_Forall2. exists f2, f1.
    split; [done|]. split; [done|]. apply Forall2_flip.
    eapply Forall2_impl; [exact Hall|]. apply sameNameAndType_sym. }
  split; [|split; [|split]].
  - intros t [fields Hf]. apply structTypesCompatible_Forall2.
    exists fields, fields. split; [done|]. split; [done|].
    apply Forall_Forall2_diag, Forall_forall. by intros f _.
  - intros t1 t2.
    destruct (structTypesCompatible t1 t2) eqn:H12.
    + symmetry. by apply Hsym.
    + destruct (structTypesCompatible t2 t1) eqn:H21; [|done].
      apply Hsym in H21. congruence.
  - intros t1 t2 t3 (f1 & f2 & H1 & H2 & Hall)%structTypesCompatible_Forall2
      (f2' & f3 & H2' & H3 & Hall')%structTypesCompatible_Forall2.
    rewrite H2 in H2'. injection H2' as <-.
    apply structTypesCompatible_Forall2. exists f1, f3.
    split; [done|]. split; [done|].
    clear H1 H2 H3. revert f3 Hall'.
    induction Hall as [|a b r1 r2 Hab _ IH]; intros f3 Hall'.
    + inversion Hall'. constructor.
    + inversion Hall' as [|? c ? r3 Hbc Hrest]; subst.
      constructor; [by eapply sameNameAndType_trans|].
      by apply IH.
  - intros t1 t2 Hnone. unfold structTypesCompatible. by rewrite Hnone.
Qed.

Lemma compatibility_equivalence_witness :
  is_Some (structFields queryType) ∧
  structTypesCompatible queryType queryType = true.
Proof.
  split; [by eexists|].
  apply (proj1 compatibility_equivalence). by eexists.
Defined.

(* ===================================================================== *)
(** * Invocation through reflect Values and through the struct             *)
(* ===================================================================== *)

Section struct_call_facts.

Context {rt : GoRuntime}.

Lemma checkReflectArgs_checkArgs (t : Function) (i : nat) (args : list value) :
  checkReflectArgs t i (ValueOf <$> args)
  = (_ ←ₒ checkArgs t i args; Ok tt).
Proof.
  revert i. induction args as [|arg rest IH]; intros i; [done|].
  cbn [fmap list_fmap checkReflectArgs checkArgs].
  assert (Hty : valueType <$> ValueOf arg = typeOf arg).
  { unfold ValueOf. by destruct (typeOf arg). }
  rewrite Hty. destruct (typeOf arg) as [ty|]; [|done].
  destruct (paramTypes t !! i) as [pt|]; [|done]. cbn [orPanic obind].
  destruct (negb (AssignableTo ty pt)).
  - by destruct (paramNames t !! i).
  - rewrite IH. by destruct (checkArgs t (S i) rest).
Qed.

Lemma validArgs_Some (vals : list rvalue) : validArgs (Some <$> vals) = Ok vals.
Proof.
  induction vals as [|v vals IH]; [done|].
  cbn [fmap list_fmap validArgs orPanic obind]. by rewrite IH.
Qed.

(** Reading the fields of a record by the capitalised parameter names gives
    the Values of its fields, when its field names are these names, each
    once. *)
Lemma structArgs_record (recordType : rtype) (fields : list StructField)
  (fieldValues : list value) (names : list string) :
  structFields recordType = Some fields →
  fieldName <$> fields = capitalizeFirst <$> names →
  NoDup (fieldName <$> fields) →
  length fieldValues = length fields →
  structArgs (valueOf recordType (VStruct recordType fieldValues)) names
  = Some <$> zip_with fieldValue fields fieldValues.
Proof.
  intros Hfields Hnames Hnd Hlen.
  assert (Hcount : length names = length fields).
  { rewrite <- (length_fmap capitalizeFirst names), <- Hnames.
    by rewrite length_fmap. }
  unfold structArgs. apply list_eq. intros i.
  rewrite !list_lookup_fmap, lookup_zip_with.
  destruct (names !! i) as [name|] eqn:Hname.
  - destruct (lookup_lt_is_Some_2 fields i) as [f Hf].
    { rewrite <- Hcount. by eapply lookup_lt_Some. }
    destruct (lookup_lt_is_Some_2 fieldValues i) as [v Hv].
    { rewrite Hlen. by eapply lookup_lt_Some. }
    assert (Hcap : fieldName f = capitalizeFirst name).
    { assert (Hl : (fieldName <$> fields) !! i = Some (fieldName f))
        by (by rewrite list_lookup_fmap, Hf).
      rewrite Hnames, list_lookup_fmap, Hname in Hl. by injection Hl. }
    rewrite Hf, Hv. cbn [fmap option_fmap option_map mbind option_bind].
    rewrite <- Hcap.
    by rewrite (FieldByName_record recordType fields fieldValues i f v).
  - apply lookup_ge_None in Hname.
    rewrite (proj2 (lookup_ge_None fields i)) by lia. done.
Qed.

Lemma fieldValue_data (fields : list StructField) (fieldValues : list value) :
  length fieldValues = length fields →
  valueData <$> zip_with fieldValue fields fieldValues = fieldValues.
Proof.
  revert fieldValues. induction fields as [|f fields IH];
    intros [|v fieldValues] Hlen; try done.
  cbn. f_equal. apply IH. by injection Hlen.
Qed.

Lemma fieldValue_readOnly (fields : list StructField)
  (fieldValues : list value) :
  forallb IsExported fields = true →
  existsb readOnly (zip_with fieldValue fields fieldValues) = false.
Proof.
  revert fieldValues. induction fields as [|f fields IH];
    intros [|v fieldValues]; try done.
  cbn. intros [-> Hrest]%andb_prop. cbn. by apply IH.
Qed.

Lemma fieldValue_assignable (fields : list StructField)
  (fieldValues : list value) :
  (∀ ty, AssignableTo ty ty = true) →
  length fieldValues = length fields →
  Forall2 (λ x pt, AssignableTo (valueType x) pt = true)
    (zip_with fieldValue fields fieldValues) (fieldType <$> fields).
Proof.
  intros Hrefl. revert fieldValues. induction fields as [|f fields IH];
    intros [|v fieldValues] Hlen; try done; cbn; constructor.
  - apply Hrefl.
  - apply IH. by injection Hlen.
Qed.

(** A value of another type than the struct type of the descriptor is
    refused, the callable left alone. *)
Lemma CallWithStruct_mismatch (t : Function) (record : value)
  (suppliedType : rtype) (σ : calls) :
  typeOf record = Some suppliedType → isPtrKind suppliedType = false →
  suppliedType ≠ structType t →
  CallWithStruct t record σ
  = (Err (ErrStructTypeMismatch (structType t) suppliedType), σ).
Proof.
  intros Hty Hkind Hne. unfold CallWithStruct.
  rewrite (ValueOf_typed _ _ Hty). cbn [valueOf valueType]. rewrite Hkind.
  unfold bind at 1, lift at 1. cbn [orPanic valueOf valueType].
  by rewrite (proj2 (rtype_eqb_neq _ _) Hne).
Qed.

(** A record of the struct type of the descriptor itself is handed to
    [function.Call] field by field. *)
Lemma CallWithStruct_identical (t : Function) (fields : list StructField)
  (fieldValues : list value) (σ : calls) :
  structType t = TStruct fields →
  fieldName <$> fields = capitalizeFirst <$> paramNames t →
  NoDup (fieldName <$> fields) →
  length fieldValues = length fields →
  CallWithStruct t (VStruct (structType t) fieldValues) σ
  = invoke (functionType t) (function t)
      (zip_with fieldValue fields fieldValues) σ.
Proof.
  intros Hsty Hnames Hnd Hlen. unfold CallWithStruct.
  rewrite (ValueOf_typed _ (structType t)) by done.
  cbn [valueOf valueType]. rewrite Hsty at 1. cbn [isPtrKind].
  unfold bind at 1, lift at 1. cbn [orPanic valueType].
  rewrite rtype_eqb_refl. cbn [negb].
  change {| valueType := structType t;
            valueData := VStruct (structType t) fieldValues;
            readOnly := false |}
    with (valueOf (structType t) (VStruct (structType t) fieldValues)).
  rewrite (structArgs_record (structType t) fields fieldValues);
    [|by rewrite Hsty|done..].
  unfold callReflect, bind, lift. by rewrite validArgs_Some.
Qed.

(** A pointer to a record is treated as the record. *)
Lemma CallWithStruct_pointer (t : Function) (record : value)
  (suppliedType : rtype) (σ : calls) :
  typeOf record = Some suppliedType → isPtrKind suppliedType = false →
  CallWithStruct t (VPtr record) σ = CallWithStruct t record σ.
Proof.
  intros Hty Hkind. unfold CallWithStruct.
  assert (Hptr : typeOf (VPtr record) = Some (TPtr suppliedType))
    by (cbn; by rewrite Hty).
  rewrite (ValueOf_typed _ _ Hty), (ValueOf_typed _ _ Hptr).
  cbn [valueOf valueType valueData readOnly isPtrKind Elem].
  rewrite Hty, Hkind. reflexivity.
Qed.

End struct_call_facts.

(** X13. [CallWithReflect] on the reflect Values of a list of arguments
    behaves as [Call] on the arguments: the same result, the same error or
    panic, the same invocation of the callable. *)
Theorem reflect_call_is_call {rt : GoRuntime} (t : Function)
  (args : list value) (σ : calls) :
  CallWithReflect t (ValueOf <$> args) σ = Call t args σ.
Proof.
  unfold CallWithReflect, Call. rewrite length_fmap.
  destruct (negb (length args =? length (paramTypes t))); [done|].
  unfold bind, lift. rewrite checkReflectArgs_checkArgs.
  destruct (checkArgs t 0 args) as [cs|e|] eqn:Hcheck; [|done..].
  cbn [obind]. by rewrite (checkArgs_Ok _ _ _ _ Hcheck).
Qed.

(** X14. Round trip through the struct of a descriptor built by
    [NewFunction], identical types being assignable. The fields of its
    struct type have the parameter types, so that for a callable that is
    not variadic a record of this type, or a pointer to one, is dispatched
    to the callable with its field values in declared order, without any
    further check: the callable is invoked once on them and its results are
    returned; when the values are assignable to the parameter types this is
    the positional call on them. For a variadic callable whose slice type
    is not assignable to its element type the dispatch panics, the callable
    uninvoked. *)
Theorem struct_round_trip {rt : GoRuntime} (st : ResolverState) (env : Env)
  (fn : candidateFn) (t : Function) (fieldValues : list value) (σ : calls) :
  NewFunction st env fn = Ok t →
  (∀ ty, AssignableTo ty ty = true) →
  length fieldValues = length (paramTypes t) →
  (IsVariadic (functionType t) = false →
   CallWithStruct t (VStruct (structType t) fieldValues) σ
   = (Ok (function t fieldValues), σ ++ [fieldValues]) ∧
   CallWithStruct t (VPtr (VStruct (structType t) fieldValues)) σ
   = (Ok (function t fieldValues), σ ++ [fieldValues]) ∧
   (Forall2 accepted fieldValues (paramTypes t) →
    CallWithStruct t (VStruct (structType t) fieldValues) σ
    = Call t fieldValues σ)) ∧
  (∀ elem, variadicOver t elem → AssignableTo (TSlice elem) elem = false →
           CallWithStruct t (VStruct (structType t) fieldValues) σ
           = (Panic, σ)).
Proof.
  intros Hnew Hrefl Hlen.
  destruct (NewFunction_structType _ _ _ _ Hnew)
    as (fields & Hsty & Hfields & Hnames & Htypes & Hnd).
  pose proof (NewFunction_inTypes _ _ _ _ Hnew) as Hin.
  assert (Hcount : length fieldValues = length fields).
  { rewrite Hlen, <- Htypes. by rewrite length_fmap. }
  assert (Hcall : CallWithStruct t (VStruct (structType t) fieldValues) σ
                  = invoke (functionType t) (function t)
                      (zip_with fieldValue fields fieldValues) σ)
    by (by apply CallWithStruct_identical).
  assert (Hassign : Forall2 (λ x pt, AssignableTo (valueType x) pt = true)
                      (zip_with fieldValue fields fieldValues)
                      (inTypes (functionType t))).
  { rewrite Hin, <- Htypes. by apply fieldValue_assignable. }
  split.
  - intros Hvar.
    assert (Hok : CallWithStruct t (VStruct (structType t) fieldValues) σ
                  = (Ok (function t fieldValues), σ ++ [fieldValues])).
    { rewrite Hcall. unfold invoke.
      rewrite reflectAccepts_fixed, fieldValue_data; [done..|].
      apply fieldValue_readOnly. by eapply createStructFields_exported. }
    split; [exact Hok|]. split.
    + rewrite <- Hok. apply (CallWithStruct_pointer _ _ (structType t)).
      * reflexivity.
      * by rewrite Hsty.
    + intros Hall. rewrite Hok. symmetry. by apply Call_accepted.
  - intros elem (_ & Hvar & Hlast) Hslice. rewrite Hcall. unfold invoke.
    rewrite <- Hin in Hlast.
    destruct (lookup_lt_is_Some_2 (zip_with fieldValue fields fieldValues)
                (length (inTypes (functionType t)) - 1)) as [x Hx].
    { rewrite (Forall2_length _ _ _ Hassign). by eapply lookup_lt_Some. }
    rewrite (reflectAccepts_variadic _ elem _ x); [done..|].
    apply lookup_zip_with_Some in Hx as (f & v & -> & Hf & Hv).
    assert (Hft : fieldType f = TSlice elem).
    { assert (Hl : (fieldType <$> fields)
                   !! (length (inTypes (functionType t)) - 1)
                   = Some (fieldType f)) by (by rewrite list_lookup_fmap, Hf).
      rewrite Htypes, <- Hin, Hlast in Hl. by injection Hl. }
    cbn [fieldValue valueType]. by rewrite Hft.
Qed.

Lemma struct_round_trip_witness :
  NewFunction (rt := sampleRuntime) sampleState sampleEnv
    (IsFunc "main.greet" [TBasic "string"; TBasic "int"] [TBasic "string"]
       false echo)
  = Ok greet ∧
  length [VString "Alice"; VInt 30] = length (paramTypes greet) ∧
  IsVariadic (functionType greet) = false ∧
  CallWithStruct (rt := sampleRuntime) greet
    (VStruct (structType greet) [VString "Alice"; VInt 30]) []
  = (Ok [VString "Alice"; VInt 30], [] ++ [[VString "Alice"; VInt 30]]).
Proof.
  assert (Hrefl : ∀ ty, AssignableTo (GoRuntime := sampleRuntime) ty ty = true).
  { intros ty. cbn. by rewrite rtype_eqb_refl. }
  split; [exact greet_constructed|]. split; [reflexivity|].
  split; [reflexivity|].
  exact (proj1 (proj1 (struct_round_trip (rt := sampleRuntime) _ _ _ greet
                         [VString "Alice"; VInt 30] [] greet_constructed
                         Hrefl eq_refl) eq_refl)).
Defined.

(** X15. [CallWithStruct] asks for the struct type of the descriptor
    itself: a record of any other type is refused with the struct-type
    mismatch error and the callable is left alone. In particular, for a
    descriptor built by [NewFunction] with at least one parameter, the
    struct type made with default options exists, has the same field names
    and types, but no tags, so it is another type and its records are
    refused. *)
Theorem struct_identity_required {rt : GoRuntime} (st : ResolverState)
  (env : Env) (fn : candidateFn) (t : Function) :
  (∀ record suppliedType σ,
     typeOf record = Some suppliedType → isPtrKind suppliedType = false →
     suppliedType ≠ structType t →
     CallWithStruct t record σ
     = (Err (ErrStructTypeMismatch (structType t) suppliedType), σ)) ∧
  (NewFunction st env fn = Ok t → paramNames t ≠ [] →
   ∃ plain,
     GetStructTypeWithOptions t {| FieldNamer := None; TagBuilder := None |}
     = Ok plain ∧
     structTypesCompatible plain (structType t) = true ∧
     plain ≠ structType t ∧
     ∀ fieldValues σ,
       CallWithStruct t (VStruct plain fieldValues) σ
       = (Err (ErrStructTypeMismatch (structType t) plain), σ)).
Proof.
  split; [intros record ty σ; apply CallWithStruct_mismatch|].
  intros Hnew Hnonempty.
  destruct (NewFunction_structType _ _ _ _ Hnew)
    as (fields & Hsty & Hfields & Hnames & Htypes & Hnd).
  destruct (NewFunction_Ok _ _ _ _ Hnew)
    as (ins & outs & variadic & fields0 & _ & _ & Hpt & _ & _ & _ & Hfields0
        & Hof).
  rewrite <- Hpt, Hfields in Hfields0. injection Hfields0 as <-.
  destruct (structFieldsFromParams_default _ _ _ _ Hfields)
    as (fields' & Hfields' & Hall).
  assert (Hplain : StructOf fields' = Some (TStruct fields')).
  { unfold StructOf in *. rewrite <- (structOfLoop_names _ _ _ Hall).
    by destruct (structOfLoop ∅ fields). }
  assert (Hne : TStruct fields' ≠ structType t).
  { rewrite Hsty. intros [= ->].
    pose proof (createStructFields_tagged _ _ _ _ Hfields) as Htagged.
    pose proof (structFieldsFromParams_untagged _ _ _ _ Hfields') as Hplain'.
    destruct fields as [|f fields].
    - apply (f_equal length) in Hnames. rewrite !length_fmap in Hnames.
      by destruct (paramNames t).
    - apply Forall_cons_1 in Htagged as [Htag _].
      apply Forall_cons_1 in Hplain' as [Hno _]. done. }
  exists (TStruct fields'). split.
  - unfold GetStructTypeWithOptions, createStructTypeFromParams.
    rewrite Hfields'. cbn [obind]. by rewrite Hplain.
  - split.
    + rewrite Hsty. apply structTypesCompatible_Forall2.
      exists fields', fields. split; [done|]. split; [done|].
      apply Forall2_flip. eapply Forall2_impl; [exact Hall|].
      apply sameNameAndType_sym.
    + split; [done|]. intros fieldValues σ.
      by apply CallWithStruct_mismatch.
Qed.

Lemma struct_identity_required_witness :
  typeOf query = Some queryType ∧ isPtrKind queryType = false ∧
  queryType ≠ structType greet ∧
  CallWithStruct (rt := sampleRuntime) greet query []
  = (Err (ErrStructTypeMismatch (structType greet) queryType), []).
Proof.
  split; [reflexivity|]. split; [reflexivity|].
  assert (Hne : queryType ≠ structType greet) by discriminate.
  split; [exact Hne|].
  exact (proj1 (struct_identity_required (rt := sampleRuntime) sampleState
                  sampleEnv (NotFunc VNil) greet)
           query queryType [] eq_refl eq_refl Hne).
Defined.

(* ===================================================================== *)
(** * What every invocation style guarantees                               *)
(* ===================================================================== *)

Section safety_facts.

Context {rt : GoRuntime}.

Lemma atMostOnce_lift (f : list value → list value) (σ : calls)
  (o : outcome (list value)) :
  (∀ results, o ≠ Ok results) → atMostOnce f σ (lift o σ).
Proof. intros Hfail. left. by split. Qed.

Lemma atMostOnce_invoke (fnType : FuncType) (f : list value → list value)
  (σ : calls) (callArgs : list rvalue) :
  atMostOnce f σ (invoke fnType f callArgs σ).
Proof.
  unfold invoke. destruct (reflectAccepts fnType callArgs).
  - right. by exists (valueData <$> callArgs).
  - left. by split.
Qed.

(** A pure step in front of an invocation keeps the guarantee. *)
Lemma atMostOnce_bind_lift {A : Type} (f : list value → list value)
  (σ : calls) (o : outcome A) (k : A → M (list value)) :
  (∀ a, o = Ok a → atMostOnce f σ (k a σ)) →
  atMostOnce f σ ((a ←ₘ lift o; k a) σ).
Proof.
  intros Hk. unfold bind, lift. destruct o as [a|e|]; [by apply Hk|..];
    left; by split.
Qed.

Lemma atMostOnce_Call (t : Function) (args : list value) (σ : calls) :
  atMostOnce (function t) σ (Call t args σ).
Proof.
  destruct (Call_outcomes t args σ) as [[-> _] | [(e & -> & _) | ->]].
  - right. by exists args.
  - left. by split.
  - left. by split.
Qed.

Lemma atMostOnce_callReflect (fnType : FuncType)
  (f : list value → list value) (args : list Value) (σ : calls) :
  atMostOnce f σ (callReflect fnType f args σ).
Proof.
  unfold callReflect. apply atMostOnce_bind_lift. intros a _.
  apply atMostOnce_invoke.
Qed.

Lemma atMostOnce_CallWithContext (t : Function) (ctx : value)
  (args : list value) (σ : calls) :
  atMostOnce (function t) σ (CallWithContext t ctx args σ).
Proof.
  unfold CallWithContext. destruct (length (GetContextPositions t) =? 0).
  - apply atMostOnce_Call.
  - apply atMostOnce_bind_lift. intros a _. apply atMostOnce_Call.
Qed.

Lemma orderArgs_Ok (t : Function) (argMap : gmap string value) (i : nat)
  (names : list string) (args : list value) :
  orderArgs t argMap i names = Ok args →
  args = (λ name, default VNil (argMap !! name)) <$> names.
Proof.
  revert i args. induction names as [|name rest IH]; intros i args.
  - by intros [= <-].
  - cbn [orderArgs].
    destruct (typeOf (default VNil (argMap !! name))) as [ty|]; [|done].
    destruct (paramTypes t !! i) as [pt|]; [|done]. cbn [orPanic obind].
    destruct (negb (AssignableTo ty pt)); [done|].
    destruct (orderArgs t argMap (S i) rest) as [args'| |] eqn:Hrest;
      [|done..].
    cbn [obind]. intros [= <-]. cbn. f_equal. by eapply IH.
Qed.

Lemma missingParams_In (argMap : gmap string value) (names : list string)
  (n : string) :
  In n (missingParams argMap names) ↔ In n names ∧ argMap !! n = None.
Proof.
  induction names as [|name rest IH]; [cbn; tauto|].
  cbn [missingParams]. destruct (argMap !! name) as [v|] eqn:Hname.
  - rewrite IH. cbn [In]. split; [tauto|].
    intros [[<-|?] ?]; [congruence | tauto].
  - cbn [In]. rewrite IH. split; [|tauto].
    intros [<-|[? ?]]; tauto.
Qed.

End safety_facts.

(** X16. Every invocation style runs the wrapped callable at most once, and
    only when it succeeds: either it returns an error or panics with the
    callable not invoked, or the callable was invoked exactly once and the
    result is what it returned on the arguments it was invoked with. *)
Theorem invoked_at_most_once {rt : GoRuntime} (t : Function) (σ : calls) :
  (∀ args, atMostOnce (function t) σ (Call t args σ)) ∧
  (∀ args, atMostOnce (function t) σ (CallWithReflect t args σ)) ∧
  (∀ argStruct, atMostOnce (function t) σ (CallWithStruct t argStruct σ)) ∧
  (∀ ctx args, atMostOnce (function t) σ (CallWithContext t ctx args σ)) ∧
  (∀ ctx argStruct,
     atMostOnce (function t) σ
       (CallWithNonContextStructAndContext t ctx argStruct σ)) ∧
  (∀ argMap, atMostOnce (function t) σ (CallWithMap t argMap σ)).
Proof.
  split; [intros args; apply atMostOnce_Call|]. split.
  { intros args. unfold CallWithReflect. destruct (negb _).
    - by apply atMostOnce_lift.
    - apply atMostOnce_bind_lift. intros _ _. apply atMostOnce_callReflect. }
  split.
  { intros argStruct. unfold CallWithStruct.
    apply atMostOnce_bind_lift. intros v _. cbn zeta. destruct (negb _).
    - by apply atMostOnce_lift.
    - apply atMostOnce_callReflect. }
  split; [intros ctx args; apply atMostOnce_CallWithContext|]. split.
  { intros ctx argStruct. unfold CallWithNonContextStructAndContext.
    apply atMostOnce_bind_lift. intros nct _.
    apply atMostOnce_bind_lift. intros v _. cbn zeta. destruct (negb _).
    - by apply atMostOnce_lift.
    - apply atMostOnce_bind_lift. intros r _.
      apply atMostOnce_bind_lift. intros args _.
      apply atMostOnce_CallWithContext. }
  intros argMap. unfold CallWithMap.
  apply atMostOnce_bind_lift. intros args _. apply atMostOnce_callReflect.
Qed.

(** X17. [CallWithMap] refuses a map that is not exactly the declared
    names. On a well-formed descriptor a map that has every declared name
    and one more key is refused with the wrong-argument-count error: extra
    keys are not ignored. A map of the right size that lacks a declared
    name is refused with the missing-parameters error, which lists exactly
    the declared names that are absent. A map that is accepted is
    dispatched on its values in declared order. The callable is not invoked
    in the first two cases. *)
Theorem named_call_rejections {rt : GoRuntime} (t : Function)
  (argMap : gmap string value) (σ : calls) :
  (wellFormed t →
   (∀ name, In name (paramNames t) → is_Some (argMap !! name)) →
   (∃ extra, is_Some (argMap !! extra) ∧ ¬ In extra (paramNames t)) →
   length (paramTypes t) < size argMap ∧
   CallWithMap t argMap σ
   = (Err (ErrWrongArgCount (length (paramTypes t)) (size argMap)), σ)) ∧
  (size argMap = length (paramTypes t) →
   (∃ name, In name (paramNames t) ∧ argMap !! name = None) →
   ∃ missing,
     missing ≠ [] ∧
     (∀ n, In n missing ↔ In n (paramNames t) ∧ argMap !! n = None) ∧
     CallWithMap t argMap σ
     = (Err (ErrMissingParams missing (funcName t) (paramNames t)), σ)) ∧
  (∀ results σ',
     CallWithMap t argMap σ = (Ok results, σ') →
     size argMap = length (paramTypes t) ∧
     (∀ name, In name (paramNames t) → is_Some (argMap !! name)) ∧
     results = function t (inDeclaredOrder t argMap) ∧
     σ' = σ ++ [inDeclaredOrder t argMap]).
Proof.
  split; [|split].
  - intros [Hlen Hnd] Hall (extra & Hextra & Hnot).
    assert (Hsize : length (paramTypes t) < size argMap).
    { rewrite <- Hlen, <- (size_list_to_set (C := gset string)) by done.
      rewrite <- size_dom. apply subset_size. split.
      - intros k Hk%elem_of_list_to_set%list_elem_of_In.
        by apply elem_of_dom, Hall.
      - intros Hsub. apply Hnot, list_elem_of_In.
        eapply (elem_of_list_to_set (C := gset string)).
        by apply Hsub, elem_of_dom. }
    split; [done|]. unfold CallWithMap, MapToArgs, bind, lift.
    assert (Hneq : (size argMap =? length (paramTypes t)) = false)
      by (apply Nat.eqb_neq; lia).
    by rewrite Hneq.
  - intros Hsize (name & Hin & Hnone).
    exists (missingParams argMap (paramNames t)).
    assert (Hmissing : In name (missingParams argMap (paramNames t)))
      by (by apply missingParams_In).
    split; [by destruct (missingParams argMap (paramNames t))|].
    split; [intros n; apply missingParams_In|].
    unfold CallWithMap, MapToArgs, bind, lift.
    rewrite Hsize, Nat.eqb_refl. cbn [negb].
    by destruct (missingParams argMap (paramNames t)).
  - intros results σ'. unfold CallWithMap, MapToArgs, bind, lift.
    destruct (size argMap =? length (paramTypes t)) eqn:Hsize; [|done].
    cbn [negb].
    destruct (missingParams argMap (paramNames t)) as [|m ms] eqn:Hmissing;
      [|done].
    cbn [length Nat.ltb Nat.leb].
    destruct (orderArgs t argMap 0 (paramNames t)) as [args| |] eqn:Hargs;
      [|done..].
    apply orderArgs_Ok in Hargs as ->. cbn [obind].
    change ((λ name, default VNil (argMap !! name)) <$> paramNames t)
      with (inDeclaredOrder t argMap).
    destruct (callReflect_ValueOf (functionType t) (function t)
                (inDeclaredOrder t argMap) σ) as [-> | ->]; [|done].
    intros [= <- <-].
    split; [by apply Nat.eqb_eq|]. split; [|done].
    intros name Hin. destruct (argMap !! name) eqn:Hname; [by eexists|].
    assert (Hm : In name (missingParams argMap (paramNames t)))
      by (by apply missingParams_In).
    by rewrite Hmissing in Hm.
Qed.

Lemma named_call_rejections_witness :
  wellFormed greet ∧
  CallWithMap (rt := sampleRuntime) greet
    (<["name" := VString "Alice"]> (<["age" := VInt 30]>
       (<["nick" := VString "Al"]> ∅))) []
  = (Err (ErrWrongArgCount 2 3), []).
Proof.
  assert (Hwf : wellFormed greet).
  { exact (NewFunction_wellFormed (rt := sampleRuntime) _ _ _ _
             greet_constructed). }
  split; [exact Hwf|].
  refine (proj2 (proj1 (named_call_rejections (rt := sampleRuntime) greet
                          (<["name" := VString "Alice"]> (<["age" := VInt 30]>
                             (<["nick" := VString "Al"]> ∅))) []) Hwf _ _)).
  - intros name [<-|[<-|[]]]; by eexists.
  - exists "nick". split; [by eexists|]. intros [H|[H|[]]]; discriminate H.
Defined.

Section context_success_facts.

Context {rt : GoRuntime}.

(** Without a context position the non-context types are all the types. *)
Lemma nonContextFrom_all (names : list string) (i : nat) (pts : list rtype)
  (ns : list string) (ts : list rtype) :
  contextPositionsFrom i pts = [] →
  nonContextFrom names i pts = Ok (ns, ts) → ts = pts.
Proof.
  revert i ns ts. induction pts as [|pt rest IH]; intros i ns ts.
  - by intros _ [= <- <-].
  - cbn [contextPositionsFrom nonContextFrom].
    destruct (rtype_eqb pt contextType); [done|]. cbn [negb].
    intros Hnone. destruct (names !! i) as [name|]; [|done].
    cbn [orPanic obind].
    destruct (nonContextFrom names (S i) rest) as [[ns' ts']| |] eqn:Hrest;
      [|done..].
    cbn [obind fst snd]. intros [= <- <-]. f_equal. by eapply IH.
Qed.

(** Accepted arguments for the non-context types and an accepted context
    value splice into a list accepted by all the parameter types. *)
Lemma splice_accepted (names : list string) (i : nat) (pts : list rtype)
  (ns : list string) (ts : list rtype) (ctx : value) (args : list value) :
  nonContextFrom names i pts = Ok (ns, ts) →
  accepted ctx contextType →
  Forall2 accepted args ts →
  ∃ fullArgs, splice ctx pts args = Some fullArgs ∧
              Forall2 accepted fullArgs pts.
Proof.
  intros Hnc Hctx. revert i ns ts args Hnc.
  induction pts as [|pt rest IH]; intros i ns ts args.
  - intros [= <- <-] Hall. exists []. split; [done|]. constructor.
  - cbn [nonContextFrom splice].
    destruct (rtype_eqb pt contextType) eqn:Hpt; cbn [negb].
    + intros Hrest Hall.
      destruct (IH _ _ _ _ Hrest Hall) as (tl & -> & Htl).
      exists (ctx :: tl). split; [done|]. constructor; [|done].
      by apply rtype_eqb_sound in Hpt as ->.
    + destruct (names !! i) as [name|]; [|done]. cbn [orPanic obind].
      destruct (nonContextFrom names (S i) rest) as [[ns' ts']| |] eqn:Hrest;
        [|done..].
      cbn [obind fst snd]. intros [= <- <-] Hall.
      destruct args as [|a args']; [by inversion Hall|].
      apply Forall2_cons in Hall as [Ha Hall].
      destruct (IH _ _ _ _ Hrest Hall) as (tl & -> & Htl).
      exists (a :: tl). split; [done|]. by constructor.
Qed.

End context_success_facts.

(** X18. [CallWithContext] succeeds on the arguments it is made for: for
    a callable that is not variadic, when the supplied arguments are
    accepted, one by one, by the types that [GetNonContextParameters]
    reports, and the context value is accepted by the context type wherever
    the descriptor has a context parameter, the callable is invoked once,
    on the spliced list, which has one entry per parameter, and its result
    is returned. *)
Theorem context_call_succeeds {rt : GoRuntime} (t : Function) (ctx : value)
  (args : list value) (σ : calls) (names : list string) (types : list rtype) :
  fixedArity t →
  GetNonContextParameters t = Ok (names, types) →
  (GetContextPositions t ≠ [] → accepted ctx contextType) →
  Forall2 accepted args types →
  ∃ fullArgs,
    splice ctx (paramTypes t) args = Some fullArgs ∧
    length fullArgs = length (paramTypes t) ∧
    CallWithContext t ctx args σ
    = (Ok (function t fullArgs), σ ++ [fullArgs]).
Proof.
  intros Hfixed Hnc Hctx Hall.
  destruct (GetContextPositions t) as [|p ps] eqn:Hpos.
  - unfold GetNonContextParameters in Hnc.
    apply (nonContextFrom_all _ _ _ _ _ Hpos) in Hnc as ->.
    exists args. split; [|split].
    + apply (splice_no_context _ _ _ 0 Hpos). by eapply Forall2_length.
    + by eapply Forall2_length.
    + unfold CallWithContext. rewrite Hpos. cbn [length Nat.eqb].
      by apply Call_accepted.
  - destruct (splice_accepted _ _ _ _ _ ctx args Hnc) as (full & Hfull & Hacc);
      [by apply Hctx | done |].
    exists full. split; [done|]. split; [by eapply splice_length|].
    rewrite CallWithContext_spliced by (by rewrite Hpos).
    rewrite Hfull. by apply Call_accepted.
Qed.

Lemma context_call_succeeds_witness :
  fixedArity relay ∧
  ∃ fullArgs,
    splice background (paramTypes relay) [VInt 7; VString "x"] = Some fullArgs ∧
    length fullArgs = length (paramTypes relay) ∧
    CallWithContext (rt := sampleRuntime) relay background
      [VInt 7; VString "x"] []
    = (Ok (function relay fullArgs), [] ++ [fullArgs]).
Proof.
  assert (Hfixed : fixedArity relay) by (by split).
  split; [exact Hfixed|].
  apply (context_call_succeeds (rt := sampleRuntime) relay background
           [VInt 7; VString "x"] [] ["id"; "label"]
           [TBasic "int"; TBasic "string"] Hfixed).
  - reflexivity.
  - intros _. exists backgroundCtx. by split.
  - repeat constructor; eexists; by split.
Defined.
